(** * SysML v2 tokenizer and recursive-descent parser (src/App.tsx)

    A shallow embedding of the two classes [SysMLTokenizer] and
    [SysMLParser] of [src/App.tsx], of the record [ASTNode] they build and
    of the selection test of [astToSVG], followed by the properties of the
    text-to-tree pipeline.

    JavaScript strings are sequences of UTF-16 code units; a character is
    the code unit itself, so the regular-expression classes of the source
    are predicates on numbers.  Methods of a class are computations in a
    state monad over the fields of the object; [throw] is the [Throw]
    outcome and keeps the fields as they were at that moment, the way a
    JavaScript exception leaves the object it unwinds from.  Loops and the
    recursion of the grammar take a bound on the number of iterations they
    may run; running out of it is the third outcome, [OutOfFuel]. *)

From Stdlib Require Import Ascii String NArith Lia.
From stdpp Require Import base option list sorting gmap strings numbers.

Set Default Proof Using "Type".

(** ** JavaScript strings *)

Definition jsstring : Type := list N.

(** The code units of an ASCII literal of the source. *)
Definition js (s : string) : jsstring :=
  (λ a, N_of_ascii a) <$> list_ascii_of_string s.

(** A one-character literal such as ['{'], as a code unit. *)
Definition chr (a : ascii) : N := N_of_ascii a.

Global Arguments js : simpl never.
Global Arguments chr : simpl never.

(** [re.test(c)] for a character class given by its members. *)
Definition one_of (members : string) (c : N) : bool :=
  bool_decide (c ∈ js members).

Definition in_range (lo hi : ascii) (c : N) : bool :=
  (chr lo <=? c)%N && (c <=? chr hi)%N.

(** [/\s/]: the WhiteSpace and LineTerminator code units of ECMAScript. *)
Definition is_space (c : N) : bool :=
  bool_decide (c ∈ [9; 10; 11; 12; 13; 32; 160; 5760; 8232; 8233; 8239;
                    8287; 12288; 65279]%N)
  || ((8192 <=? c)%N && (c <=? 8202)%N).

(** [/\d/] *)
Definition is_digit (c : N) : bool := in_range "0" "9" c.

(** [/[\d.]/] *)
Definition is_number_char (c : N) : bool := is_digit c || one_of "." c.

(** [/[a-zA-Z_]/] *)
Definition is_ident_start (c : N) : bool :=
  in_range "a" "z" c || in_range "A" "Z" c || one_of "_" c.

(** [/[a-zA-Z0-9_]/] *)
Definition is_ident_char (c : N) : bool :=
  in_range "a" "z" c || in_range "A" "Z" c || is_digit c || one_of "_" c.

(** [/[{}();:,.]/] *)
Definition is_punctuation (c : N) : bool := one_of "{}();:,." c.

(** [/[=<>!+\-*/]/] *)
Definition is_operator (c : N) : bool := one_of "=<>!+-*/" c.

Definition NEWLINE : N := 10%N.
Definition BACKSLASH : N := 92%N.
Definition DQUOTE : N := 34%N.
Definition SQUOTE : N := 39%N.

(** ** Tokens *)

Inductive TokenType : Type :=
  | KEYWORD | IDENTIFIER | STRING | NUMBER | OPERATOR | PUNCTUATION
  | COMMENT | WHITESPACE | EOF.

Global Instance TokenType_eq_dec : EqDecision TokenType.
Proof. solve_decision. Defined.

(** The payload of a token and of a property.  [VNum lexeme] is the Number
    [parseFloat(lexeme)]; only the lexeme is kept, the floating-point value
    is not computed.  [VNull] is [null]. *)
Inductive Value : Type :=
  | VStr (s : jsstring)
  | VNum (lexeme : jsstring)
  | VNull.

Global Instance Value_eq_dec : EqDecision Value.
Proof. solve_decision. Defined.

Module Token.
Record t : Type := mk {
  type : TokenType;
  value : Value;
  line : nat;
  column : nat
}.
End Token.
Abbreviation Token := Token.t.

Global Instance Token_eq_dec : EqDecision Token.
Proof. solve_decision. Defined.

(** [KEYWORDS], the [Set] of reserved words. *)
Definition KEYWORDS : gset jsstring :=
  list_to_set (js <$>
    [ "package"; "part"; "attribute"; "port"; "connection"; "interface";
      "block"; "requirement"; "constraint"; "activity"; "state"; "transition";
      "use"; "case"; "actor"; "subject"; "stakeholder"; "concern";
      "view"; "viewpoint"; "rendering"; "expose"; "import"; "private";
      "protected"; "public";
      "abstract"; "readonly"; "derived"; "end"; "redefines"; "specializes";
      "conjugates" ]).

(** ** Outcomes and the method monad *)

(** The [Error] thrown by [expect]: its message is made of the expected
    token type, the expected text when one was asked for, and the token
    found ([None] prints as EOF). *)
Record Error : Type := mkError {
  expected_type : TokenType;
  expected_value : option jsstring;
  actual : option Token
}.

Inductive outcome (S A : Type) : Type :=
  | Return (a : A) (s : S)
  | Throw (e : Error) (s : S)
  | OutOfFuel.
Arguments Return {S A} a s.
Arguments Throw {S A} e s.
Arguments OutOfFuel {S A}.

Definition M (S A : Type) : Type := S → outcome S A.

Global Instance M_ret {S} : MRet (M S) := λ A (a : A) s, Return a s.

Global Instance M_bind {S} : MBind (M S) := λ A B (k : A → M S B) (m : M S A) s,
  match m s with
  | Return a s' => k a s'
  | Throw e s' => Throw e s'
  | OutOfFuel => OutOfFuel
  end.

Definition get {S} : M S S := λ s, Return s s.
Definition modify {S} (f : S → S) : M S unit := λ s, Return tt (f s).
Definition throw {S A} (e : Error) : M S A := λ s, Throw e s.
Definition out_of_fuel {S A} : M S A := λ _, OutOfFuel.

(** [while (cond) { a = body(a) }], where [a] stands for the local
    variables the loop updates.  The test is evaluated before fuel is
    looked at, so a loop that is over needs none. *)
Fixpoint while {S A} (fuel : nat) (cond : S → bool) (body : A → M S A)
    (a : A) : M S A :=
  λ s, if cond s then
         match fuel with
         | 0 => OutOfFuel
         | Datatypes.S fuel' =>
             match body a s with
             | Return a' s' => while fuel' cond body a' s'
             | Throw e s' => Throw e s'
             | OutOfFuel => OutOfFuel
             end
         end
       else Return a s.

Definition gets {S A} (f : S → A) : M S A := λ s, Return (f s) s.

(** [value += c]; concatenating [null] would append its printed form. *)
Definition append (value : jsstring) (c : option N) : jsstring :=
  match c with
  | Some c => value ++ [c]
  | None => value ++ js "null"
  end.

(** ** class SysMLTokenizer *)

Module SysMLTokenizer.

Record t : Type := mk {
  text : jsstring;
  position : nat;
  line : nat;
  column : nat
}.

(** [constructor(text)] *)
Definition new (text : jsstring) : t := mk text 0 1 1.

Definition current (this : t) : option N :=
  text this !! position this.

Definition peek (this : t) : option N :=
  text this !! (position this + 1).

Definition advance : M t unit :=
  modify (λ this,
    if bool_decide (current this = Some NEWLINE)
    then mk (text this) (position this + 1) (line this + 1) 1
    else mk (text this) (position this + 1) (line this) (column this + 1)).

(** [this.current() && re.test(this.current())] *)
Definition current_is (test : N → bool) (this : t) : bool :=
  match current this with
  | Some c => test c
  | None => false
  end.

Definition skipWhitespace (fuel : nat) : M t unit :=
  while fuel (current_is is_space) (λ _, advance) ().

(** One turn of the loop of [readString]. *)
Definition readString_turn (value : jsstring) : M t jsstring :=
  c ← gets current;
  if bool_decide (c = Some BACKSLASH) then
    advance;;
    c ← gets current;
    if bool_decide (is_Some c) then advance;; mret (append value c)
    else mret value
  else
    advance;; mret (append value c).

Definition readString (fuel : nat) : M t jsstring :=
  quote ← gets current;
  advance;;
  value ← while fuel
    (current_is (λ c, bool_decide (Some c ≠ quote))) readString_turn [];
  c ← gets current;
  (if bool_decide (c = quote) then advance else mret ());;
  mret value.

Definition readNumber (fuel : nat) : M t Value :=
  value ← while fuel (current_is is_number_char)
    (λ value, c ← gets current; advance;; mret (append value c)) [];
  mret (VNum value).

Definition readIdentifier (fuel : nat) : M t jsstring :=
  while fuel (current_is is_ident_char)
    (λ value, c ← gets current; advance;; mret (append value c)) [].

Definition readComment (fuel : nat) : M t jsstring :=
  this ← get;
  if bool_decide (current this = Some (chr "/") ∧ peek this = Some (chr "/"))
  then
    while fuel (current_is (λ c, bool_decide (c ≠ NEWLINE)))
      (λ value, c ← gets current; advance;; mret (append value c)) []
  else if bool_decide (current this = Some (chr "/") ∧ peek this = Some (chr "*"))
  then
    advance;;
    advance;;
    value ← while fuel
      (λ this, bool_decide (is_Some (current this)) &&
               negb (bool_decide (current this = Some (chr "*") ∧
                                  peek this = Some (chr "/"))))
      (λ value, c ← gets current; advance;; mret (append value c)) [];
    c ← gets current;
    (if bool_decide (c = Some (chr "*")) then advance;; advance else mret ());;
    mret value
  else mret [].

Definition nextToken (fuel : nat) : M t Token :=
  skipWhitespace fuel;;
  this ← get;
  match current this with
  | None => mret (Token.mk EOF VNull (line this) (column this))
  | Some char =>
      let line := line this in
      let column := column this in
      if bool_decide (char = chr "/") &&
         bool_decide (peek this = Some (chr "/") ∨ peek this = Some (chr "*"))
      then
        value ← readComment fuel;
        mret (Token.mk COMMENT (VStr value) line column)
      else if bool_decide (char = DQUOTE ∨ char = SQUOTE) then
        value ← readString fuel;
        mret (Token.mk STRING (VStr value) line column)
      else if is_digit char then
        value ← readNumber fuel;
        mret (Token.mk NUMBER value line column)
      else if is_ident_start char then
        value ← readIdentifier fuel;
        let type := if bool_decide (value ∈ KEYWORDS) then KEYWORD
                    else IDENTIFIER in
        mret (Token.mk type (VStr value) line column)
      else if is_punctuation char then
        advance;;
        mret (Token.mk PUNCTUATION (VStr [char]) line column)
      else if is_operator char then
        advance;;
        mret (Token.mk OPERATOR (VStr [char]) line column)
      else
        advance;;
        mret (Token.mk IDENTIFIER (VStr [char]) line column)
  end.

(** The [do ... while (token.type !== TokenType.EOF)] loop of [tokenize]. *)
Fixpoint tokenize_loop (fuel : nat) (tokens : list Token) : M t (list Token) :=
  match fuel with
  | 0 => out_of_fuel
  | S fuel' =>
      token ← nextToken fuel';
      let tokens :=
        if bool_decide (Token.type token ≠ WHITESPACE) then tokens ++ [token]
        else tokens in
      if bool_decide (Token.type token ≠ EOF) then tokenize_loop fuel' tokens
      else mret tokens
  end.

Definition tokenize (fuel : nat) : M t (list Token) :=
  tokenize_loop fuel [].

End SysMLTokenizer.

(** ** class ASTNode *)

Module ASTNode.

#[warnings="-register-all"]
Inductive t : Type := mk {
  type : string;
  properties : gmap string Value;
  children : list t
}.

(** [constructor(type, properties = {})] *)
Definition new (type : string) : t := mk type ∅ [].

Definition addChild (this child : t) : t :=
  mk (type this) (properties this) (children this ++ [child]).

(** [node.properties[key] = v] *)
Definition set (this : t) (key : string) (v : Value) : t :=
  mk (type this) (<[key := v]> (properties this)) (children this).

End ASTNode.
Abbreviation ASTNode := ASTNode.t.

(** ** class SysMLParser *)

Module SysMLParser.

Record t : Type := mk {
  tokens : list Token;
  position : nat;
  ast : ASTNode
}.

(** [constructor(tokens)] *)
Definition new (tokens : list Token) : t := mk tokens 0 (ASTNode.new "root").

Definition current (this : t) : option Token :=
  tokens this !! position this.

Definition advance : M t unit :=
  modify (λ this, mk (tokens this) (position this + 1) (ast this)).

(** [token?.type === type] and [token?.value === text] *)
Definition type_is (token : option Token) (type : TokenType) : bool :=
  match token with
  | Some token => bool_decide (Token.type token = type)
  | None => false
  end.

Definition value_is (token : option Token) (text : string) : bool :=
  match token with
  | Some token => bool_decide (Token.value token = VStr (js text))
  | None => false
  end.

Definition expect (type : TokenType) (value : string) : M t Token :=
  this ← get;
  match current this with
  | Some token =>
      if bool_decide (Token.type token ≠ type) ||
         (bool_decide (js value ≠ []) &&
          bool_decide (Token.value token ≠ VStr (js value)))
      then throw (mkError type (Some (js value)) (Some token))
      else advance;; mret token
  | None => throw (mkError type (Some (js value)) None)
  end.

(** The statement repeated throughout the grammar rules,
    [if (test(this.current())) { node.properties[key] = this.current().value;
    this.advance(); }]. *)
Definition capture (test : Token → bool) (key : string) (node : ASTNode)
    : M t ASTNode :=
  this ← get;
  match current this with
  | Some token =>
      if test token then advance;; mret (ASTNode.set node key (Token.value token))
      else mret node
  | None => mret node
  end.

Definition is_type (type : TokenType) (token : Token) : bool :=
  bool_decide (Token.type token = type).

(** [if (this.current()?.value === text) this.advance();] *)
Definition skip (text : string) : M t unit :=
  this ← get;
  if value_is (current this) text then advance else mret ().

(** The body loop that [parsePackage], [parsePart], [parseRequirement] and
    [parseUseCase] each spell out,
    [while (this.current() && this.current().value !== '}')
       { const element = this.parseElement();
         if (element) node.addChild(element); }]. *)
Definition body (fuel : nat) (parseElement : M t (option ASTNode))
    (node : ASTNode) : M t ASTNode :=
  while fuel
    (λ this, match current this with
             | Some token => bool_decide (Token.value token ≠ VStr (js "}"))
             | None => false
             end)
    (λ node, element ← parseElement;
             mret (match element with
                   | Some element => ASTNode.addChild node element
                   | None => node
                   end))
    node.

(** [{ element* }], entered once the current token has the text of an opening
    brace. *)
Definition block (fuel : nat) (parseElement : M t (option ASTNode))
    (node : ASTNode) : M t ASTNode :=
  expect PUNCTUATION "{";;
  node ← body fuel parseElement node;
  expect PUNCTUATION "}";;
  mret node.

Definition parsePackage (fuel : nat) (parseElement : M t (option ASTNode))
    : M t ASTNode :=
  let packageNode := ASTNode.new "package" in
  expect KEYWORD "package";;
  packageNode ← capture (is_type IDENTIFIER) "name" packageNode;
  this ← get;
  if value_is (current this) "{" then block fuel parseElement packageNode
  else mret packageNode.

Definition parsePart (fuel : nat) (parseElement : M t (option ASTNode))
    : M t ASTNode :=
  let partNode := ASTNode.new "part" in
  expect KEYWORD "part";;
  partNode ← capture (is_type IDENTIFIER) "name" partNode;
  this ← get;
  partNode ←
    (if value_is (current this) "specializes" then
       advance;; capture (is_type IDENTIFIER) "specializes" partNode
     else mret partNode);
  this ← get;
  if value_is (current this) "{" then block fuel parseElement partNode
  else if value_is (current this) ";" then advance;; mret partNode
  else mret partNode.

Definition parseAttribute : M t ASTNode :=
  let attrNode := ASTNode.new "attribute" in
  expect KEYWORD "attribute";;
  attrNode ← capture (is_type IDENTIFIER) "name" attrNode;
  this ← get;
  attrNode ←
    (if value_is (current this) ":" then
       advance;; capture (is_type IDENTIFIER) "type" attrNode
     else mret attrNode);
  this ← get;
  attrNode ←
    (if value_is (current this) "=" then
       advance;;
       capture (λ token, is_type NUMBER token || is_type STRING token)
         "defaultValue" attrNode
     else mret attrNode);
  skip ";";;
  mret attrNode.

Definition parsePort : M t ASTNode :=
  let portNode := ASTNode.new "port" in
  expect KEYWORD "port";;
  portNode ← capture (is_type IDENTIFIER) "name" portNode;
  this ← get;
  portNode ←
    (if value_is (current this) ":" then
       advance;; capture (is_type IDENTIFIER) "type" portNode
     else mret portNode);
  skip ";";;
  mret portNode.

Definition parseConnection : M t ASTNode :=
  let connNode := ASTNode.new "connection" in
  expect KEYWORD "connection";;
  connNode ← capture (is_type IDENTIFIER) "name" connNode;
  this ← get;
  connNode ←
    (if value_is (current this) ":" then
       advance;;
       this ← get;
       if type_is (current this) IDENTIFIER then
         connNode ← capture (is_type IDENTIFIER) "from" connNode;
         capture (is_type IDENTIFIER) "to" connNode
       else mret connNode
     else mret connNode);
  skip ";";;
  mret connNode.

Definition parseRequirement (fuel : nat) (parseElement : M t (option ASTNode))
    : M t ASTNode :=
  let reqNode := ASTNode.new "requirement" in
  expect KEYWORD "requirement";;
  reqNode ← capture (is_type IDENTIFIER) "name" reqNode;
  this ← get;
  if value_is (current this) "{" then block fuel parseElement reqNode
  else mret reqNode.

Definition parseUseCase (fuel : nat) (parseElement : M t (option ASTNode))
    : M t ASTNode :=
  let useCaseNode := ASTNode.new "usecase" in
  expect KEYWORD "use";;
  skip "case";;
  useCaseNode ← capture (is_type IDENTIFIER) "name" useCaseNode;
  this ← get;
  if value_is (current this) "{" then block fuel parseElement useCaseNode
  else mret useCaseNode.

(** [this.current() && this.current().value !== ';' &&
    this.current().value !== '}'], the test of the skip loop. *)
Definition skipped (this : t) : bool :=
  match current this with
  | Some token =>
      bool_decide (Token.value token ≠ VStr (js ";")) &&
      bool_decide (Token.value token ≠ VStr (js "}"))
  | None => false
  end.

Definition parseGenericElement (fuel : nat) : M t (option ASTNode) :=
  this ← get;
  match current this with
  | None => mret None
  | Some _ =>
      let node := ASTNode.new "generic" in
      node ← capture (is_type IDENTIFIER) "name" node;
      while fuel skipped (λ _, advance) ();;
      skip ";";;
      mret (Some node)
  end.

(** The rule a keyword has of its own, if it has one: the [switch] of
    [parseElement]. *)
Definition dedicated (fuel : nat) (parseElement : M t (option ASTNode))
    (keyword : Value) : option (M t ASTNode) :=
  if bool_decide (keyword = VStr (js "package")) then
    Some (parsePackage fuel parseElement)
  else if bool_decide (keyword = VStr (js "part")) then
    Some (parsePart fuel parseElement)
  else if bool_decide (keyword = VStr (js "attribute")) then
    Some parseAttribute
  else if bool_decide (keyword = VStr (js "port")) then
    Some parsePort
  else if bool_decide (keyword = VStr (js "connection")) then
    Some parseConnection
  else if bool_decide (keyword = VStr (js "requirement")) then
    Some (parseRequirement fuel parseElement)
  else if bool_decide (keyword = VStr (js "use")) then
    Some (parseUseCase fuel parseElement)
  else None.

Fixpoint parseElement (fuel : nat) : M t (option ASTNode) :=
  match fuel with
  | 0 => out_of_fuel
  | S fuel' =>
      this ← get;
      match current this with
      | None => mret None
      | Some token =>
          if bool_decide (Token.type token = EOF) then mret None
          else if bool_decide (Token.type token = KEYWORD) then
            match dedicated fuel' (parseElement fuel') (Token.value token) with
            | Some rule => node ← rule; mret (Some node)
            | None => parseGenericElement fuel'
            end
          else parseGenericElement fuel'
      end
  end.

(** [this.current() && this.current().type !== TokenType.EOF] *)
Definition more_elements (this : t) : bool :=
  match current this with
  | Some token => bool_decide (Token.type token ≠ EOF)
  | None => false
  end.

(** [const element = this.parseElement();
    if (element) this.ast.addChild(element);] *)
Definition element_to_root (fuel : nat) : M t unit :=
  element ← parseElement fuel;
  match element with
  | Some element =>
      modify (λ this, mk (tokens this) (position this)
                         (ASTNode.addChild (ast this) element))
  | None => mret ()
  end.

(** The loop inside the [try] of [parse]. *)
Definition top_level (fuel : nat) : M t unit :=
  while fuel more_elements (λ _, element_to_root fuel) ().

(** [parse()] returns [this.ast] on both paths; what [console.error] was
    given is returned beside it. *)
Definition parse (fuel : nat) : M t (ASTNode * list Error) :=
  λ this,
    match top_level fuel this with
    | Return _ this => Return (ast this, []) this
    | Throw error this => Return (ast this, [error]) this
    | OutOfFuel => OutOfFuel
    end.

End SysMLParser.

(** ** astToSVG *)

(** [a === b] on what a property lookup can give ([None] is [undefined]).
    Two Numbers are compared as IEEE doubles, which the embedding does not
    compute: that one case has no answer here. *)
Definition strict_equal (a b : option Value) : option bool :=
  match a, b with
  | None, None => Some true
  | Some (VStr s), Some (VStr s') => Some (bool_decide (s = s'))
  | Some VNull, Some VNull => Some true
  | Some (VNum _), Some (VNum _) => None
  | _, _ => Some false
  end.

(** The [isSelected] prop [processNode] hands to [NodeComponent],
    [selectedNode?.properties.name === astNode.properties.name]. *)
Definition isSelected (selectedNode : option ASTNode) (astNode : ASTNode)
    : option bool :=
  strict_equal (selectedNode ≫= λ node, ASTNode.properties node !! "name")
               (ASTNode.properties astNode !! "name").

(** A number of the layout.  The width of a node is computed from the
    length of its name; where the name is a Number, [.length] is
    [undefined] and the width is [NaN] unless the Number is falsy, which the
    embedding does not decide: [None] stands for such a number. *)
Definition number : Type := option nat.

Definition plus (a b : number) : number :=
  match a, b with
  | Some a, Some b => Some (a + b)
  | _, _ => None
  end.

(** [a / 2]; the widths are even, so nothing is
    lost to the rounding. *)
Definition half (a : number) : number :=
  match a with
  | Some a => Some (a / 2)
  | None => None
  end.

(** [const nodePos = { x, y, width, height, id: currentId }], the id
    [node-n] held as [n]. *)
Module Pos.
Record t : Type := mk {
  x : number;
  y : nat;
  width : number;
  height : nat;
  id : nat
}.
End Pos.

(** The props of a [<NodeComponent>] that depend on the node ([onNodeClick]
    is the same callback for all). *)
Module NodeComponent.
Record t : Type := mk {
  key : nat;
  node : ASTNode;
  x : number;
  y : nat;
  isSelected : option bool
}.
End NodeComponent.

(** The props of a [<line>] that depend on the nodes; its key
    [line-node-p-node-c] held as [(p, c)]. *)
Module Line.
Record t : Type := mk {
  key : nat * nat;
  x1 : number;
  y1 : nat;
  x2 : number;
  y2 : nat
}.
End Line.

(** What [processNode] closes over and updates: [nodeId], [elements] and
    [connections]. *)
Module Drawing.
Record t : Type := mk {
  nodeId : nat;
  elements : list NodeComponent.t;
  connections : list Line.t
}.
End Drawing.

(** [Math.max(120, (node.properties.name || 'Unnamed').length * 8 + 40)] *)
Definition node_width (node : ASTNode) : number :=
  match ASTNode.properties node !! "name" with
  | Some (VStr []) | Some VNull | None =>
      Some (120 `max` (length (js "Unnamed") * 8 + 40))
  | Some (VStr name) => Some (120 `max` (length name * 8 + 40))
  | Some (VNum _) => None
  end.

(** [astNode.type === 'attribute' || astNode.type === 'port' ? 30 : 60] *)
Definition node_height (node : ASTNode) : nat :=
  if bool_decide (ASTNode.type node = "attribute") ||
     bool_decide (ASTNode.type node = "port")
  then 30 else 60.

(** The loop over the children that [processNode] and [astToSVG] each spell
    out,
    [let childY = ...; let childX = left;
     children.forEach((child, index) => {
       process(child, childX, childY);
       childX += width(child) + gap;
       if (index > 0 && index % per_row === 0)
         { childY += step; childX = left; } })]. *)
Definition forEach
    (process : ASTNode → number → nat → Drawing.t → Drawing.t)
    (gap per_row step : nat) (left : number)
    : list ASTNode → nat → number → nat → Drawing.t → Drawing.t :=
  fix forEach children index childX childY drawing :=
    match children with
    | [] => drawing
    | child :: children =>
        let drawing := process child childX childY drawing in
        let childX := plus childX (plus (node_width child) (Some gap)) in
        if bool_decide (0 < index) && bool_decide (index mod per_row = 0)
        then forEach children (S index) left (childY + step) drawing
        else forEach children (S index) childX childY drawing
    end.

Fixpoint processNode (selectedNode : option ASTNode) (astNode : ASTNode)
    (parentPos : option Pos.t) (x : number) (y level : nat)
    (drawing : Drawing.t) {struct astNode} : Drawing.t :=
  let currentId := Drawing.nodeId drawing in
  let width := node_width astNode in
  let height := node_height astNode in
  let nodePos := Pos.mk x y width height currentId in
  let elements :=
    Drawing.elements drawing ++
      [NodeComponent.mk currentId astNode x y
         (isSelected selectedNode astNode)] in
  let connections :=
    match parentPos with
    | Some parentPos =>
        Drawing.connections drawing ++
          [Line.mk (Pos.id parentPos, currentId)
             (plus (Pos.x parentPos) (half (Pos.width parentPos)))
             (Pos.y parentPos + Pos.height parentPos)
             (plus x (half width)) y]
    | None => Drawing.connections drawing
    end in
  forEach
    (λ child childX childY,
       processNode selectedNode child (Some nodePos) childX childY (level + 1))
    30 3 100 x (ASTNode.children astNode) 0 x (y + height + 40)
    (Drawing.mk (S currentId) elements connections).

(** [astToSVG(ast, onNodeClick, selectedNode)] returns
    [{ elements, connections }]. *)
Definition astToSVG (ast : ASTNode) (selectedNode : option ASTNode)
    : list NodeComponent.t * list Line.t :=
  let drawing :=
    forEach (λ child rootX rootY, processNode selectedNode child None rootX rootY 0)
      100 2 300 (Some 50) (ASTNode.children ast) 0 (Some 50) 50
      (Drawing.mk 0 [] []) in
  (Drawing.elements drawing, Drawing.connections drawing).

(** ** totalNodes *)

Fixpoint countChildren (node : ASTNode) : nat :=
  1 + fold_left (λ sum child, sum + countChildren child)
        (ASTNode.children node) 0.

(** [ast ? ast.children.reduce(...) : 0] *)
Definition totalNodes (ast : option ASTNode) : nat :=
  match ast with
  | Some ast =>
      fold_left (λ count child, count + countChildren child)
        (ASTNode.children ast) 0
  | None => 0
  end.

(** ** Specification vocabulary *)

(** *** Positions in the text *)

(** Number of code units between the last newline of [prefix], given
    reversed, and its end. *)
Fixpoint since_newline (reversed_prefix : jsstring) : nat :=
  match reversed_prefix with
  | [] => 0
  | c :: prefix =>
      if bool_decide (c = NEWLINE) then 0 else S (since_newline prefix)
  end.

(** The 1-based line and column of the character at index [p]. *)
Definition line_of (text : jsstring) (p : nat) : nat :=
  1 + length (filter (λ c, c = NEWLINE) (take p text)).

Definition column_of (text : jsstring) (p : nat) : nat :=
  1 + since_newline (reverse (take p text)).

(** The tokenizer standing at index [p] of [text]. *)
Definition standing_at (text : jsstring) (p : nat) : SysMLTokenizer.t :=
  SysMLTokenizer.mk text p (line_of text p) (column_of text p).

(** The fields of a tokenizer agree with one another. *)
Definition coherent (this : SysMLTokenizer.t) : Prop :=
  SysMLTokenizer.position this ≤ length (SysMLTokenizer.text this) ∧
  this = standing_at (SysMLTokenizer.text this) (SysMLTokenizer.position this).

(** [this'] is a later, coherent moment of the scan [this] belongs to. *)
Definition ahead (this this' : SysMLTokenizer.t) : Prop :=
  SysMLTokenizer.text this' = SysMLTokenizer.text this ∧
  SysMLTokenizer.position this ≤ SysMLTokenizer.position this' ∧
  coherent this'.

(** Characters left to read. *)
Definition remaining (this : SysMLTokenizer.t) : nat :=
  length (SysMLTokenizer.text this) - SysMLTokenizer.position this.

(** Lexicographic order on (line, column). *)
Definition position_le (a b : nat * nat) : Prop :=
  a.1 < b.1 ∨ (a.1 = b.1 ∧ a.2 ≤ b.2).

Definition where_ (token : Token) : nat * nat :=
  (Token.line token, Token.column token).

(** [token] is what the tokenizer reads when it stands on the character at
    index [p], which is not a blank: [p] is where the token begins, and the
    line and column the token records are those of [p]. *)
Definition begins (text : jsstring) (token : Token) (p : nat) : Prop :=
  (∃ c, text !! p = Some c ∧ is_space c = false) ∧
  where_ token = (line_of text p, column_of text p) ∧
  ∃ fuel this',
    SysMLTokenizer.nextToken fuel (standing_at text p) = Return token this' ∧
    p < SysMLTokenizer.position this'.

(** A sequence of tokens read off [text] from index [from] on: tokens that
    begin at increasing indices, closed by one EOF token placed at the end
    of the text. *)
Inductive token_stream (text : jsstring) : nat → list Token → Prop :=
  | stream_eof from token :
      Token.type token = EOF →
      from ≤ length text →
      where_ token = (line_of text (length text), column_of text (length text)) →
      token_stream text from [token]
  | stream_token from token p tokens :
      Token.type token ≠ EOF →
      from ≤ p →
      begins text token p →
      token_stream text (S p) tokens →
      token_stream text from (token :: tokens).

(** [arrives text tokens this]: the loop of [tokenize], started on [text],
    has pushed [tokens] so far and is about to call [nextToken] on [this]. *)
Inductive arrives (text : jsstring)
    : list Token → SysMLTokenizer.t → Prop :=
  | arrives_start : arrives text [] (SysMLTokenizer.new text)
  | arrives_next tokens this fuel token this' :
      arrives text tokens this →
      SysMLTokenizer.nextToken fuel this = Return token this' →
      Token.type token ≠ EOF →
      arrives text
        (if bool_decide (Token.type token ≠ WHITESPACE)
         then tokens ++ [token] else tokens)
        this'.

(** *** String literals, in the words of the specification *)

(** The content of a literal opened by [quote], read off the characters
    that follow the opening quote: it ends at the first unescaped [quote]
    or at the end of the input, and a backslash stands for the character
    after it, whatever that is. *)
Fixpoint decode (quote : N) (chars : jsstring) : jsstring :=
  match chars with
  | [] => []
  | c :: rest =>
      if bool_decide (c = quote) then []
      else if bool_decide (c = BACKSLASH) then
        match rest with
        | [] => []
        | escaped :: rest' => escaped :: decode quote rest'
        end
      else c :: decode quote rest
  end.

(** How many of [chars] belong to the literal, closing quote included. *)
Fixpoint extent (quote : N) (chars : jsstring) : nat :=
  match chars with
  | [] => 0
  | c :: rest =>
      if bool_decide (c = quote) then 1
      else if bool_decide (c = BACKSLASH) then
        match rest with
        | [] => 1
        | escaped :: rest' => 2 + extent quote rest'
        end
      else 1 + extent quote rest
  end.

(** [chars] neither closes the literal nor ends in the middle of an escape:
    what comes next is read as a fresh character of the content. *)
Fixpoint open_ended (quote : N) (chars : jsstring) : bool :=
  match chars with
  | [] => true
  | c :: rest =>
      if bool_decide (c = quote) then false
      else if bool_decide (c = BACKSLASH) then
        match rest with
        | [] => false
        | escaped :: rest' => open_ended quote rest'
        end
      else open_ended quote rest
  end.

(** *** Comments, numbers and words, in the words of the regular expressions *)

(** The longest prefix of [chars] made of characters that pass [test]. *)
Fixpoint leading (test : N → bool) (chars : jsstring) : jsstring :=
  match chars with
  | [] => []
  | c :: rest => if test c then c :: leading test rest else []
  end.

(** [chars] starts with the two characters that close a block comment. *)
Definition at_close (chars : jsstring) : bool :=
  bool_decide (head chars = Some (chr "*") ∧ head (tail chars) = Some (chr "/")).

(** What comes before the first closing delimiter of [chars], or all of
    [chars] when there is none. *)
Fixpoint upto_close (chars : jsstring) : jsstring :=
  match chars with
  | [] => []
  | c :: rest => if at_close chars then [] else c :: upto_close rest
  end.

(** [chars] holds a closing delimiter. *)
Fixpoint is_closed (chars : jsstring) : bool :=
  match chars with
  | [] => false
  | c :: rest => at_close chars || is_closed rest
  end.

(** What the payload of a token of each type is made of. *)
Definition well_typed (token : Token) : Prop :=
  match Token.type token with
  | NUMBER => ∃ lexeme, Token.value token = VNum lexeme
  | EOF => Token.value token = VNull
  | KEYWORD => ∃ word, Token.value token = VStr word ∧ word ∈ KEYWORDS
  | IDENTIFIER => ∃ word, Token.value token = VStr word ∧ word ∉ KEYWORDS
  | WHITESPACE => False
  | STRING | OPERATOR | PUNCTUATION | COMMENT =>
      ∃ text, Token.value token = VStr text
  end.

(** The token sequence of [text]: what [tokenize] returns when it is given
    one unit of fuel more than the text has characters, which is enough. *)
Definition tokens_of (text : jsstring) : list Token :=
  match SysMLTokenizer.tokenize (S (length text)) (SysMLTokenizer.new text) with
  | Return tokens _ => tokens
  | _ => []
  end.

(** The keywords [parseElement] has a rule for. *)
Definition has_own_rule (keyword : Value) : Prop :=
  keyword ∈ (λ word, VStr (js word)) <$>
    ["package"; "part"; "attribute"; "port"; "connection"; "requirement";
     "use"].

(** The keywords with a rule of their own and the type of the node each
    rule builds. *)
Definition rule_table : list (string * string) :=
  [("package", "package"); ("part", "part"); ("attribute", "attribute");
   ("port", "port"); ("connection", "connection");
   ("requirement", "requirement"); ("use", "usecase")].

(** The text of [token] is a semicolon or a closing brace. *)
Definition ends_statement (token : Token) : bool :=
  bool_decide (Token.value token = VStr (js ";")) ||
  bool_decide (Token.value token = VStr (js "}")).

(** The tokens before the first one that ends a statement. *)
Fixpoint statement (tokens : list Token) : list Token :=
  match tokens with
  | [] => []
  | token :: rest =>
      if ends_statement token then [] else token :: statement rest
  end.

(** *** Runs of the parser *)

(** [this.ast.addChild(element)] in the loop of [parse]. *)
Definition add_to_root (this : SysMLParser.t) (element : ASTNode)
    : SysMLParser.t :=
  SysMLParser.mk (SysMLParser.tokens this) (SysMLParser.position this)
                 (ASTNode.addChild (SysMLParser.ast this) element).

(** [siblings this elements this']: starting from [this], [parseElement]
    returned the nodes [elements] one after the other, each appended to the
    root, and left the parser as [this']. *)
Inductive siblings : SysMLParser.t → list ASTNode → SysMLParser.t → Prop :=
  | siblings_nil this : siblings this [] this
  | siblings_cons this fuel element this1 elements this2 :
      SysMLParser.parseElement fuel this = Return (Some element) this1 →
      siblings (add_to_root this1 element) elements this2 →
      siblings this (element :: elements) this2.

(** [members this elements this']: starting from [this], the body loop of
    a block went round once for each of [elements]: each time the current
    token was there and was not a closing brace, and [parseElement]
    returned the element; the parser is left as [this']. *)
Inductive members : SysMLParser.t → list ASTNode → SysMLParser.t → Prop :=
  | members_nil this : members this [] this
  | members_cons this token fuel element this1 elements this2 :
      SysMLParser.current this = Some token →
      Token.value token ≠ VStr (js "}") →
      SysMLParser.parseElement fuel this = Return (Some element) this1 →
      members this1 elements this2 →
      members this (element :: elements) this2.

(** A method of the parser that leaves the token sequence and the root
    alone and never moves the cursor backwards, whether it returns or
    throws. *)
Definition steady {A} (m : M SysMLParser.t A) : Prop :=
  ∀ this,
    match m this with
    | Return _ this' | Throw _ this' =>
        SysMLParser.tokens this' = SysMLParser.tokens this ∧
        SysMLParser.ast this' = SysMLParser.ast this ∧
        SysMLParser.position this ≤ SysMLParser.position this'
    | OutOfFuel => True
    end.

(** *** The shape of the tree *)

(** The tags of the nodes the grammar rules build, and among them those of
    the rules that have no body. *)
Definition node_types : list string :=
  ["package"; "part"; "attribute"; "port"; "connection"; "requirement";
   "usecase"; "generic"].

Definition leaf_types : list string :=
  ["attribute"; "port"; "connection"; "generic"].

(** The property keys a rule may set on the node it builds. *)
Definition node_keys (type : string) : gset string :=
  if bool_decide (type = "part") then {["name"; "specializes"]}
  else if bool_decide (type = "attribute") then
    {["name"; "type"; "defaultValue"]}
  else if bool_decide (type = "port") then {["name"; "type"]}
  else if bool_decide (type = "connection") then {["name"; "from"; "to"]}
  else {["name"]}.

(** A node as the grammar rules build them, all the way down. *)
#[warnings="-register-all"]
Inductive well_formed : ASTNode → Prop :=
  | well_formed_node type properties children :
      type ∈ node_types →
      dom properties ⊆ node_keys type →
      (type ∈ leaf_types → children = []) →
      Forall well_formed children →
      well_formed (ASTNode.mk type properties children).

(** Every property of the node and of the nodes under it is a string,
    except [defaultValue], which is a string or a number. *)
#[warnings="-register-all"]
Inductive textual : ASTNode → Prop :=
  | textual_node type properties children :
      (∀ key v, properties !! key = Some v →
         (∃ text, v = VStr text) ∨
         (key = "defaultValue" ∧ ∃ lexeme, v = VNum lexeme)) →
      Forall textual children →
      textual (ASTNode.mk type properties children).

(** [m], run from [s], returns only values and states in [R] and throws
    only errors and states in [T]. *)
Definition ensures {S A} (m : M S A) (s : S)
    (R : A → S → Prop) (T : Error → S → Prop) : Prop :=
  match m s with
  | Return a s' => R a s'
  | Throw e s' => T e s'
  | OutOfFuel => True
  end.

(** The parser one token further. *)
Definition next (this : SysMLParser.t) : SysMLParser.t :=
  SysMLParser.mk (SysMLParser.tokens this) (SysMLParser.position this + 1)
                 (SysMLParser.ast this).

(** [this'] is [this] with the cursor at the same place or further. *)
Definition onward (this this' : SysMLParser.t) : Prop :=
  SysMLParser.tokens this' = SysMLParser.tokens this ∧
  SysMLParser.ast this' = SysMLParser.ast this ∧
  SysMLParser.position this ≤ SysMLParser.position this'.

(** A node under construction by the rule for [type], read off [tokens]. *)
Definition in_progress (tokens : list Token) (type : string) (node : ASTNode)
    : Prop :=
  ASTNode.type node = type ∧
  dom (ASTNode.properties node) ⊆ node_keys type ∧
  Forall well_formed (ASTNode.children node) ∧
  (Forall well_typed tokens → textual node).

(** The rule for [type], entered at [start], has consumed its keyword and
    holds [node], with the cursor as [this] has it; a [leaf] rule has given
    the node no child. *)
Definition building (start : SysMLParser.t) (type : string) (leaf : bool)
    (node : ASTNode) (this : SysMLParser.t) : Prop :=
  in_progress (SysMLParser.tokens start) type node ∧
  (leaf = true → ASTNode.children node = []) ∧
  onward start this ∧
  SysMLParser.position start < SysMLParser.position this.

(** The cursor is on the keyword [keyword]. *)
Definition entered (this : SysMLParser.t) (keyword : string) : Prop :=
  ∃ token, SysMLParser.current this = Some token ∧
           Token.type token = KEYWORD ∧
           Token.value token = VStr (js keyword).

(** From [this] to [this'] the root has only gained children, well-formed
    ones, and the token sequence has not changed. *)
Definition grown (this this' : SysMLParser.t) : Prop :=
  SysMLParser.tokens this' = SysMLParser.tokens this ∧
  ASTNode.type (SysMLParser.ast this') = ASTNode.type (SysMLParser.ast this) ∧
  ASTNode.properties (SysMLParser.ast this') =
    ASTNode.properties (SysMLParser.ast this) ∧
  ∃ added,
    ASTNode.children (SysMLParser.ast this') =
      ASTNode.children (SysMLParser.ast this) ++ added ∧
    Forall well_formed added ∧
    (Forall well_typed (SysMLParser.tokens this) → Forall textual added).

(** What [parseElement] returns: nothing, at the end of the input and
    without moving; or a well-formed node, having moved forward, unless the
    node is the generic one made on a closing brace, which is left where it
    is. *)
Definition element_returned (this : SysMLParser.t) (element : option ASTNode)
    (this' : SysMLParser.t) : Prop :=
  onward this this' ∧
  match element with
  | None => this' = this ∧ SysMLParser.more_elements this = false
  | Some node =>
      well_formed node ∧
      (Forall well_typed (SysMLParser.tokens this) → textual node) ∧
      (SysMLParser.position this < SysMLParser.position this' ∨
       this' = this ∧ node = ASTNode.new "generic" ∧
       SysMLParser.value_is (SysMLParser.current this) "}" = true)
  end.

(** What [parseElement] throws: the error of an [expect] of a brace, raised
    after the keyword was consumed, on the token the cursor is left on. *)
Definition element_thrown (this : SysMLParser.t) (error : Error)
    (this' : SysMLParser.t) : Prop :=
  onward this this' ∧
  SysMLParser.position this < SysMLParser.position this' ∧
  expected_type error = PUNCTUATION ∧
  (expected_value error = Some (js "{") ∨
   expected_value error = Some (js "}")) ∧
  actual error = SysMLParser.current this'.

(** *** Reasoning about methods *)

(** [m] returns from [s], and [Q] holds of what it returns. *)
Definition runs {S A} (m : M S A) (s : S) (Q : A → S → Prop) : Prop :=
  ∃ a s', m s = Return a s' ∧ Q a s'.

(** [m'] does what [m] does wherever [m] has enough fuel. *)
Definition extends {S A} (m m' : M S A) : Prop :=
  ∀ s, m s ≠ OutOfFuel → m' s = m s.

(** *** Drawings *)

(** The node and the nodes under it, parents before children, children in
    their order. *)
Fixpoint preorder (node : ASTNode) : list ASTNode :=
  node :: flat_map preorder (ASTNode.children node).

(** Induction on a node, with the property at hand for all its children. *)
Fixpoint ASTNode_nested_ind (P : ASTNode → Prop)
    (step : ∀ type properties children,
       Forall P children → P (ASTNode.mk type properties children))
    (node : ASTNode) : P node :=
  match node with
  | ASTNode.mk type properties children =>
      step type properties children
        ((fix all (nodes : list ASTNode) : Forall P nodes :=
            match nodes with
            | [] => Forall_nil P
            | node :: nodes =>
                Forall_cons P node nodes (ASTNode_nested_ind P step node)
                  (all nodes)
            end) children)
  end.

(** The line [l] ends at a node numbered from [first] up to, not
    including, [last], and comes from a node with a smaller number or from
    [parent]. *)
Definition joins (parent : option nat) (first last : nat) (l : Line.t)
    : Prop :=
  first ≤ (Line.key l).2 < last ∧
  ((Line.key l).1 < (Line.key l).2 ∨ parent = Some (Line.key l).1).

(** From [drawing] to [drawing'], the elements of [nodes] were added in
    that order and numbered one after the other from [nodeId] on, and
    [lines] lines were added. *)
Definition adds (nodes : list ASTNode) (lines : nat) (parent : option nat)
    (drawing drawing' : Drawing.t) : Prop :=
  ∃ elements connections,
    drawing' =
      Drawing.mk (Drawing.nodeId drawing + length nodes)
        (Drawing.elements drawing ++ elements)
        (Drawing.connections drawing ++ connections) ∧
    NodeComponent.key <$> elements =
      seq (Drawing.nodeId drawing) (length nodes) ∧
    NodeComponent.node <$> elements = nodes ∧
    length connections = lines ∧
    Forall (joins parent (Drawing.nodeId drawing)
              (Drawing.nodeId drawing + length nodes)) connections.

(** * Properties *)

(** ** The method monad *)

(** Case analysis on a [bool_decide P] of the goal. *)
Ltac decide_goal P H :=
  destruct (decide P) as [H|H];
  [rewrite (bool_decide_true P) by done|rewrite (bool_decide_false P) by done].

Section monad.
Context {S : Type}.
Implicit Types s : S.

Lemma bind_Return {A B} (m : M S A) (k : A → M S B) s a s' :
  m s = Return a s' → (m ≫= k) s = k a s'.
Proof. unfold mbind, M_bind. by intros ->. Qed.

Lemma bind_Throw {A B} (m : M S A) (k : A → M S B) s e s' :
  m s = Throw e s' → (m ≫= k) s = Throw e s'.
Proof. unfold mbind, M_bind. by intros ->. Qed.

Lemma bind_OutOfFuel {A B} (m : M S A) (k : A → M S B) s :
  m s = OutOfFuel → (m ≫= k) s = OutOfFuel.
Proof. unfold mbind, M_bind. by intros ->. Qed.

Lemma bind_get {B} (k : S → M S B) s : (get ≫= k) s = k s s.
Proof. done. Qed.

Lemma bind_gets {A B} (f : S → A) (k : A → M S B) s :
  (gets f ≫= k) s = k (f s) s.
Proof. done. Qed.

Lemma bind_ret {A B} (a : A) (k : A → M S B) s : (mret a ≫= k) s = k a s.
Proof. done. Qed.

Lemma bind_modify {B} (f : S → S) (k : unit → M S B) s :
  (modify f ≫= k) s = k () (f s).
Proof. done. Qed.

Lemma while_done {A} fuel cond (body : A → M S A) a s :
  cond s = false → while fuel cond body a s = Return a s.
Proof. destruct fuel; simpl; by intros ->. Qed.

Lemma while_step {A} fuel cond (body : A → M S A) a s a' s' :
  cond s = true → body a s = Return a' s' →
  while (Datatypes.S fuel) cond body a s = while fuel cond body a' s'.
Proof. simpl. by intros -> ->. Qed.

Lemma runs_ret {A} (a : A) s (Q : A → S → Prop) : Q a s → runs (mret a) s Q.
Proof. by exists a, s. Qed.

Lemma runs_bind {A B} (m : M S A) (k : A → M S B) s Q' (Q : B → S → Prop) :
  runs m s Q' → (∀ a s', Q' a s' → runs (k a) s' Q) → runs (m ≫= k) s Q.
Proof.
  intros (a & s' & Hm & HQ') Hk.
  destruct (Hk a s' HQ') as (b & s'' & Hka & HQ).
  exists b, s''. by rewrite (bind_Return _ _ _ _ _ Hm).
Qed.

Lemma runs_get s (Q : S → S → Prop) : Q s s → runs get s Q.
Proof. by exists s, s. Qed.

Lemma runs_gets {A} (f : S → A) s (Q : A → S → Prop) :
  Q (f s) s → runs (gets f) s Q.
Proof. by exists (f s), s. Qed.

Lemma runs_bind_Return {A B} (m : M S A) (k : A → M S B) s a s'
    (Q : B → S → Prop) :
  m s = Return a s' → runs (k a) s' Q → runs (m ≫= k) s Q.
Proof.
  intros Hm (b & s'' & Hk & HQ). exists b, s''.
  by rewrite (bind_Return _ _ _ _ _ Hm).
Qed.

Lemma runs_get_bind {B} (k : S → M S B) s (Q : B → S → Prop) :
  runs (k s) s Q → runs (get ≫= k) s Q.
Proof. done. Qed.

Lemma runs_gets_bind {A B} (f : S → A) (k : A → M S B) s (Q : B → S → Prop) :
  runs (k (f s)) s Q → runs (gets f ≫= k) s Q.
Proof. done. Qed.

Lemma runs_modify (f : S → S) s (Q : unit → S → Prop) :
  Q () (f s) → runs (modify f) s Q.
Proof. by exists (), (f s). Qed.

Lemma runs_weaken {A} (m : M S A) s (Q Q' : A → S → Prop) :
  runs m s Q → (∀ a s', Q a s' → Q' a s') → runs m s Q'.
Proof. intros (a & s' & ? & ?) HQ. exists a, s'. eauto. Qed.

(** A loop whose body returns, keeps [I] and lowers [measure] returns once
    it has [measure] iterations to spend. *)
Lemma runs_while {A} (measure : S → nat) (I : A → S → Prop)
    fuel cond (body : A → M S A) a s :
  I a s → measure s ≤ fuel →
  (∀ a s, I a s → cond s = true →
          runs (body a) s (λ a' s', I a' s' ∧ measure s' < measure s)) →
  runs (while fuel cond body a) s (λ a' s', I a' s' ∧ cond s' = false).
Proof.
  intros HI Hfuel Hbody. revert a s HI Hfuel.
  induction fuel as [|fuel IH]; intros a s HI Hfuel.
  - destruct (cond s) eqn:Hc.
    + destruct (Hbody a s HI Hc) as (? & ? & _ & _ & ?). lia.
    + exists a, s. by rewrite while_done.
  - destruct (cond s) eqn:Hc.
    + destruct (Hbody a s HI Hc) as (a' & s' & Hb & HI' & Hlt).
      destruct (IH a' s' HI') as (a'' & s'' & Hw & HQ); [lia|].
      exists a'', s''. by rewrite (while_step _ _ _ _ _ _ _ Hc Hb).
    + exists a, s. by rewrite while_done.
Qed.

End monad.

(** ** More fuel changes nothing *)

Section more_fuel.
Context {S : Type}.

Lemma extends_refl {A} (m : M S A) : extends m m.
Proof. by intros s _. Qed.

Lemma extends_bind {A B} (m m' : M S A) (k k' : A → M S B) :
  extends m m' → (∀ a, extends (k a) (k' a)) →
  extends (m ≫= k) (m' ≫= k').
Proof.
  intros Hm Hk s Hs. unfold mbind, M_bind in *.
  destruct (m s) as [a s'| |] eqn:Hms; [| |done].
  - rewrite (Hm s), Hms by congruence. by apply Hk.
  - by rewrite (Hm s), Hms by congruence.
Qed.

Lemma extends_while {A} fuel fuel' cond (body body' : A → M S A) a :
  fuel ≤ fuel' → (∀ a, extends (body a) (body' a)) →
  extends (while fuel cond body a) (while fuel' cond body' a).
Proof.
  intros Hle Hbody. revert fuel' Hle a.
  induction fuel as [|fuel IH]; intros fuel' Hle a s Hs.
  - simpl in *. destruct (cond s) eqn:Hc; [done|]. by rewrite while_done.
  - destruct fuel' as [|fuel']; [lia|]. simpl in *.
    destruct (cond s); [|done].
    destruct (body a s) as [a' s'| |] eqn:Hb; [| |done].
    + rewrite (Hbody a s), Hb by congruence. apply IH; [lia|done].
    + by rewrite (Hbody a s), Hb by congruence.
Qed.

End more_fuel.

(** Applies the lemmas above along the structure of a method. *)
Ltac extends_step :=
  first
    [ assumption
    | apply extends_refl
    | apply extends_bind; [|intros ?]
    | apply extends_while; [lia|intros ?]
    | match goal with
      | |- extends (if ?b then _ else _) _ => destruct b
      | |- extends (match ?x with _ => _ end) _ => destruct x
      end ].

(** ** The tokenizer *)

Module Lexing.
Import SysMLTokenizer.

Lemma line_of_S text p c :
  text !! p = Some c →
  line_of text (S p) =
    if bool_decide (c = NEWLINE) then S (line_of text p) else line_of text p.
Proof.
  intros Hc. unfold line_of. rewrite (take_S_r _ _ _ Hc), list.filter_app, length_app.
  rewrite filter_cons, filter_nil.
  case_bool_decide; case_decide; simpl; try done; lia.
Qed.

Lemma column_of_S text p c :
  text !! p = Some c →
  column_of text (S p) =
    if bool_decide (c = NEWLINE) then 1 else S (column_of text p).
Proof.
  intros Hc. unfold column_of. rewrite (take_S_r _ _ _ Hc), reverse_snoc. simpl.
  by case_bool_decide.
Qed.

Lemma coherent_standing_at text p :
  p ≤ length text → coherent (standing_at text p).
Proof. by split. Qed.

Lemma coherent_new text : coherent (new text).
Proof. split; [simpl; lia|done]. Qed.

Lemma current_Some_lt this c :
  current this = Some c → position this < length (text this).
Proof. intros H. by apply lookup_lt_Some in H. Qed.

Lemma current_None_ge this :
  coherent this → current this = None → position this = length (text this).
Proof.
  intros [Hle _] H. apply lookup_ge_None in H. lia.
Qed.

Lemma advance_at this c :
  coherent this → current this = Some c →
  advance this = Return () (standing_at (text this) (S (position this))).
Proof.
  intros [_ Hthis] Hc. destruct this as [txt p l c0].
  unfold current in Hc. simpl in *.
  injection Hthis as Hl Hc0.
  unfold advance, modify, standing_at, current. simpl. f_equal.
  rewrite (line_of_S _ _ _ Hc), (column_of_S _ _ _ Hc), Hc, !Nat.add_1_r.
  assert (Some c = Some NEWLINE ↔ c = NEWLINE) as Hiff by naive_solver.
  rewrite (bool_decide_ext _ _ Hiff).
  case_bool_decide; congruence.
Qed.

Lemma ahead_refl this : coherent this → ahead this this.
Proof. intros Hco. repeat split; [lia|apply Hco..]. Qed.

Lemma ahead_trans this1 this2 this3 :
  ahead this1 this2 → ahead this2 this3 → ahead this1 this3.
Proof.
  intros (Ht & Hp & _) (Ht' & Hp' & Hc). split_and!; [congruence|lia|done].
Qed.

Lemma ahead_remaining this this' :
  ahead this this' → remaining this' ≤ remaining this.
Proof. intros (Ht & Hp & _). unfold remaining. rewrite Ht. lia. Qed.

(** A coherent tokenizer is determined by its text and its index. *)
Lemma ahead_same_position this this' :
  coherent this → ahead this this' → position this' = position this →
  this' = this.
Proof.
  intros [_ Hthis] (Ht & _ & [_ Hthis']) Hp.
  rewrite Hthis, Hthis'. by rewrite Ht, Hp.
Qed.

Lemma runs_advance this c :
  coherent this → current this = Some c →
  runs advance this (λ _ this',
    ahead this this' ∧ position this' = S (position this)).
Proof.
  intros Hco Hc. exists (), (standing_at (text this) (S (position this))).
  split; [by apply advance_at with c|].
  apply current_Some_lt in Hc.
  split; [|done]. split_and!; simpl; [done|lia|].
  apply coherent_standing_at. lia.
Qed.

(** The loops of the tokenizer: each turn consumes at least a character,
    so as many turns as there are characters left are enough. *)
Lemma runs_scan {A} fuel (cond : t → bool) (body : A → M t A) a this :
  (∀ a this, coherent this → cond this = true →
     runs (body a) this (λ _ this',
       ahead this this' ∧ position this < position this')) →
  coherent this → remaining this ≤ fuel →
  runs (while fuel cond body a) this (λ _ this',
    ahead this this' ∧ cond this' = false).
Proof.
  intros Hbody Hco Hfuel.
  eapply runs_weaken.
  - apply (runs_while remaining (λ _ this', ahead this this'));
      [by apply ahead_refl|done|].
    intros a' this' Hah Hc.
    eapply runs_weaken; [apply Hbody; [apply Hah|done]|].
    intros _ this'' [Hah' Hlt]. split; [by eapply ahead_trans|].
    destruct Hah' as (Ht & _ & [Hle _]). unfold remaining.
    rewrite Ht in *. lia.
  - naive_solver.
Qed.

Lemma current_is_Some test this :
  current_is test this = true → ∃ c, current this = Some c ∧ test c = true.
Proof. unfold current_is. destruct (current this); naive_solver. Qed.

(** [value += this.current(); this.advance();] *)
Lemma runs_take_char value this c :
  coherent this → current this = Some c →
  runs (c ← gets current; advance;; mret (append value c)) this
    (λ value' this', value' = value ++ [c] ∧
       ahead this this' ∧ position this' = S (position this)).
Proof.
  intros Hco Hc. apply runs_gets_bind.
  eapply runs_bind; [by eapply runs_advance|]. intros _ this' [Hah Hp].
  apply runs_ret. by rewrite Hc.
Qed.

Lemma runs_take_while fuel test value this :
  coherent this → remaining this ≤ fuel →
  runs (while fuel (current_is test)
          (λ value, c ← gets current; advance;; mret (append value c)) value)
    this (λ _ this', ahead this this' ∧ current_is test this' = false).
Proof.
  intros Hco Hfuel. apply runs_scan; [|done..].
  intros v s Hs (c & Hc & _)%current_is_Some.
  eapply runs_weaken; [by apply runs_take_char|]. simpl.
  intros _ s' (_ & ? & ?). split; [done|lia].
Qed.

Lemma runs_skipWhitespace fuel this :
  coherent this → remaining this ≤ fuel →
  runs (skipWhitespace fuel) this (λ _ this',
    ahead this this' ∧ current_is is_space this' = false).
Proof.
  intros Hco Hfuel. apply runs_scan; [|done..].
  intros [] s Hs (c & Hc & _)%current_is_Some.
  eapply runs_weaken; [by eapply runs_advance|]. simpl.
  intros _ s' (? & ?). split; [done|lia].
Qed.

Lemma drop_current this :
  drop (position this) (text this) =
    match current this with
    | Some c => c :: drop (S (position this)) (text this)
    | None => []
    end.
Proof.
  unfold current. destruct (text this !! position this) as [c|] eqn:Hc.
  - by apply drop_S.
  - apply drop_ge. by apply lookup_ge_None.
Qed.

Lemma current_of_drop this c rest :
  drop (position this) (text this) = c :: rest →
  current this = Some c ∧ drop (S (position this)) (text this) = rest.
Proof.
  rewrite drop_current. destruct (current this); naive_solver.
Qed.

Lemma runs_readString_turn quote value this c :
  coherent this → current this = Some c → c ≠ quote →
  runs (readString_turn value) this (λ value' this',
    ahead this this' ∧ position this < position this' ∧
    value' ++ decode quote (drop (position this') (text this)) =
      value ++ decode quote (drop (position this) (text this)) ∧
    position this' + extent quote (drop (position this') (text this)) =
      position this + extent quote (drop (position this) (text this))).
Proof.
  intros Hco Hc Hq. unfold readString_turn. apply runs_gets_bind.
  rewrite (drop_current this), Hc. simpl.
  rewrite (bool_decide_false (c = quote)) by done.
  assert (Some c = Some BACKSLASH ↔ c = BACKSLASH) as Hiff by naive_solver.
  rewrite (bool_decide_ext _ _ Hiff).
  case_bool_decide as Hbs.
  - eapply runs_bind; [by eapply runs_advance|].
    intros _ this1 [Hah1 Hp1]. simpl. apply runs_gets_bind.
    pose proof (drop_current this1) as Hd.
    destruct Hah1 as (Ht1 & Hle1 & Hco1). rewrite Ht1, Hp1 in Hd.
    destruct (current this1) as [d|] eqn:Hd1.
    + rewrite bool_decide_true by eauto.
      eapply runs_bind; [by eapply runs_advance|].
      intros _ this2 [Hah2 Hp2]. apply runs_ret.
      split; [by eapply ahead_trans|]. rewrite Hd, Hp2, Hp1. simpl.
      split; [lia|]. rewrite <-(assoc_L (++)). simpl. split; [done|lia].
    + rewrite bool_decide_false by (by intros [? ?]).
      apply runs_ret. split; [done|]. rewrite Hp1, Hd. simpl.
      split_and!; [lia|done|lia].
  - eapply runs_bind; [by eapply runs_advance|].
    intros _ this1 [Hah1 Hp1]. apply runs_ret. split; [done|].
    rewrite Hp1. simpl. rewrite <-(assoc_L (++)). simpl.
    split_and!; [lia|done|lia].
Qed.

(** [readString] computes [decode] and stops where [extent] says. *)
Lemma runs_readString fuel this quote rest :
  coherent this →
  drop (position this) (text this) = quote :: rest →
  remaining this ≤ fuel →
  runs (readString fuel) this (λ value this',
    value = decode quote rest ∧ ahead this this' ∧
    position this' = position this + 1 + extent quote rest).
Proof.
  intros Hco [Hq Hrest]%current_of_drop Hfuel.
  unfold readString. apply runs_gets_bind. rewrite Hq.
  eapply runs_bind; [by eapply runs_advance|].
  intros _ this1 [Hah1 Hp1].
  pose proof Hah1 as (Ht1 & _ & Hco1).
  eapply runs_bind.
  { apply (runs_while remaining (λ value s,
      ahead this1 s ∧
      value ++ decode quote (drop (position s) (text this)) = decode quote rest ∧
      position s + extent quote (drop (position s) (text this)) =
        position this1 + extent quote rest)).
    - split; [by apply ahead_refl|]. by rewrite Hp1, Hrest.
    - apply ahead_remaining in Hah1. lia.
    - intros value s (Hah & Hv & He) (c & Hc & Hne)%current_is_Some.
      apply bool_decide_eq_true in Hne.
      pose proof Hah as (Ht & _ & Hco').
      eapply runs_weaken.
      { apply (runs_readString_turn quote value s c); [done..|congruence]. }
      simpl. intros value' s' (Hah' & Hlt & Hv' & He').
      rewrite Ht, Ht1 in Hv', He'.
      split; [|destruct Hah' as (Ht' & _ & [Hle' _]); unfold remaining;
               rewrite Ht' in *; lia].
      split; [by eapply ahead_trans|]. split; congruence. }
  simpl. intros value s [(Hah & Hv & He) Hcond].
  pose proof Hah as (Ht & _ & Hco').
  apply runs_gets_bind.
  pose proof (drop_current s) as Hd. rewrite Ht, Ht1 in Hd.
  rewrite Hd in Hv, He. unfold current_is in Hcond.
  destruct (current s) as [c|] eqn:Hc.
  - apply bool_decide_eq_false in Hcond.
    assert (c = quote) as -> by (destruct (decide (c = quote)); naive_solver).
    rewrite bool_decide_true by done.
    eapply runs_bind; [by eapply runs_advance|].
    intros _ s' [Hah' Hp']. apply runs_ret.
    simpl in Hv, He. rewrite bool_decide_true in Hv, He by done.
    rewrite app_nil_r in Hv.
    split; [done|]. split; [eauto using ahead_trans|]. lia.
  - rewrite bool_decide_false by done.
    eapply runs_bind; [by apply (runs_ret () s (λ _ s', s' = s))|].
    intros _ ? ->. apply runs_ret.
    simpl in Hv, He. rewrite app_nil_r in Hv.
    split; [done|]. split; [eauto using ahead_trans|]. lia.
Qed.

(** A reading loop that starts on a character it accepts moves forward. *)
Lemma runs_take_while_progress fuel test value this :
  coherent this → remaining this ≤ fuel → current_is test this = true →
  runs (while fuel (current_is test)
          (λ value, c ← gets current; advance;; mret (append value c)) value)
    this (λ _ this', ahead this this' ∧ position this < position this').
Proof.
  intros Hco Hfuel Hc.
  eapply runs_weaken; [by apply runs_take_while|]. cbv beta.
  intros _ this' [Hah Hc']. split; [done|].
  destruct (decide (position this' = position this)) as [Heq|Hne].
  - rewrite (ahead_same_position _ _ Hco Hah Heq) in Hc'. congruence.
  - destruct Hah as (_ & ? & _). lia.
Qed.

Lemma runs_readNumber fuel this c :
  coherent this → remaining this ≤ fuel →
  current this = Some c → is_digit c = true →
  runs (readNumber fuel) this (λ _ this',
    ahead this this' ∧ position this < position this').
Proof.
  intros Hco Hfuel Hc Hd. unfold readNumber.
  eapply runs_bind.
  - apply runs_take_while_progress; [done..|].
    unfold current_is, is_number_char. by rewrite Hc, Hd.
  - intros value this' H. by apply runs_ret.
Qed.

Lemma is_ident_start_char c : is_ident_start c = true → is_ident_char c = true.
Proof.
  unfold is_ident_start, is_ident_char.
  by destruct (in_range "a" "z" c), (in_range "A" "Z" c), (one_of "_" c),
    (is_digit c).
Qed.

Lemma runs_readIdentifier fuel this c :
  coherent this → remaining this ≤ fuel →
  current this = Some c → is_ident_start c = true →
  runs (readIdentifier fuel) this (λ _ this',
    ahead this this' ∧ position this < position this').
Proof.
  intros Hco Hfuel Hc Hd. unfold readIdentifier.
  apply runs_take_while_progress; [done..|].
  unfold current_is. rewrite Hc. by apply is_ident_start_char.
Qed.

Lemma peek_is_next this this' :
  ahead this this' → position this' = S (position this) →
  current this' = peek this.
Proof.
  intros (Ht & _) Hp. unfold current, peek. by rewrite Ht, Hp, Nat.add_1_r.
Qed.

Lemma runs_readComment fuel this :
  coherent this → remaining this ≤ fuel →
  current this = Some (chr "/") →
  peek this = Some (chr "/") ∨ peek this = Some (chr "*") →
  runs (readComment fuel) this (λ _ this',
    ahead this this' ∧ position this < position this').
Proof.
  intros Hco Hfuel Hc Hpeek. unfold readComment. apply runs_get_bind.
  case_bool_decide as Hline.
  { apply runs_take_while_progress; [done..|].
    unfold current_is. rewrite Hc. by apply bool_decide_eq_true. }
  case_bool_decide as Hblock; [|tauto].
  destruct Hblock as [_ Hstar].
  eapply runs_bind; [by eapply runs_advance|]. intros _ this1 [Hah1 Hp1].
  pose proof Hah1 as (_ & _ & Hco1).
  pose proof (peek_is_next _ _ Hah1 Hp1) as Hc1. rewrite Hstar in Hc1.
  eapply runs_bind; [by eapply runs_advance|]. intros _ this2 [Hah2 Hp2].
  pose proof Hah2 as (_ & _ & Hco2).
  assert (remaining this2 ≤ fuel) as Hfuel2.
  { apply ahead_remaining in Hah1, Hah2. lia. }
  eapply runs_bind.
  { apply runs_scan; [|done..].
    intros value s Hs [Hsome _]%andb_true_iff.
    apply bool_decide_eq_true in Hsome as [c Hcs].
    eapply runs_weaken; [by apply runs_take_char|]. cbv beta.
    intros _ s' (_ & ? & ?). split; [done|lia]. }
  cbv beta. intros value this3 [Hah3 Hcond]. apply runs_gets_bind.
  pose proof Hah3 as (_ & _ & Hco3).
  assert (ahead this this3) as Hah by eauto using ahead_trans.
  assert (position this < position this3) as Hlt.
  { destruct Hah2 as (_ & ? & _), Hah3 as (_ & ? & _). lia. }
  decide_goal (current this3 = Some (chr "*")) Hend.
  - rewrite Hend in Hcond. rewrite bool_decide_true in Hcond by eauto.
    rewrite andb_true_l in Hcond.
    apply negb_false_iff, bool_decide_eq_true in Hcond.
    destruct Hcond as [_ Hslash].
    apply (runs_bind _ _ _ (λ _ s, ahead this3 s)).
    { eapply runs_bind; [by eapply runs_advance|]. intros _ this4 [Hah4 Hp4].
      pose proof Hah4 as (_ & _ & Hco4).
      pose proof (peek_is_next _ _ Hah4 Hp4) as Hc4. rewrite Hslash in Hc4.
      eapply runs_weaken; [by eapply runs_advance|]. cbv beta.
      intros _ this5 [Hah5 Hp5]. eauto using ahead_trans. }
    cbv beta. intros _ this5 Hah5. apply runs_ret.
    split; [eauto using ahead_trans|]. destruct Hah5 as (_ & ? & _). lia.
  - eapply runs_bind; [by apply (runs_ret () this3 (λ _ s, s = this3))|].
    intros _ ? ->. by apply runs_ret.
Qed.

Lemma skipWhitespace_done fuel this :
  current_is is_space this = false → skipWhitespace fuel this = Return () this.
Proof. intros H. unfold skipWhitespace. by rewrite while_done. Qed.

(** Leading blanks apart, [nextToken] does what it does from the first
    significant character. *)
Lemma nextToken_after_blanks fuel this this1 :
  skipWhitespace fuel this = Return () this1 →
  current_is is_space this1 = false →
  nextToken fuel this = nextToken fuel this1.
Proof.
  intros Hskip Hc. unfold nextToken.
  rewrite (bind_Return _ _ _ _ _ Hskip).
  by rewrite (bind_Return _ _ _ _ _ (skipWhitespace_done fuel this1 Hc)).
Qed.

(** [nextToken] on a significant character or at the end of the text. *)
Lemma runs_nextToken_here fuel this :
  coherent this → remaining this ≤ fuel →
  current_is is_space this = false →
  runs (nextToken fuel) this (λ token this',
    ahead this this' ∧ Token.type token ≠ WHITESPACE ∧
    where_ token = (line this, column this) ∧
    if bool_decide (Token.type token = EOF)
    then current this = None ∧ this' = this
    else position this < position this').
Proof.
  intros Hco Hfuel Hsp. unfold nextToken.
  apply (runs_bind_Return _ _ _ _ _ _ (skipWhitespace_done fuel this Hsp)).
  apply runs_get_bind.
  destruct (current this) as [char|] eqn:Hc; [|by apply runs_ret, conj;
    [apply ahead_refl|]].
  destruct (_ && _) eqn:Hcomment.
  { apply andb_true_iff in Hcomment as
      [->%bool_decide_eq_true Hpeek%bool_decide_eq_true].
    eapply runs_bind; [by apply runs_readComment|].
    cbv beta. intros value this' [Hah Hlt]. by apply runs_ret. }
  clear Hcomment. decide_goal (char = DQUOTE ∨ char = SQUOTE) Hquote.
  { pose proof (drop_current this) as Hd. rewrite Hc in Hd.
    eapply runs_bind; [by eapply runs_readString|].
    cbv beta. intros value this' (_ & Hah & Hp). apply runs_ret.
    split_and!; [done..|simpl; lia]. }
  destruct (is_digit char) eqn:Hdigit.
  { eapply runs_bind; [by eapply runs_readNumber|].
    cbv beta. intros value this' [Hah Hlt]. by apply runs_ret. }
  destruct (is_ident_start char) eqn:Hident.
  { eapply runs_bind; [by eapply runs_readIdentifier|].
    cbv beta. intros value this' [Hah Hlt]. apply runs_ret.
    by destruct (bool_decide (value ∈ KEYWORDS)). }
  destruct (is_punctuation char);
    [|destruct (is_operator char)];
    (eapply runs_bind; [by eapply runs_advance|];
     simpl; intros _ this' [Hah Hp]; apply runs_ret;
     split_and!; [done..|simpl; lia]).
Qed.

Lemma standing_at_coherent this :
  coherent this → standing_at (text this) (position this) = this.
Proof. by intros [_ <-]. Qed.

Lemma position_le_refl a : position_le a a.
Proof. right. split; [done|lia]. Qed.

Lemma position_le_trans a b c :
  position_le a b → position_le b c → position_le a c.
Proof. unfold position_le. lia. Qed.

(** Later characters have later (line, column) positions. *)
Lemma position_le_index text p q :
  p ≤ q → q ≤ length text →
  position_le (line_of text p, column_of text p)
              (line_of text q, column_of text q).
Proof.
  induction 1 as [|q Hpq IH]; intros Hq; [apply position_le_refl|].
  eapply position_le_trans; [apply IH; lia|].
  destruct (lookup_lt_is_Some_2 text q) as [c Hc]; [lia|].
  rewrite (line_of_S _ _ _ Hc), (column_of_S _ _ _ Hc).
  unfold position_le. simpl. case_bool_decide; lia.
Qed.

Lemma runs_nextToken fuel this :
  coherent this → remaining this ≤ fuel →
  runs (nextToken fuel) this (λ token this',
    ahead this this' ∧ Token.type token ≠ WHITESPACE ∧
    if bool_decide (Token.type token = EOF)
    then where_ token = (line_of (text this) (length (text this)),
                         column_of (text this) (length (text this)))
    else ∃ p, position this ≤ p ∧ p < position this' ∧
              begins (text this) token p).
Proof.
  intros Hco Hfuel.
  destruct (runs_skipWhitespace fuel this Hco Hfuel)
    as ([] & this1 & Hskip & Hah1 & Hsp).
  pose proof Hah1 as (Ht1 & Hp1 & Hco1).
  assert (remaining this1 ≤ fuel) as Hfuel1.
  { apply ahead_remaining in Hah1. lia. }
  destruct (runs_nextToken_here fuel this1 Hco1 Hfuel1 Hsp)
    as (token & this' & Hnext & Hah & Hws & Hwhere & Hcase).
  exists token, this'.
  split; [by rewrite (nextToken_after_blanks _ _ _ Hskip Hsp)|].
  split; [by eapply ahead_trans|]. split; [done|].
  assert (where_ token = (line_of (text this) (position this1),
                          column_of (text this) (position this1))) as Hw.
  { rewrite Hwhere, <-Ht1. destruct Hco1 as [_ Heq]. by rewrite Heq at 1 2. }
  case_bool_decide as Heof.
  - destruct Hcase as [Hnone ->].
    by rewrite <-Ht1, <-(current_None_ge this1), Ht1.
  - exists (position this1). split_and!; [done..|].
    unfold current_is in Hsp. rewrite <-Ht1.
    destruct (current this1) as [c|] eqn:Hc.
    + split; [by exists c|]. split; [by rewrite Ht1|].
      exists fuel, this'. by rewrite standing_at_coherent.
    + apply current_None_ge in Hc; [|done].
      destruct Hah as (Ht & _ & [Hle _]). rewrite Ht in Hle. lia.
Qed.

Lemma token_stream_earlier text from from' tokens :
  from' ≤ from → token_stream text from tokens →
  token_stream text from' tokens.
Proof.
  intros Hle Hs. destruct Hs as [from token ? ? ?|from token p tokens ? ? ? ?].
  - apply stream_eof; [done|lia|done].
  - apply stream_token with p; [done|lia|done|done].
Qed.

Lemma runs_tokenize_loop fuel tokens this :
  coherent this → remaining this < fuel →
  runs (tokenize_loop fuel tokens) this (λ tokens' _,
    ∃ new, tokens' = tokens ++ new ∧
           token_stream (text this) (position this) new).
Proof.
  revert tokens this.
  induction fuel as [|fuel IH]; intros tokens this Hco Hfuel; [lia|].
  simpl. eapply runs_bind; [apply runs_nextToken; [done|lia]|].
  cbv beta. intros token this' (Hah & Hws & Hcase).
  pose proof Hah as (Ht & Hp & Hco').
  rewrite (bool_decide_true (Token.type token ≠ WHITESPACE)) by done.
  case_bool_decide as Heof.
  - rewrite bool_decide_false by naive_solver.
    apply runs_ret. exists [token]. split; [done|].
    apply stream_eof; [done|apply Hco|done].
  - rewrite bool_decide_true by done.
    destruct Hcase as (p & Hp1 & Hp2 & Hbegins).
    eapply runs_weaken.
    + apply IH; [done|]. unfold remaining in *.
      destruct Hco' as [Hle _]. rewrite Ht in *. lia.
    + cbv beta. intros tokens' _ (new & -> & Hnew).
      exists (token :: new). split; [by rewrite <-(assoc_L (++))|].
      apply stream_token with p; [done..|]. rewrite Ht in Hnew.
      eapply token_stream_earlier; [|exact Hnew]. lia.
Qed.

Lemma token_stream_ends text from tokens :
  token_stream text from tokens →
  ∃ body eof, tokens = body ++ [eof] ∧ Token.type eof = EOF ∧
              Forall (λ token, Token.type token ≠ EOF) body.
Proof.
  induction 1 as [from token|from token p tokens ? ? ? ? IH].
  - by exists [], token.
  - destruct IH as (body & eof & -> & ? & ?).
    exists (token :: body), eof. split_and!; [done..|]. by constructor.
Qed.

Lemma token_stream_sorted text from tokens :
  token_stream text from tokens →
  Forall (λ token, position_le (line_of text from, column_of text from)
                               (where_ token)) tokens ∧
  StronglySorted (λ a b, position_le (where_ a) (where_ b)) tokens.
Proof.
  induction 1 as [from token ? ? Hw|from token p tokens ? ? Hb Hs IH].
  - split; [|by repeat constructor].
    constructor; [|done]. rewrite Hw. by apply position_le_index.
  - destruct IH as [Hall Hsorted].
    destruct Hb as ((c & Hc & _) & Hw & _).
    apply lookup_lt_Some in Hc.
    assert (Forall (λ t, position_le (where_ token) (where_ t)) tokens) as Hlater.
    { eapply Forall_impl; [|exact Hall]. cbv beta. intros t Ht. rewrite Hw.
      eapply position_le_trans; [|exact Ht]. apply position_le_index; lia. }
    split; [|by constructor].
    constructor.
    + rewrite Hw. apply position_le_index; lia.
    + eapply Forall_impl; [|exact Hlater]. cbv beta. intros t Ht.
      eapply position_le_trans; [|exact Ht]. rewrite Hw.
      apply position_le_index; lia.
Qed.

Lemma token_stream_begins text from tokens :
  token_stream text from tokens →
  Forall (λ token, Token.type token ≠ EOF → ∃ p, begins text token p) tokens.
Proof.
  induction 1 as [from token Heof|from token p tokens]; constructor; eauto.
  intros Hne. by destruct Hne.
Qed.

(** On a quote character [nextToken] returns the STRING token of the
    literal, positioned on the opening quote. *)
Lemma nextToken_string fuel this quote rest :
  coherent this →
  drop (position this) (text this) = quote :: rest →
  quote = DQUOTE ∨ quote = SQUOTE →
  remaining this ≤ fuel →
  ∃ this',
    nextToken fuel this =
      Return (Token.mk STRING (VStr (decode quote rest))
                       (line this) (column this)) this' ∧
    ahead this this' ∧
    position this' = position this + 1 + extent quote rest.
Proof.
  intros Hco Hdrop Hquote Hfuel.
  destruct (runs_readString fuel this quote rest Hco Hdrop Hfuel)
    as (value & this' & Hread & -> & Hah & Hp).
  exists this'. split; [|done].
  apply current_of_drop in Hdrop as [Hc _].
  assert (current_is is_space this = false) as Hsp.
  { unfold current_is. rewrite Hc. by destruct Hquote as [-> | ->]. }
  unfold nextToken.
  rewrite (bind_Return _ _ _ _ _ (skipWhitespace_done fuel this Hsp)).
  rewrite bind_get, Hc.
  assert (bool_decide (quote = chr "/") = false) as ->
    by (by destruct Hquote as [-> | ->]).
  rewrite andb_false_l, (bool_decide_true (quote = DQUOTE ∨ quote = SQUOTE))
    by done.
  by rewrite (bind_Return _ _ _ _ _ Hread).
Qed.

(** A backslash met where a fresh character is expected, with nothing after
    it, adds nothing to the content. *)
Lemma decode_dangling_backslash quote content :
  open_ended quote content = true →
  decode quote (content ++ [BACKSLASH]) = decode quote content ∧
  extent quote (content ++ [BACKSLASH]) = length content + 1.
Proof.
  remember (length content) as n eqn:Hn. revert content Hn.
  induction (lt_wf n) as [n _ IH]. intros content -> Hopen.
  destruct content as [|c content]; simpl in *.
  { repeat case_bool_decide; done. }
  case_bool_decide; [done|].
  case_bool_decide.
  - destruct content as [|escaped content]; [done|]. simpl.
    destruct (IH (length content)) with (content := content) as [-> ->];
      [simpl; lia|done..|].
    split; [done|lia].
  - destruct (IH (length content)) with (content := content) as [-> ->];
      [simpl; lia|done..].
Qed.

Lemma decode_plain quote content :
  quote ∉ content → BACKSLASH ∉ content → decode quote content = content.
Proof.
  induction content as [|c content IH]; [done|].
  intros [? ?]%not_elem_of_cons [? ?]%not_elem_of_cons. simpl.
  rewrite !bool_decide_false by done. f_equal. by apply IH.
Qed.

Lemma decode_closed quote content rest :
  quote ∉ content → BACKSLASH ∉ content →
  decode quote (content ++ quote :: rest) = content.
Proof.
  induction content as [|c content IH].
  - intros _ _. simpl. by rewrite bool_decide_true.
  - intros [? ?]%not_elem_of_cons [? ?]%not_elem_of_cons. simpl.
    rewrite !bool_decide_false by done. f_equal. by apply IH.
Qed.

(** *** Claims about the tokenizer *)

(** C4. For every input text [tokenize] returns, without throwing, as soon
    as it is given more fuel than the text has characters; the sequence it
    returns ends with an EOF token and holds no other EOF token. *)
Theorem tokenize_ends_with_one_EOF (text : jsstring) (fuel : nat) :
  length text < fuel →
  ∃ body eof this',
    tokenize fuel (new text) = Return (body ++ [eof]) this' ∧
    Token.type eof = EOF ∧
    Forall (λ token, Token.type token ≠ EOF) body.
Proof.
  intros Hfuel.
  destruct (runs_tokenize_loop fuel [] (new text) (coherent_new text))
    as (tokens & this' & Hrun & new & -> & Hstream).
  { unfold remaining. simpl. lia. }
  apply token_stream_ends in Hstream as (body & eof & -> & Heof & Hbody).
  by exists body, eof, this'.
Qed.

Lemma tokenize_ends_with_one_EOF_witness :
  length (js "part A { }") < 11 ∧
  ∃ body eof this',
    tokenize 11 (new (js "part A { }")) = Return (body ++ [eof]) this' ∧
    Token.type eof = EOF ∧
    Forall (λ token, Token.type token ≠ EOF) body.
Proof.
  split; [vm_compute; lia|].
  apply (tokenize_ends_with_one_EOF (js "part A { }") 11). vm_compute. lia.
Defined.

(** C7. A STRING token carries [decode quote rest], where [quote] is the
    character that opened the literal and [rest] the text after it: the
    content up to the next unescaped [quote] (or up to the end of the input
    for an unterminated literal, which is returned all the same), a
    backslash standing for the character that follows it, copied as it is.
    The literal "a\"b" is read as the STRING token of value a"b. *)
Theorem string_token_value :
  (∀ fuel this quote rest,
     coherent this →
     drop (position this) (text this) = quote :: rest →
     quote = DQUOTE ∨ quote = SQUOTE →
     remaining this ≤ fuel →
     ∃ this',
       nextToken fuel this =
         Return (Token.mk STRING (VStr (decode quote rest))
                          (line this) (column this)) this' ∧
       position this' = position this + 1 + extent quote rest) ∧
  (∀ quote content rest,
     quote ∉ content → BACKSLASH ∉ content →
     decode quote (content ++ quote :: rest) = content ∧
     decode quote content = content) ∧
  (∀ quote c rest,
     quote ≠ BACKSLASH →
     decode quote (BACKSLASH :: c :: rest) = c :: decode quote rest) ∧
  (∃ this',
     tokenize 7 (new (DQUOTE :: js "a" ++ BACKSLASH :: DQUOTE :: js "b"
                      ++ [DQUOTE])) =
       Return [Token.mk STRING (VStr (js "a" ++ DQUOTE :: js "b")) 1 1;
               Token.mk EOF VNull 1 7] this').
Proof.
  split_and!.
  - intros fuel this quote rest Hco Hdrop Hquote Hfuel.
    destruct (nextToken_string fuel this quote rest) as (this' & ? & _ & ?);
      eauto.
  - intros quote content rest Hq Hb.
    split; [by apply decode_closed|by apply decode_plain].
  - intros quote c rest Hq. simpl. by rewrite bool_decide_false.
  - eexists. vm_compute. reflexivity.
Qed.

Lemma string_token_value_witness :
  let text := SQUOTE :: js "it" ++ BACKSLASH :: SQUOTE :: js "s" in
  coherent (new text) ∧
  drop 0 text = SQUOTE :: js "it" ++ BACKSLASH :: SQUOTE :: js "s" ∧
  remaining (new text) ≤ 6 ∧
  ∃ this',
    nextToken 6 (new text) =
      Return (Token.mk STRING (VStr (js "it" ++ SQUOTE :: js "s")) 1 1) this' ∧
    position this' = 6.
Proof.
  intros text. split_and!; [apply coherent_new|done|vm_compute; lia|].
  apply (proj1 string_token_value 6 (new text) SQUOTE
           (js "it" ++ BACKSLASH :: SQUOTE :: js "s"));
    [apply coherent_new|done|by right|vm_compute; lia].
Defined.

(** C8. Every token of the sequence [tokenize] returns, EOF apart, is the
    token read from the character at some index [p] of the text, a
    character that is not a blank, and records the 1-based line and column
    of [p]: the values the tokenizer holds when it stands on [p], before it
    consumes anything of the token.  Along the sequence the (line, column)
    pairs never decrease in lexicographic order. *)
Theorem tokens_record_where_they_begin (text : jsstring) (fuel : nat) :
  length text < fuel →
  ∃ tokens this',
    tokenize fuel (new text) = Return tokens this' ∧
    Forall (λ token, Token.type token ≠ EOF → ∃ p, begins text token p)
           tokens ∧
    StronglySorted (λ a b, position_le (where_ a) (where_ b)) tokens.
Proof.
  intros Hfuel.
  destruct (runs_tokenize_loop fuel [] (new text) (coherent_new text))
    as (tokens & this' & Hrun & new & -> & Hstream).
  { unfold remaining. simpl. lia. }
  exists new, this'. split; [done|].
  split; [by eapply token_stream_begins|].
  by eapply token_stream_sorted.
Qed.

Lemma tokens_record_where_they_begin_witness :
  let text := js "port p;" ++ NEWLINE :: js "  port q;" in
  length text < 18 ∧
  ∃ tokens this',
    tokenize 18 (new text) = Return tokens this' ∧
    Forall (λ token, Token.type token ≠ EOF → ∃ p, begins text token p)
           tokens ∧
    StronglySorted (λ a b, position_le (where_ a) (where_ b)) tokens.
Proof.
  intros text. split; [vm_compute; lia|].
  apply (tokens_record_where_they_begin text 18). vm_compute. lia.
Defined.

(** *** The loop of [tokenize], turn by turn *)

Lemma nextToken_extends fuel fuel' :
  fuel ≤ fuel' → extends (nextToken fuel) (nextToken fuel').
Proof.
  intros Hle.
  unfold nextToken, skipWhitespace, readComment, readString, readNumber,
    readIdentifier.
  repeat extends_step.
Qed.

Lemma tokenize_loop_extends fuel :
  ∀ fuel' tokens,
    fuel ≤ fuel' →
    extends (tokenize_loop fuel tokens) (tokenize_loop fuel' tokens).
Proof.
  induction fuel as [|fuel IH]; intros fuel' tokens Hle.
  - by intros s Hs.
  - destruct fuel' as [|fuel']; [lia|]. cbn [tokenize_loop].
    apply extends_bind; [apply nextToken_extends; lia|]. intros token.
    cbv zeta. destruct (bool_decide (Token.type token ≠ EOF));
      [apply IH; lia|apply extends_refl].
Qed.

Lemma nextToken_more_fuel fuel fuel' this token this' :
  fuel ≤ fuel' →
  nextToken fuel this = Return token this' →
  nextToken fuel' this = Return token this'.
Proof.
  intros Hle Hnext. rewrite <- Hnext.
  apply nextToken_extends; [done|]. by rewrite Hnext.
Qed.

Lemma tokenize_loop_more_fuel fuel fuel' front this tokens this' :
  fuel ≤ fuel' →
  tokenize_loop fuel front this = Return tokens this' →
  tokenize_loop fuel' front this = Return tokens this'.
Proof.
  intros Hle Hloop. rewrite <- Hloop.
  apply tokenize_loop_extends; [done|]. by rewrite Hloop.
Qed.

(** Where the loop arrives, the tokenizer is coherent and still has the
    text it was given. *)
Lemma arrives_coherent text0 tokens this :
  arrives text0 tokens this → coherent this ∧ text this = text0.
Proof.
  induction 1 as [|tokens this fuel token this' _ [Hco Ht] Hnext _].
  - split; [apply coherent_new|done].
  - destruct (runs_nextToken (fuel `max` remaining this) this Hco ltac:(lia))
      as (token' & this'' & Hnext' & Hah & _).
    rewrite (nextToken_more_fuel fuel (fuel `max` remaining this) this token
               this' ltac:(lia) Hnext) in Hnext'.
    injection Hnext' as <- <-. destruct Hah as (Ht' & _ & Hco').
    split; [done|congruence].
Qed.

(** What the loop returns from where it has arrived is what [tokenize]
    returns. *)
Lemma arrives_tokenize text0 front this :
  arrives text0 front this →
  ∀ fuel tokens this',
    tokenize_loop fuel front this = Return tokens this' →
    ∃ fuel', tokenize fuel' (new text0) = Return tokens this'.
Proof.
  induction 1 as [|front this fuel0 token this1 _ IH Hnext Hne];
    intros fuel tokens this' Hloop.
  - by exists fuel.
  - apply (IH (S (fuel0 `max` fuel)) tokens this'). cbn [tokenize_loop].
    rewrite (bind_Return _ _ _ _ _
               (nextToken_more_fuel fuel0 (fuel0 `max` fuel) _ _ _
                  ltac:(lia) Hnext)).
    cbv zeta. rewrite (bool_decide_true (Token.type token ≠ EOF)) by done.
    apply (tokenize_loop_more_fuel fuel); [lia|done].
Qed.

(** [skipWhitespace] stops on the first character that is not a blank. *)
Lemma skipWhitespace_blanks blanks :
  ∀ fuel this rest,
    coherent this →
    drop (position this) (text this) = blanks ++ rest →
    Forall (λ c, is_space c = true) blanks →
    (∀ c, head rest = Some c → is_space c = false) →
    length blanks ≤ fuel →
    skipWhitespace fuel this =
      Return () (standing_at (text this) (position this + length blanks)).
Proof.
  induction blanks as [|b blanks IH];
    intros fuel this rest Hco Hdrop Hblank Hrest Hfuel.
  - cbn [length]. rewrite Nat.add_0_r, (standing_at_coherent this Hco).
    apply skipWhitespace_done. unfold current_is.
    cbn [app] in Hdrop. rewrite drop_current in Hdrop.
    destruct (current this) as [c|]; [|done]. apply Hrest. by rewrite <- Hdrop.
  - cbn [app] in Hdrop. apply current_of_drop in Hdrop as [Hc Hdrop].
    inversion Hblank as [|? ? Hb Hblank']; subst.
    destruct fuel as [|fuel]; [cbn [length] in Hfuel; lia|].
    cbn [length] in *.
    pose proof (current_Some_lt _ _ Hc) as Hlt.
    unfold skipWhitespace.
    rewrite (while_step _ _ _ _ _ ()
               (standing_at (text this) (S (position this))));
      [|by unfold current_is; rewrite Hc|by apply advance_at with b].
    fold (skipWhitespace fuel).
    rewrite (IH fuel _ rest); cbn [standing_at text position];
      [|by apply coherent_standing_at|done..|lia].
    f_equal. f_equal; lia.
Qed.

(** *** Claims about the tokenizer, continued *)

(** C10. Wherever the loop of [tokenize] arrives at a string literal that
    is not terminated and ends the input with a backslash that opens an
    escape (blanks may stand before the opening quote; the characters
    [content] between the quote and the backslash neither close the literal
    nor leave an escape pending), [tokenize] returns the tokens pushed
    before, then a STRING token placed on the opening quote, then the EOF
    token; the value of the STRING token is the content decoded from
    [content] alone: with no character left to escape, the backslash adds
    nothing to the value. *)
Theorem trailing_backslash_dropped (text0 : jsstring) (fuel : nat)
    (front : list Token) (this : SysMLTokenizer.t) (blanks : jsstring)
    (quote : N) (content : jsstring) :
  arrives text0 front this →
  drop (position this) text0 = blanks ++ quote :: content ++ [BACKSLASH] →
  Forall (λ c, is_space c = true) blanks →
  quote = DQUOTE ∨ quote = SQUOTE →
  open_ended quote content = true →
  length text0 < fuel →
  let p := position this + length blanks in
  ∃ eof this',
    tokenize fuel (new text0) =
      Return (front ++
              [Token.mk STRING (VStr (decode quote content))
                        (line_of text0 p) (column_of text0 p); eof]) this' ∧
    Token.type eof = EOF.
Proof.
  intros Harrives Hdrop Hblank Hquote Hopen Hfuel p.
  destruct (arrives_coherent _ _ _ Harrives) as [Hco Ht].
  rewrite <- Ht in Hdrop.
  assert (length text0 =
            position this + length blanks + 1 + length content + 1) as Hlen.
  { apply (f_equal length) in Hdrop.
    rewrite length_drop, Ht, !length_app in Hdrop. cbn [length] in Hdrop.
    rewrite length_app in Hdrop. cbn [length] in Hdrop. lia. }
  set (g := length text0).
  set (this1 := standing_at (text this) p).
  assert (skipWhitespace g this = Return () this1) as Hskip.
  { apply (skipWhitespace_blanks blanks g this
             (quote :: content ++ [BACKSLASH])); [done..| |lia].
    intros c [= <-]. by destruct Hquote as [-> | ->]. }
  assert (coherent this1) as Hco1.
  { apply coherent_standing_at. rewrite Ht. unfold p. lia. }
  assert (drop (position this1) (text this1) =
            quote :: content ++ [BACKSLASH]) as Hdrop1.
  { cbn [this1 standing_at position text]. unfold p.
    by rewrite <- drop_drop, Hdrop, drop_app_length. }
  assert (current_is is_space this1 = false) as Hsp.
  { unfold current_is.
    destruct (current_of_drop _ _ _ Hdrop1) as [-> _].
    by destruct Hquote as [-> | ->]. }
  destruct (nextToken_string g this1 quote (content ++ [BACKSLASH]))
    as (this2 & Hnext & Hah & Hp); [done..| |].
  { unfold remaining. cbn [this1 standing_at position text]. rewrite Ht.
    unfold g. lia. }
  rewrite <- (nextToken_after_blanks g this this1 Hskip Hsp) in Hnext.
  destruct (decode_dangling_backslash quote content Hopen) as [Hvalue Hextent].
  rewrite Hvalue in Hnext. rewrite Hextent in Hp.
  cbn [this1 standing_at position text line column] in Hnext, Hp.
  rewrite Ht in Hnext.
  pose proof Hah as (Ht2 & _ & Hco2).
  cbn [this1 standing_at text] in Ht2. rewrite Ht in Ht2.
  destruct (runs_nextToken g this2 Hco2)
    as (eof & this3 & Hnext2 & Hah3 & _ & Hcase).
  { unfold remaining. rewrite Ht2. unfold g. lia. }
  assert (Token.type eof = EOF) as Heof.
  { destruct (decide (Token.type eof = EOF)) as [|Hne]; [done|].
    rewrite bool_decide_false in Hcase by done.
    destruct Hcase as (q & ? & ? & _).
    destruct Hah3 as (Ht3 & _ & [Hle _]). rewrite Ht3, Ht2 in Hle.
    unfold p in Hp. lia. }
  assert (tokenize_loop (S (S g)) front this =
            Return (front ++
                    [Token.mk STRING (VStr (decode quote content))
                              (line_of text0 p) (column_of text0 p); eof])
                   this3) as Hloop.
  { cbn [tokenize_loop].
    rewrite (bind_Return _ _ _ _ _
               (nextToken_more_fuel g (S g) _ _ _ ltac:(lia) Hnext)).
    cbn [Token.type].
    rewrite (bool_decide_true (STRING ≠ WHITESPACE)),
      (bool_decide_true (STRING ≠ EOF)) by done.
    cbn [tokenize_loop].
    rewrite (bind_Return _ _ _ _ _ Hnext2), Heof.
    rewrite (bool_decide_true (EOF ≠ WHITESPACE)),
      (bool_decide_false (EOF ≠ EOF)) by naive_solver.
    by rewrite <- (assoc_L (++)). }
  destruct (arrives_tokenize _ _ _ Harrives _ _ _ Hloop) as [fuel' Hall].
  exists eof, this3. split; [|done].
  destruct (runs_tokenize_loop fuel [] (new text0) (coherent_new text0))
    as (tokens & this' & Hrun & _).
  { unfold remaining. cbn [new text position]. lia. }
  unfold tokenize in *.
  rewrite <- (tokenize_loop_more_fuel fuel (fuel `max` fuel') [] (new text0)
                tokens this' ltac:(lia) Hrun) in Hrun.
  rewrite (tokenize_loop_more_fuel fuel' (fuel `max` fuel') [] (new text0)
             _ _ ltac:(lia) Hall) in Hrun.
  done.
Qed.

Lemma trailing_backslash_dropped_witness :
  let text0 := js "x " ++ DQUOTE :: js "a" ++ [BACKSLASH; BACKSLASH; BACKSLASH] in
  ∃ eof this',
    tokenize 9 (new text0) =
      Return [Token.mk IDENTIFIER (VStr (js "x")) 1 1;
              Token.mk STRING (VStr (js "a" ++ [BACKSLASH])) 1 3; eof] this' ∧
    Token.type eof = EOF.
Proof.
  intros text0.
  set (word := Token.mk IDENTIFIER (VStr (js "x")) 1 1).
  assert (arrives text0 [word] (standing_at text0 1)) as Harrives.
  { apply (arrives_next text0 [] (new text0) 2 word (standing_at text0 1));
      [apply arrives_start|vm_compute; reflexivity|done]. }
  apply (trailing_backslash_dropped text0 9 [word] (standing_at text0 1)
           (js " ") DQUOTE (js "a" ++ [BACKSLASH; BACKSLASH]) Harrives);
    [vm_compute; reflexivity|by repeat constructor|by left
    |vm_compute; reflexivity|vm_compute; lia].
Defined.

(** A backslash that is itself escaped is not a dangling one: it is part of
    the value, also at the end of the input. *)
Example escaped_backslash_kept :
  ∃ eof this',
    tokenize 4 (new [DQUOTE; BACKSLASH; BACKSLASH]) =
      Return [Token.mk STRING (VStr [BACKSLASH]) 1 1; eof] this'.
Proof. do 2 eexists. vm_compute. reflexivity. Qed.

(** *** Further properties of the tokenizer *)

Lemma runs_nextToken_end fuel this :
  coherent this → remaining this ≤ fuel →
  runs (nextToken fuel) this (λ token this',
    ahead this this' ∧
    if bool_decide (Token.type token = EOF)
    then position this' = length (text this)
    else position this < position this').
Proof.
  intros Hco Hfuel.
  destruct (runs_skipWhitespace fuel this Hco Hfuel)
    as ([] & this1 & Hskip & Hah1 & Hsp).
  pose proof Hah1 as (Ht1 & Hp1 & Hco1).
  assert (remaining this1 ≤ fuel) as Hfuel1.
  { apply ahead_remaining in Hah1. lia. }
  destruct (runs_nextToken_here fuel this1 Hco1 Hfuel1 Hsp)
    as (token & this' & Hnext & Hah & _ & _ & Hcase).
  exists token, this'.
  split; [by rewrite (nextToken_after_blanks _ _ _ Hskip Hsp)|].
  split; [by eapply ahead_trans|].
  case_bool_decide.
  - destruct Hcase as [Hnone ->]. by rewrite <-Ht1, <-(current_None_ge this1).
  - lia.
Qed.

Lemma runs_tokenize_loop_end fuel tokens this :
  coherent this → remaining this < fuel →
  runs (tokenize_loop fuel tokens) this (λ _ this',
    this' = standing_at (text this) (length (text this))).
Proof.
  revert tokens this.
  induction fuel as [|fuel IH]; intros tokens this Hco Hfuel; [lia|].
  cbn [tokenize_loop].
  eapply runs_bind; [apply runs_nextToken_end; [done|lia]|].
  cbv beta. intros token this' (Hah & Hcase).
  pose proof Hah as (Ht & Hp & Hco').
  destruct (decide (Token.type token = EOF)) as [Heof|Heof].
  - rewrite (bool_decide_false (Token.type token ≠ EOF)) by naive_solver.
    rewrite bool_decide_true in Hcase by done.
    apply runs_ret. destruct Hco' as [_ Heq]. by rewrite Heq, Ht, Hcase.
  - rewrite (bool_decide_true (Token.type token ≠ EOF)) by done.
    rewrite bool_decide_false in Hcase by done.
    eapply runs_weaken.
    + apply IH; [done|]. unfold remaining in *.
      destruct Hco' as [Hle _]. rewrite Ht in *. lia.
    + cbv beta. intros _ this'' ->. by rewrite Ht.
Qed.

(** X1. [tokenize] reads the text to its end and leaves the tokenizer
    standing past the last character, its line and column counters those of
    the end of the text; the text itself is untouched. *)
Theorem tokenize_reads_whole_text (text : jsstring) (fuel : nat) :
  length text < fuel →
  ∃ tokens,
    tokenize fuel (new text) =
      Return tokens (standing_at text (length text)).
Proof.
  intros Hfuel.
  destruct (runs_tokenize_loop_end fuel [] (new text) (coherent_new text))
    as (tokens & this' & Hrun & ->).
  { unfold remaining. simpl. lia. }
  by exists tokens.
Qed.

Lemma tokenize_reads_whole_text_witness :
  length (js "port p;") < 8 ∧
  ∃ tokens,
    tokenize 8 (new (js "port p;")) =
      Return tokens (SysMLTokenizer.mk (js "port p;") 7 1 8).
Proof.
  split; [vm_compute; lia|].
  apply (tokenize_reads_whole_text (js "port p;") 8). vm_compute. lia.
Defined.

(** X2. A text made of blanks only, the empty text included, gives the EOF
    token alone, placed at the end of the text. *)
Theorem tokenize_blank_text (text : jsstring) (fuel : nat) :
  Forall (λ c, is_space c = true) text →
  length text < fuel →
  ∃ this',
    tokenize fuel (new text) =
      Return [Token.mk EOF VNull (line_of text (length text))
                       (column_of text (length text))] this'.
Proof.
  intros Hblank Hfuel. destruct fuel as [|fuel]; [lia|].
  destruct (runs_skipWhitespace fuel (new text) (coherent_new text))
    as ([] & this1 & Hskip & Hah1 & Hsp).
  { unfold remaining. simpl. lia. }
  pose proof Hah1 as (Ht1 & _ & Hco1). simpl in Ht1.
  assert (current this1 = None) as Hnone.
  { unfold current_is in Hsp. destruct (current this1) as [c|] eqn:Hc; [|done].
    unfold current in Hc. rewrite Ht1 in Hc.
    by rewrite (Forall_lookup_1 _ _ _ _ Hblank Hc) in Hsp. }
  pose proof (current_None_ge this1 Hco1 Hnone) as Hp1. rewrite Ht1 in Hp1.
  exists this1. unfold tokenize. cbn [tokenize_loop].
  assert (nextToken fuel (new text) =
            Return (Token.mk EOF VNull (line this1) (column this1)) this1)
    as Hnext.
  { unfold nextToken. rewrite (bind_Return _ _ _ _ _ Hskip), bind_get.
    by rewrite Hnone. }
  rewrite (bind_Return _ _ _ _ _ Hnext). cbn [Token.type].
  rewrite (bool_decide_true (EOF ≠ WHITESPACE)) by done.
  rewrite (bool_decide_false (EOF ≠ EOF)) by naive_solver.
  destruct Hco1 as [_ Heq]. rewrite Heq, Ht1, Hp1. done.
Qed.

Lemma tokenize_blank_text_witness :
  let text := js "  " ++ NEWLINE :: js " " in
  Forall (λ c, is_space c = true) text ∧
  length text < 5 ∧
  ∃ this', tokenize 5 (new text) = Return [Token.mk EOF VNull 2 2] this'.
Proof.
  intros text.
  assert (Forall (λ c, is_space c = true) text) as Hblank
    by (by repeat constructor).
  split; [exact Hblank|]. split; [vm_compute; lia|].
  apply (tokenize_blank_text text 5 Hblank). vm_compute. lia.
Defined.

(** **** Lexemes *)

(** A loop that takes characters as long as they pass [test] takes exactly
    the longest such prefix of what is left of the text. *)
Lemma runs_take_while_exact fuel test value this :
  coherent this → remaining this ≤ fuel →
  runs (while fuel (current_is test)
          (λ value, c ← gets current; advance;; mret (append value c)) value)
    this (λ value' this',
      value' = value ++ leading test (drop (position this) (text this)) ∧
      ahead this this' ∧
      position this' =
        position this + length (leading test (drop (position this) (text this)))).
Proof.
  intros Hco Hfuel.
  eapply runs_weaken.
  - apply (runs_while remaining (λ v s,
      ahead this s ∧
      v ++ leading test (drop (position s) (text this)) =
        value ++ leading test (drop (position this) (text this)) ∧
      position s + length (leading test (drop (position s) (text this))) =
        position this + length (leading test (drop (position this) (text this)))));
      [by split; [apply ahead_refl|]|done|].
    intros v s (Hah & Hv & Hp) (c & Hc & Htest)%current_is_Some.
    pose proof Hah as (Ht & _ & Hco').
    eapply runs_weaken; [by apply runs_take_char|]. cbv beta.
    intros v' s' (-> & Hah' & Hp').
    pose proof (drop_current s) as Hd. rewrite Hc, Ht in Hd.
    rewrite Hd in Hv, Hp. simpl in Hv, Hp. rewrite Htest in Hv, Hp.
    rewrite Hp'. split.
    + split; [by eapply ahead_trans|]. rewrite <-(assoc_L (++)).
      split; [done|]. simpl in Hp. lia.
    + destruct Hah' as (Ht' & _ & [Hle' _]). unfold remaining.
      rewrite Ht' in *. lia.
  - cbv beta. intros v s [(Hah & Hv & Hp) Hcond].
    pose proof Hah as (Ht & _ & _).
    pose proof (drop_current s) as Hd. rewrite Ht in Hd.
    assert (leading test (drop (position s) (text this)) = []) as Hnil.
    { rewrite Hd. unfold current_is in Hcond.
      destruct (current s); [simpl; by rewrite Hcond|done]. }
    rewrite Hnil in Hv, Hp. rewrite app_nil_r in Hv. simpl in Hp.
    split_and!; [done..|lia].
Qed.

Lemma in_range_forallb lo hi (P : N → bool) c :
  forallb P ((λ n, (chr lo + N.of_nat n)%N) <$>
               seq 0 (S (N.to_nat (chr hi - chr lo)))) = true →
  in_range lo hi c = true → P c = true.
Proof.
  intros Hall [Hlo Hhi]%andb_true_iff.
  apply N.leb_le in Hlo, Hhi.
  rewrite forallb_forall in Hall. apply Hall.
  apply list_elem_of_In.
  apply (list_elem_of_fmap_2' _ _ (N.to_nat (c - chr lo))); [|lia].
  apply list_elem_of_In, in_seq. lia.
Qed.

Lemma one_of_forallb members (P : N → bool) c :
  forallb P (js members) = true → one_of members c = true → P c = true.
Proof.
  intros Hall Hc%bool_decide_eq_true.
  rewrite forallb_forall in Hall. by apply Hall, list_elem_of_In.
Qed.

(** Proves [P c = true] for a character of a class, by running [P] on every
    member of the class. *)
Ltac by_class H P :=
  unfold is_digit, is_number_char, is_ident_start, is_ident_char,
    is_punctuation, is_operator in H;
  repeat match type of H with
         | (_ || _ = true) => apply orb_true_iff in H as [H|H]
         end;
  first [ apply (in_range_forallb _ _ P _) in H; [exact H|vm_compute; reflexivity]
        | apply (one_of_forallb _ P _) in H; [exact H|vm_compute; reflexivity] ].

Lemma digit_plain c :
  is_digit c = true →
  negb (is_space c) && negb (bool_decide (c = chr "/")) &&
  negb (bool_decide (c = DQUOTE ∨ c = SQUOTE)) = true.
Proof.
  intros H.
  by_class H (λ c, negb (is_space c) && negb (bool_decide (c = chr "/")) &&
                   negb (bool_decide (c = DQUOTE ∨ c = SQUOTE))).
Qed.

Lemma ident_start_plain c :
  is_ident_start c = true →
  negb (is_space c) && negb (bool_decide (c = chr "/")) &&
  negb (bool_decide (c = DQUOTE ∨ c = SQUOTE)) && negb (is_digit c) = true.
Proof.
  intros H.
  by_class H (λ c, negb (is_space c) && negb (bool_decide (c = chr "/")) &&
                   negb (bool_decide (c = DQUOTE ∨ c = SQUOTE)) &&
                   negb (is_digit c)).
Qed.

Lemma nextToken_significant fuel this c :
  current this = Some c → is_space c = false →
  nextToken fuel this =
    (λ this,
       match current this with
       | None => mret (Token.mk EOF VNull (line this) (column this))
       | Some char =>
           let line := line this in
           let column := column this in
           if bool_decide (char = chr "/") &&
              bool_decide (peek this = Some (chr "/") ∨ peek this = Some (chr "*"))
           then
             value ← readComment fuel;
             mret (Token.mk COMMENT (VStr value) line column)
           else if bool_decide (char = DQUOTE ∨ char = SQUOTE) then
             value ← readString fuel;
             mret (Token.mk STRING (VStr value) line column)
           else if is_digit char then
             value ← readNumber fuel;
             mret (Token.mk NUMBER value line column)
           else if is_ident_start char then
             value ← readIdentifier fuel;
             let type := if bool_decide (value ∈ KEYWORDS) then KEYWORD
                         else IDENTIFIER in
             mret (Token.mk type (VStr value) line column)
           else if is_punctuation char then
             advance;;
             mret (Token.mk PUNCTUATION (VStr [char]) line column)
           else if is_operator char then
             advance;;
             mret (Token.mk OPERATOR (VStr [char]) line column)
           else
             advance;;
             mret (Token.mk IDENTIFIER (VStr [char]) line column)
       end) this this.
Proof.
  intros Hc Hsp. unfold nextToken.
  assert (current_is is_space this = false) as Hskip
    by (unfold current_is; by rewrite Hc).
  by rewrite (bind_Return _ _ _ _ _ (skipWhitespace_done fuel this Hskip)).
Qed.

(** X5. On a digit, [nextToken] returns a NUMBER token whose lexeme is the
    digit followed by the longest run of digits and dots after it, however
    many dots that makes, and consumes exactly the lexeme. *)
Theorem number_token fuel this c rest :
  coherent this →
  drop (position this) (text this) = c :: rest →
  is_digit c = true →
  remaining this ≤ fuel →
  ∃ this',
    nextToken fuel this =
      Return (Token.mk NUMBER (VNum (c :: leading is_number_char rest))
                       (line this) (column this)) this' ∧
    position this' =
      position this + 1 + length (leading is_number_char rest).
Proof.
  intros Hco Hdrop Hdigit Hfuel.
  pose proof (digit_plain c Hdigit) as Hplain.
  apply andb_true_iff in Hplain as [Hplain Hquote].
  apply andb_true_iff in Hplain as [Hsp Hslash].
  apply negb_true_iff in Hsp, Hslash, Hquote.
  pose proof Hdrop as [Hc _]%current_of_drop.
  destruct (runs_take_while_exact fuel is_number_char [] this Hco Hfuel)
    as (value & this' & Hloop & -> & _ & Hp).
  rewrite Hdrop in Hp. simpl in Hp.
  assert (is_number_char c = true) as Hnum
    by (unfold is_number_char; by rewrite Hdigit).
  rewrite Hnum in Hp. simpl in Hp.
  exists this'. split; [|lia].
  rewrite (nextToken_significant fuel this c Hc Hsp). cbv beta. rewrite Hc.
  rewrite Hslash, andb_false_l, Hquote, Hdigit.
  assert (readNumber fuel this =
            Return (VNum (c :: leading is_number_char rest)) this') as Hread.
  { unfold readNumber. rewrite (bind_Return _ _ _ _ _ Hloop).
    rewrite Hdrop. simpl. by rewrite Hnum. }
  by rewrite (bind_Return _ _ _ _ _ Hread).
Qed.

Lemma number_token_witness :
  let this := new (js "1.2.3;") in
  coherent this ∧
  drop 0 (js "1.2.3;") = chr "1" :: js ".2.3;" ∧
  is_digit (chr "1") = true ∧
  remaining this ≤ 6 ∧
  ∃ this',
    nextToken 6 this = Return (Token.mk NUMBER (VNum (js "1.2.3")) 1 1) this' ∧
    position this' = 5.
Proof.
  intros this.
  split_and!; [apply coherent_new|done|done|vm_compute; lia|].
  apply (number_token 6 this (chr "1") (js ".2.3;"));
    [apply coherent_new|done|done|vm_compute; lia].
Defined.

(** X6. On a letter or an underscore, [nextToken] reads the longest run of
    letters, digits and underscores and returns it as one token, consumed
    exactly: a KEYWORD when the word is one of [KEYWORDS], an IDENTIFIER
    otherwise. *)
Theorem word_token fuel this c rest :
  coherent this →
  drop (position this) (text this) = c :: rest →
  is_ident_start c = true →
  remaining this ≤ fuel →
  let word := c :: leading is_ident_char rest in
  ∃ this',
    nextToken fuel this =
      Return (Token.mk (if bool_decide (word ∈ KEYWORDS) then KEYWORD
                        else IDENTIFIER)
                       (VStr word) (line this) (column this)) this' ∧
    position this' = position this + length word.
Proof.
  intros Hco Hdrop Hstart Hfuel word.
  pose proof (ident_start_plain c Hstart) as Hplain.
  apply andb_true_iff in Hplain as [Hplain Hdigit].
  apply andb_true_iff in Hplain as [Hplain Hquote].
  apply andb_true_iff in Hplain as [Hsp Hslash].
  apply negb_true_iff in Hsp, Hslash, Hquote, Hdigit.
  pose proof Hdrop as [Hc _]%current_of_drop.
  destruct (runs_take_while_exact fuel is_ident_char [] this Hco Hfuel)
    as (value & this' & Hloop & -> & _ & Hp).
  rewrite Hdrop in Hp, Hloop. simpl in Hp, Hloop.
  rewrite (is_ident_start_char c Hstart) in Hp, Hloop.
  exists this'. split; [|exact Hp].
  rewrite (nextToken_significant fuel this c Hc Hsp). cbv beta. rewrite Hc.
  rewrite Hslash, andb_false_l, Hquote, Hdigit, Hstart.
  unfold readIdentifier. by rewrite (bind_Return _ _ _ _ _ Hloop).
Qed.

Lemma word_token_witness :
  let this := new (js "part_1 x") in
  coherent this ∧
  drop 0 (js "part_1 x") = chr "p" :: js "art_1 x" ∧
  is_ident_start (chr "p") = true ∧
  remaining this ≤ 8 ∧
  ∃ this',
    nextToken 8 this =
      Return (Token.mk IDENTIFIER (VStr (js "part_1")) 1 1) this' ∧
    position this' = 6.
Proof.
  intros this.
  split_and!; [apply coherent_new|done|done|vm_compute; lia|].
  apply (word_token 8 this (chr "p") (js "art_1 x"));
    [apply coherent_new|done|done|vm_compute; lia].
Defined.

(** **** Comments *)

Lemma peek_of_drop this c1 c2 rest :
  drop (position this) (text this) = c1 :: c2 :: rest →
  current this = Some c1 ∧ peek this = Some c2.
Proof.
  intros Hdrop. pose proof Hdrop as [Hc Hrest]%current_of_drop.
  split; [done|]. unfold peek. rewrite Nat.add_1_r.
  apply (f_equal head) in Hrest.
  by rewrite head_lookup, lookup_drop, Nat.add_0_r in Hrest.
Qed.

(** X3. On two slashes, [nextToken] returns a COMMENT token whose value is
    the two slashes and everything after them up to the end of the line;
    the newline is not part of the value and is not consumed. *)
Theorem line_comment_token fuel this rest :
  coherent this →
  drop (position this) (text this) = chr "/" :: chr "/" :: rest →
  remaining this ≤ fuel →
  let body := leading (λ c, bool_decide (c ≠ NEWLINE)) rest in
  ∃ this',
    nextToken fuel this =
      Return (Token.mk COMMENT (VStr (chr "/" :: chr "/" :: body))
                       (line this) (column this)) this' ∧
    position this' = position this + 2 + length body ∧
    (current this' = None ∨ current this' = Some NEWLINE).
Proof.
  intros Hco Hdrop Hfuel body.
  pose proof Hdrop as [Hc Hpeek]%peek_of_drop.
  set (test := λ c : N, bool_decide (c ≠ NEWLINE)).
  destruct (runs_take_while_exact fuel test [] this Hco Hfuel)
    as (value & this' & Hloop & -> & Hah & Hp).
  destruct (runs_take_while fuel test [] this Hco Hfuel)
    as (value2 & this2 & Hloop2 & _ & Hstop).
  rewrite Hloop in Hloop2. injection Hloop2 as _ <-.
  rewrite Hdrop in Hp, Hloop. simpl in Hp, Hloop.
  exists this'. split_and!.
  - rewrite (nextToken_significant fuel this _ Hc) by done.
    cbv beta. rewrite Hc, Hpeek.
    rewrite (bool_decide_true (chr "/" = chr "/")) by done.
    rewrite bool_decide_true by (by left). rewrite andb_true_l.
    assert (readComment fuel this =
              Return (chr "/" :: chr "/" :: body) this') as Hread.
    { unfold readComment. rewrite bind_get, Hc, Hpeek.
      by rewrite bool_decide_true. }
    by rewrite (bind_Return _ _ _ _ _ Hread).
  - subst body test. lia.
  - unfold current_is in Hstop. destruct (current this') as [c|]; [|by left].
    right. apply bool_decide_eq_false in Hstop.
    destruct (decide (c = NEWLINE)) as [->|]; [done|]. by destruct Hstop.
Qed.

Lemma line_comment_token_witness :
  let text := js "// a*/" ++ NEWLINE :: js "x" in
  coherent (new text) ∧
  drop 0 text = chr "/" :: chr "/" :: js " a*/" ++ NEWLINE :: js "x" ∧
  remaining (new text) ≤ 8 ∧
  ∃ this',
    nextToken 8 (new text) =
      Return (Token.mk COMMENT (VStr (js "// a*/")) 1 1) this' ∧
    position this' = 6 ∧
    (current this' = None ∨ current this' = Some NEWLINE).
Proof.
  intros text.
  split_and!; [apply coherent_new|done|vm_compute; lia|].
  apply (line_comment_token 8 (new text) (js " a*/" ++ NEWLINE :: js "x"));
    [apply coherent_new|done|vm_compute; lia].
Defined.

Lemma at_close_drop this :
  at_close (drop (position this) (text this)) =
  bool_decide (current this = Some (chr "*") ∧ peek this = Some (chr "/")).
Proof.
  unfold at_close, peek. apply bool_decide_ext.
  rewrite (drop_current this).
  destruct (current this) as [c|] eqn:Hc; simpl.
  - by rewrite head_lookup, lookup_drop, Nat.add_0_r, Nat.add_1_r.
  - split; by intros [? ?].
Qed.

(** The loop of [readComment] for a block comment stops on the closing
    delimiter or at the end of the text. *)
Lemma runs_block_comment_loop fuel value this :
  coherent this → remaining this ≤ fuel →
  runs (while fuel
          (λ this, bool_decide (is_Some (current this)) &&
                   negb (bool_decide (current this = Some (chr "*") ∧
                                      peek this = Some (chr "/"))))
          (λ value, c ← gets current; advance;; mret (append value c)) value)
    this (λ value' this',
      value' = value ++ upto_close (drop (position this) (text this)) ∧
      ahead this this' ∧
      position this' =
        position this + length (upto_close (drop (position this) (text this))) ∧
      at_close (drop (position this') (text this)) =
        is_closed (drop (position this) (text this))).
Proof.
  intros Hco Hfuel.
  eapply runs_weaken.
  - apply (runs_while remaining (λ v s,
      ahead this s ∧
      v ++ upto_close (drop (position s) (text this)) =
        value ++ upto_close (drop (position this) (text this)) ∧
      position s + length (upto_close (drop (position s) (text this))) =
        position this + length (upto_close (drop (position this) (text this))) ∧
      is_closed (drop (position s) (text this)) =
        is_closed (drop (position this) (text this))));
      [by split; [apply ahead_refl|]|done|].
    intros v s (Hah & Hv & Hp & Hcl) [Hsome Hopen]%andb_true_iff.
    apply bool_decide_eq_true in Hsome as [c Hc].
    apply negb_true_iff in Hopen.
    pose proof Hah as (Ht & _ & Hco').
    rewrite <-at_close_drop, Ht in Hopen.
    eapply runs_weaken; [by apply runs_take_char|]. cbv beta.
    intros v' s' (-> & Hah' & Hp').
    pose proof (drop_current s) as Hd. rewrite Hc, Ht in Hd.
    rewrite Hd in Hv, Hp, Hcl, Hopen. simpl in Hv, Hp, Hcl.
    rewrite Hopen in Hv, Hp, Hcl. simpl in Hp, Hcl.
    rewrite Hp'. split.
    + split; [by eapply ahead_trans|]. rewrite <-(assoc_L (++)).
      split; [done|]. split; [lia|done].
    + destruct Hah' as (Ht' & _ & [Hle' _]). unfold remaining.
      rewrite Ht' in *. lia.
  - cbv beta. intros v s [(Hah & Hv & Hp & Hcl) Hcond].
    pose proof Hah as (Ht & _ & _).
    pose proof (at_close_drop s) as Hat. rewrite Ht in Hat.
    pose proof (drop_current s) as Hd. rewrite Ht in Hd.
    assert (upto_close (drop (position s) (text this)) = [] ∧
            is_closed (drop (position s) (text this)) =
              at_close (drop (position s) (text this))) as [Hnil Hsame].
    { destruct (current s) as [c|] eqn:Hc.
      - rewrite bool_decide_true in Hcond by eauto.
        rewrite andb_true_l in Hcond. apply negb_false_iff in Hcond.
        rewrite <-Hat in Hcond. rewrite Hd in *. simpl.
        by rewrite Hcond.
      - by rewrite Hd. }
    rewrite Hnil in Hv, Hp. rewrite app_nil_r in Hv. simpl in Hp.
    split_and!; [done|done|lia|congruence].
Qed.

(** X4. On a slash and a star, [nextToken] returns a COMMENT token whose
    value is what stands between the opening delimiter and the first
    closing delimiter after it, both consumed and neither in the value.
    Without a closing delimiter the comment runs to the end of the text and
    is returned all the same. *)
Theorem block_comment_token fuel this rest :
  coherent this →
  drop (position this) (text this) = chr "/" :: chr "*" :: rest →
  remaining this ≤ fuel →
  ∃ this',
    nextToken fuel this =
      Return (Token.mk COMMENT (VStr (upto_close rest))
                       (line this) (column this)) this' ∧
    position this' =
      position this + 2 + length (upto_close rest) +
      (if is_closed rest then 2 else 0).
Proof.
  intros Hco Hdrop Hfuel.
  pose proof Hdrop as [Hc Hpeek]%peek_of_drop.
  pose proof Hdrop as [_ Hdrop1]%current_of_drop.
  destruct (runs_advance this _ Hco Hc) as ([] & this1 & Hadv1 & Hah1 & Hp1).
  pose proof Hah1 as (Ht1 & _ & Hco1).
  assert (drop (position this1) (text this1) = chr "*" :: rest) as Hd1
    by (by rewrite Ht1, Hp1).
  pose proof Hd1 as [Hc1 Hdrop2]%current_of_drop.
  destruct (runs_advance this1 _ Hco1 Hc1) as ([] & this2 & Hadv2 & Hah2 & Hp2).
  pose proof Hah2 as (Ht2 & _ & Hco2).
  assert (drop (position this2) (text this2) = rest) as Hd2
    by (by rewrite Ht2, Hp2).
  assert (remaining this2 ≤ fuel) as Hfuel2.
  { apply ahead_remaining in Hah1, Hah2. lia. }
  destruct (runs_block_comment_loop fuel [] this2 Hco2 Hfuel2)
    as (value & this3 & Hloop & -> & Hah3 & Hp3 & Hclose).
  rewrite Hd2 in Hp3, Hclose, Hloop. simpl in Hloop.
  pose proof Hah3 as (Ht3 & _ & Hco3).
  rewrite <-Ht3, at_close_drop in Hclose.
  assert (∃ this', readComment fuel this = Return (upto_close rest) this' ∧
            position this' =
              position this3 + (if is_closed rest then 2 else 0))
    as (this' & Hread & Hp').
  { unfold readComment. rewrite bind_get, Hc, Hpeek.
    rewrite bool_decide_false by (by intros [_ [=]]).
    rewrite bool_decide_true by done.
    rewrite (bind_Return _ _ _ _ _ Hadv1), (bind_Return _ _ _ _ _ Hadv2).
    rewrite (bind_Return _ _ _ _ _ Hloop), bind_gets.
    destruct (is_closed rest).
    - apply bool_decide_eq_true in Hclose as [Hstar Hslash].
      rewrite Hstar, bool_decide_true by done.
      destruct (runs_advance this3 _ Hco3 Hstar)
        as ([] & this4 & Hadv4 & Hah4 & Hp4).
      pose proof Hah4 as (_ & _ & Hco4).
      pose proof (peek_is_next _ _ Hah4 Hp4) as Hc4. rewrite Hslash in Hc4.
      destruct (runs_advance this4 _ Hco4 Hc4)
        as ([] & this5 & Hadv5 & Hah5 & Hp5).
      exists this5. split; [|lia].
      assert ((advance;; advance) this3 = Return () this5) as Htwo
        by (by rewrite (bind_Return _ _ _ _ _ Hadv4)).
      by rewrite (bind_Return _ _ _ _ _ Htwo).
    - apply bool_decide_eq_false in Hclose.
      exists this3. split; [|lia].
      destruct (decide (current this3 = Some (chr "*"))) as [Hstar|Hstar].
      + exfalso.
        (* the loop stopped on a star: the slash follows *)
        destruct (runs_scan fuel
          (λ this, bool_decide (is_Some (current this)) &&
                   negb (bool_decide (current this = Some (chr "*") ∧
                                      peek this = Some (chr "/"))))
          (λ value, c ← gets current; advance;; mret (append value c))
          [] this2) as (v & s & Hscan & _ & Hstop); [|done|done|].
        { intros v s Hs [Hsome _]%andb_true_iff.
          apply bool_decide_eq_true in Hsome as [c Hcs].
          eapply runs_weaken; [by apply runs_take_char|]. cbv beta.
          intros _ s' (_ & ? & ?). split; [done|lia]. }
        rewrite Hloop in Hscan. injection Hscan as _ <-.
        rewrite Hstar, bool_decide_true in Hstop by eauto.
        rewrite andb_true_l in Hstop.
        apply negb_false_iff, bool_decide_eq_true in Hstop.
        destruct Hstop as [_ Hslash]. by destruct Hclose.
      + by rewrite bool_decide_false by done. }
  exists this'. split; [|lia].
  rewrite (nextToken_significant fuel this _ Hc) by done.
  cbv beta. rewrite Hc, Hpeek.
  rewrite (bool_decide_true (chr "/" = chr "/")) by done.
  rewrite bool_decide_true by (by right). rewrite andb_true_l.
  by rewrite (bind_Return _ _ _ _ _ Hread).
Qed.

Lemma block_comment_token_witness :
  let text := js "/*/ a */ b" in
  coherent (new text) ∧
  drop 0 text = chr "/" :: chr "*" :: js "/ a */ b" ∧
  remaining (new text) ≤ 10 ∧
  ∃ this',
    nextToken 10 (new text) =
      Return (Token.mk COMMENT (VStr (js "/ a ")) 1 1) this' ∧
    position this' = 8.
Proof.
  intros text.
  split_and!; [apply coherent_new|done|vm_compute; lia|].
  apply (block_comment_token 10 (new text) (js "/ a */ b"));
    [apply coherent_new|done|vm_compute; lia].
Defined.

(** **** One-character tokens *)

Lemma punctuation_plain c :
  is_punctuation c = true →
  negb (is_space c) && negb (bool_decide (c = chr "/")) &&
  negb (bool_decide (c = DQUOTE ∨ c = SQUOTE)) && negb (is_digit c) &&
  negb (is_ident_start c) = true.
Proof.
  intros H.
  by_class H (λ c, negb (is_space c) && negb (bool_decide (c = chr "/")) &&
                   negb (bool_decide (c = DQUOTE ∨ c = SQUOTE)) &&
                   negb (is_digit c) && negb (is_ident_start c)).
Qed.

Lemma operator_plain c :
  is_operator c = true →
  negb (is_space c) &&
  negb (bool_decide (c = DQUOTE ∨ c = SQUOTE)) && negb (is_digit c) &&
  negb (is_ident_start c) && negb (is_punctuation c) = true.
Proof.
  intros H.
  by_class H (λ c, negb (is_space c) &&
                   negb (bool_decide (c = DQUOTE ∨ c = SQUOTE)) &&
                   negb (is_digit c) && negb (is_ident_start c) &&
                   negb (is_punctuation c)).
Qed.

(** X7. One of the characters [{ } ( ) ; : , .] is read as a PUNCTUATION
    token, and one of [= < > ! + - * /] as an OPERATOR token unless it is a
    slash that opens a comment; the token holds that character alone and
    only that character is consumed.  The classes do not overlap with the
    ones tested before them. *)
Theorem single_character_token fuel this c :
  coherent this →
  current this = Some c →
  (is_punctuation c = true ∨
   is_operator c = true ∧
   ¬ (c = chr "/" ∧ (peek this = Some (chr "/") ∨ peek this = Some (chr "*")))) →
  ∃ this',
    nextToken fuel this =
      Return (Token.mk (if is_punctuation c then PUNCTUATION else OPERATOR)
                       (VStr [c]) (line this) (column this)) this' ∧
    position this' = position this + 1.
Proof.
  intros Hco Hc Hclass.
  destruct (runs_advance this c Hco Hc) as ([] & this' & Hadv & _ & Hp).
  exists this'. split; [|lia].
  destruct Hclass as [Hpunct|[Hop Hcomment]].
  - pose proof (punctuation_plain c Hpunct) as Hplain.
    repeat (apply andb_true_iff in Hplain as [Hplain ?]).
    repeat match goal with H : negb _ = true |- _ =>
             apply negb_true_iff in H end.
    rewrite (nextToken_significant fuel this c Hc) by done.
    cbv beta. rewrite Hc.
    repeat match goal with H : _ = false |- _ => rewrite H end.
    rewrite andb_false_l, Hpunct.
    by rewrite (bind_Return _ _ _ _ _ Hadv).
  - pose proof (operator_plain c Hop) as Hplain.
    repeat (apply andb_true_iff in Hplain as [Hplain ?]).
    repeat match goal with H : negb _ = true |- _ =>
             apply negb_true_iff in H end.
    rewrite (nextToken_significant fuel this c Hc) by done.
    cbv beta. rewrite Hc.
    assert (bool_decide (c = chr "/") &&
            bool_decide (peek this = Some (chr "/") ∨
                         peek this = Some (chr "*")) = false) as ->.
    { apply andb_false_iff.
      destruct (decide (c = chr "/")) as [Hslash|Hslash].
      - right. apply bool_decide_eq_false. tauto.
      - left. by apply bool_decide_eq_false. }
    repeat match goal with H : _ = false |- _ => rewrite H end.
    rewrite Hop.
    by rewrite (bind_Return _ _ _ _ _ Hadv).
Qed.

Lemma single_character_token_witness :
  let this := new (js "/ 2") in
  coherent this ∧
  current this = Some (chr "/") ∧
  is_operator (chr "/") = true ∧
  ¬ (chr "/" = chr "/" ∧
     (peek this = Some (chr "/") ∨ peek this = Some (chr "*"))) ∧
  ∃ this',
    nextToken 0 this = Return (Token.mk OPERATOR (VStr (js "/")) 1 1) this' ∧
    position this' = 1.
Proof.
  intros this.
  assert (¬ (chr "/" = chr "/" ∧
             (peek this = Some (chr "/") ∨ peek this = Some (chr "*"))))
    as Hlone by (by intros [_ [|]]).
  split_and!; [apply coherent_new|done|done|exact Hlone|].
  apply (single_character_token 0 this (chr "/"));
    [apply coherent_new|done|right; by split].
Defined.

(** **** The payload of tokens *)

Lemma bind_Return_inv {S A B} (m : M S A) (k : A → M S B) s b s' :
  (m ≫= k) s = Return b s' →
  ∃ a s1, m s = Return a s1 ∧ k a s1 = Return b s'.
Proof.
  unfold mbind, M_bind. destruct (m s) as [a s1| |]; [eauto|done..].
Qed.

Lemma keyword_long word : word ∈ KEYWORDS → 3 ≤ length word.
Proof.
  unfold KEYWORDS. rewrite elem_of_list_to_set.
  intros (w & -> & Hw)%list_elem_of_fmap.
  repeat (apply elem_of_cons in Hw as [->|Hw]; [vm_compute; lia|]).
  by apply elem_of_nil in Hw.
Qed.

Lemma nextToken_well_typed fuel this token this' :
  nextToken fuel this = Return token this' → well_typed token.
Proof.
  unfold nextToken.
  intros ([] & this1 & _ & Hrest)%bind_Return_inv.
  rewrite bind_get in Hrest.
  destruct (current this1) as [char|]; [|by injection Hrest as <- _].
  destruct (_ && _).
  { apply bind_Return_inv in Hrest as (value & ? & _ & [= <- _]).
    by exists value. }
  destruct (bool_decide _).
  { apply bind_Return_inv in Hrest as (value & ? & _ & [= <- _]).
    by exists value. }
  destruct (is_digit char).
  { apply bind_Return_inv in Hrest as (value & ? & Hread & [= <- _]).
    unfold readNumber in Hread.
    apply bind_Return_inv in Hread as (lexeme & ? & _ & [= <- _]).
    by exists lexeme. }
  destruct (is_ident_start char) eqn:Hstart.
  { apply bind_Return_inv in Hrest as (value & ? & _ & [= <- _]).
    unfold well_typed. cbn [Token.type Token.value].
    destruct (decide (value ∈ KEYWORDS)) as [Hin|Hout].
    - rewrite bool_decide_true by exact Hin. exists value. by split.
    - rewrite bool_decide_false by exact Hout. exists value. by split. }
  destruct (is_punctuation char).
  { apply bind_Return_inv in Hrest as ([] & ? & _ & [= <- _]). by eexists. }
  destruct (is_operator char).
  { apply bind_Return_inv in Hrest as ([] & ? & _ & [= <- _]). by eexists. }
  apply bind_Return_inv in Hrest as ([] & ? & _ & [= <- _]).
  exists [char]. split; [done|]. intros Hkw%keyword_long. simpl in Hkw. lia.
Qed.

Lemma tokenize_loop_well_typed fuel tokens this tokens' this' :
  tokenize_loop fuel tokens this = Return tokens' this' →
  Forall well_typed tokens → Forall well_typed tokens'.
Proof.
  revert tokens this.
  induction fuel as [|fuel IH]; intros tokens this; [done|].
  cbn [tokenize_loop].
  intros (token & this1 & Hnext & Hrest)%bind_Return_inv Htokens.
  apply nextToken_well_typed in Hnext.
  assert (Token.type token ≠ WHITESPACE) as Hws.
  { intros Heq. unfold well_typed in Hnext. by rewrite Heq in Hnext. }
  rewrite (bool_decide_true (Token.type token ≠ WHITESPACE)) in Hrest by done.
  assert (Forall well_typed (tokens ++ [token])) as Hmore.
  { apply Forall_app. split; [done|]. by constructor. }
  destruct (bool_decide (Token.type token ≠ EOF)).
  - by apply (IH _ _ Hrest).
  - by injection Hrest as <- _.
Qed.

(** X8. In the sequence [tokenize] returns, a NUMBER token carries a
    number, the EOF token [null] and every other token a string; the word
    of a KEYWORD token is one of [KEYWORDS], that of an IDENTIFIER token is
    not; no token has the type WHITESPACE. *)
Theorem tokens_well_typed (text : jsstring) (fuel : nat) :
  length text < fuel →
  ∃ tokens this',
    tokenize fuel (new text) = Return tokens this' ∧
    Forall well_typed tokens.
Proof.
  intros Hfuel.
  destruct (runs_tokenize_loop fuel [] (new text) (coherent_new text))
    as (tokens & this' & Hrun & _).
  { unfold remaining. simpl. lia. }
  exists tokens, this'. split; [done|].
  by apply (tokenize_loop_well_typed _ _ _ _ _ Hrun).
Qed.

Lemma tokens_well_typed_witness :
  length (js "use # 1.5") < 10 ∧
  ∃ tokens this',
    tokenize 10 (new (js "use # 1.5")) = Return tokens this' ∧
    Forall well_typed tokens.
Proof.
  split; [vm_compute; lia|].
  apply (tokens_well_typed (js "use # 1.5") 10). vm_compute. lia.
Defined.

Lemma tokens_of_well_typed text : Forall well_typed (tokens_of text).
Proof.
  unfold tokens_of, tokenize.
  destruct (tokenize_loop _ _ _) as [tokens this'| |] eqn:Hrun; [|done..].
  by apply (tokenize_loop_well_typed _ _ _ _ _ Hrun).
Qed.

End Lexing.

(** ** The parser *)

Module Parsing.
Import SysMLParser.

Lemma body_extends fuel fuel' pe pe' node :
  fuel ≤ fuel' → extends pe pe' →
  extends (body fuel pe node) (body fuel' pe' node).
Proof. intros. unfold body. repeat extends_step. Qed.

Lemma block_extends fuel fuel' pe pe' node :
  fuel ≤ fuel' → extends pe pe' →
  extends (block fuel pe node) (block fuel' pe' node).
Proof.
  intros. unfold block. apply extends_bind; [apply extends_refl|intros _].
  apply extends_bind; [by apply body_extends|intros ?]. apply extends_refl.
Qed.

Lemma parsePackage_extends fuel fuel' pe pe' :
  fuel ≤ fuel' → extends pe pe' →
  extends (parsePackage fuel pe) (parsePackage fuel' pe').
Proof.
  intros. unfold parsePackage.
  do 3 (apply extends_bind; [apply extends_refl|intros ?]).
  destruct (value_is _ _); [by apply block_extends|apply extends_refl].
Qed.

Lemma parsePart_extends fuel fuel' pe pe' :
  fuel ≤ fuel' → extends pe pe' →
  extends (parsePart fuel pe) (parsePart fuel' pe').
Proof.
  intros. unfold parsePart.
  do 5 (apply extends_bind; [apply extends_refl|intros ?]).
  destruct (value_is _ _); [by apply block_extends|apply extends_refl].
Qed.

Lemma parseRequirement_extends fuel fuel' pe pe' :
  fuel ≤ fuel' → extends pe pe' →
  extends (parseRequirement fuel pe) (parseRequirement fuel' pe').
Proof.
  intros. unfold parseRequirement.
  do 3 (apply extends_bind; [apply extends_refl|intros ?]).
  destruct (value_is _ _); [by apply block_extends|apply extends_refl].
Qed.

Lemma parseUseCase_extends fuel fuel' pe pe' :
  fuel ≤ fuel' → extends pe pe' →
  extends (parseUseCase fuel pe) (parseUseCase fuel' pe').
Proof.
  intros. unfold parseUseCase.
  do 4 (apply extends_bind; [apply extends_refl|intros ?]).
  destruct (value_is _ _); [by apply block_extends|apply extends_refl].
Qed.

Lemma parseGenericElement_extends fuel fuel' :
  fuel ≤ fuel' →
  extends (parseGenericElement fuel) (parseGenericElement fuel').
Proof.
  intros. unfold parseGenericElement.
  apply extends_bind; [apply extends_refl|intros this].
  destruct (current this); [|apply extends_refl].
  apply extends_bind; [apply extends_refl|intros ?].
  apply extends_bind; [|intros ?; apply extends_refl].
  apply extends_while; [done|intros ?; apply extends_refl].
Qed.

(** What [parseElement] returns or throws with some fuel, it returns or
    throws with any larger amount. *)
Lemma parseElement_extends fuel fuel' :
  fuel ≤ fuel' → extends (parseElement fuel) (parseElement fuel').
Proof.
  revert fuel'. induction fuel as [|fuel IH]; intros fuel' Hle; [by intros s|].
  destruct fuel' as [|fuel']; [lia|].
  assert (fuel ≤ fuel') as Hle' by lia. specialize (IH fuel' Hle').
  cbn [parseElement].
  apply extends_bind; [apply extends_refl|intros this].
  destruct (current this) as [token|]; [|apply extends_refl].
  destruct (bool_decide (Token.type token = EOF)); [apply extends_refl|].
  pose proof (parseGenericElement_extends fuel fuel' Hle').
  destruct (bool_decide (Token.type token = KEYWORD)); [|done].
  unfold dedicated.
  repeat (case_bool_decide;
    [apply extends_bind; [|intros ?; apply extends_refl];
     first [ by apply parsePackage_extends | by apply parsePart_extends
           | by apply parseRequirement_extends | by apply parseUseCase_extends
           | apply extends_refl ]|]).
  done.
Qed.

(** *** The cursor only moves forward *)

Lemma steady_ret {A} (a : A) : steady (mret a).
Proof. intros this. simpl. by split_and!. Qed.

Lemma steady_get : steady get.
Proof. intros this. simpl. by split_and!. Qed.

Lemma steady_throw {A} e : steady (throw (A := A) e).
Proof. intros this. simpl. by split_and!. Qed.

Lemma steady_advance : steady advance.
Proof. intros this. simpl. split_and!; [done..|lia]. Qed.

Lemma steady_bind {A B} (m : M t A) (k : A → M t B) :
  steady m → (∀ a, steady (k a)) → steady (m ≫= k).
Proof.
  intros Hm Hk this. specialize (Hm this). unfold mbind, M_bind.
  destruct (m this) as [a this1|e this1|]; [|done..].
  specialize (Hk a this1). destruct (k a this1); [| |done];
    (destruct Hm as (? & ? & ?), Hk as (? & ? & ?);
     split_and!; [congruence..|lia]).
Qed.

Lemma steady_while {A} fuel cond (body : A → M t A) a :
  (∀ a, steady (body a)) → steady (while fuel cond body a).
Proof.
  intros Hbody. revert a.
  induction fuel as [|fuel IH]; intros a this; simpl.
  - destruct (cond this); [done|by split_and!].
  - destruct (cond this); [|by split_and!].
    specialize (Hbody a this).
    destruct (body a this) as [a' this1|e this1|]; [|done..].
    specialize (IH a' this1).
    destruct (while fuel cond body a' this1); [| |done];
      (destruct Hbody as (? & ? & ?), IH as (? & ? & ?);
       split_and!; [congruence..|lia]).
Qed.

(** Takes a method apart along binds, loops and case distinctions. *)
Ltac steady :=
  repeat first
    [ assumption
    | apply steady_ret | apply steady_get | apply steady_throw
    | apply steady_advance
    | apply steady_bind; [|intros ?]
    | apply steady_while; intros ?
    | match goal with
      | |- steady (if ?b then _ else _) => destruct b
      | |- steady (match ?x with _ => _ end) => destruct x
      end ].

Lemma steady_expect type value : steady (expect type value).
Proof. unfold expect. steady. Qed.

Lemma steady_capture test key node : steady (capture test key node).
Proof. unfold capture. steady. Qed.

Lemma steady_skip text : steady (skip text).
Proof. unfold skip. steady. Qed.

Lemma steady_block fuel pe node : steady pe → steady (block fuel pe node).
Proof.
  intros. unfold block, body. pose proof steady_expect. steady.
Qed.

Lemma steady_parseGenericElement fuel : steady (parseGenericElement fuel).
Proof.
  unfold parseGenericElement.
  pose proof steady_capture. pose proof steady_skip. steady.
Qed.

Lemma steady_dedicated fuel pe keyword rule :
  steady pe → dedicated fuel pe keyword = Some rule → steady rule.
Proof.
  intros Hpe. unfold dedicated.
  pose proof steady_expect. pose proof steady_capture. pose proof steady_skip.
  pose proof (λ node, steady_block fuel pe node Hpe).
  repeat (case_bool_decide; [intros [= <-]|]); [..|done].
  - unfold parsePackage. steady.
  - unfold parsePart. steady.
  - unfold parseAttribute. steady.
  - unfold parsePort. steady.
  - unfold parseConnection. steady.
  - unfold parseRequirement. steady.
  - unfold parseUseCase. steady.
Qed.

(** [parseElement] leaves the tokens and the root as they are, and the
    cursor where it was or further. *)
Lemma steady_parseElement fuel : steady (parseElement fuel).
Proof.
  induction fuel as [|fuel IH]; [done|]. cbn [parseElement].
  apply steady_bind; [apply steady_get|intros this].
  destruct (current this) as [token|]; [|apply steady_ret].
  destruct (bool_decide _); [apply steady_ret|].
  pose proof (steady_parseGenericElement fuel).
  destruct (bool_decide _); [|done].
  destruct (dedicated _ _ _) as [rule|] eqn:Hrule; [|done].
  apply steady_bind; [|intros ?; apply steady_ret].
  eapply steady_dedicated; [exact IH|exact Hrule].
Qed.

(** *** Recovery at the top level *)

(** [parseElement] gives a node or throws only on a token that is not the
    end marker: on a position the loop of [parse] does enter. *)
Lemma parseElement_more_elements fuel this :
  (∃ element this', parseElement fuel this = Return (Some element) this') ∨
  (∃ error this', parseElement fuel this = Throw error this') →
  more_elements this = true.
Proof.
  destruct fuel as [|fuel]; [by intros [(? & ? & ?)|(? & ? & ?)]|].
  cbn [parseElement]. rewrite bind_get. unfold more_elements.
  destruct (current this) as [token|];
    [|by intros [(? & ? & ?)|(? & ? & ?)]].
  destruct (decide (Token.type token = EOF)) as [Heof|Heof].
  - rewrite (bool_decide_true (Token.type token = EOF)) by done.
    by intros [(? & ? & ?)|(? & ? & ?)].
  - intros _. by apply bool_decide_eq_true.
Qed.

Lemma element_to_root_Return fuel this element this' :
  parseElement fuel this = Return (Some element) this' →
  element_to_root fuel this = Return () (add_to_root this' element).
Proof.
  intros H. unfold element_to_root. by rewrite (bind_Return _ _ _ _ _ H).
Qed.

Lemma element_to_root_Throw fuel this error this' :
  parseElement fuel this = Throw error this' →
  element_to_root fuel this = Throw error this'.
Proof.
  intros H. unfold element_to_root. by rewrite (bind_Throw _ _ _ _ _ H).
Qed.

Lemma siblings_root this elements this' :
  siblings this elements this' →
  tokens this' = tokens this ∧
  ast this' = ASTNode.mk (ASTNode.type (ast this))
                         (ASTNode.properties (ast this))
                         (ASTNode.children (ast this) ++ elements).
Proof.
  induction 1 as [this|this fuel element this1 elements this2 Hpe _ IH].
  - rewrite app_nil_r. by destruct (ast this).
  - pose proof (steady_parseElement fuel this) as Hst. rewrite Hpe in Hst.
    destruct Hst as (Ht & Ha & _), IH as (Ht' & Ha').
    split; [by rewrite Ht'|].
    rewrite Ha'. simpl. rewrite Ha. by rewrite <-(assoc_L (++)).
Qed.

(** Once the elements before the failing one are parsed and appended, the
    loop of [parse] stops on the exception, whatever fuel is left. *)
Lemma top_level_stops this elements this2 fuel error this' :
  siblings this elements this2 →
  parseElement fuel this2 = Throw error this' →
  ∃ fuel0, ∀ n fuel',
    fuel0 ≤ n → fuel0 ≤ fuel' →
    while n more_elements (λ _, element_to_root fuel') () this =
      Throw error this'.
Proof.
  intros Hsib Hthrow.
  induction Hsib as [this|this f element this1 elements this2 Hpe _ IH].
  - exists (S fuel). intros n fuel' Hn Hfuel'.
    destruct n as [|n]; [lia|]. simpl.
    rewrite (parseElement_more_elements fuel this) by eauto.
    assert (parseElement fuel' this = Throw error this') as Hthrow'.
    { rewrite (parseElement_extends fuel fuel'); [done|lia|by rewrite Hthrow]. }
    by rewrite (element_to_root_Throw _ _ _ _ Hthrow').
  - destruct (IH Hthrow) as [fuel1 Hrest].
    exists (S (fuel1 `max` f)). intros n fuel' Hn Hfuel'.
    destruct n as [|n]; [lia|]. simpl.
    rewrite (parseElement_more_elements f this) by eauto.
    assert (parseElement fuel' this = Return (Some element) this1) as Hpe'.
    { rewrite (parseElement_extends f fuel'); [done|lia|by rewrite Hpe]. }
    rewrite (element_to_root_Return _ _ _ _ Hpe').
    apply Hrest; lia.
Qed.

(** C1. Whenever [parseElement] throws after the elements [elements] have
    been parsed and appended to the root one after the other, [parse],
    given enough fuel, returns: it does not throw.  What it returns is the
    root with exactly [elements] as children, nothing of the element that
    failed, and the console holds the error. *)
Theorem parse_recovers (tokens : list Token) (elements : list ASTNode)
    (this : t) (fuel : nat) (error : Error) (this' : t) :
  siblings (new tokens) elements this →
  parseElement fuel this = Throw error this' →
  ∃ fuel0, ∀ fuel', fuel0 ≤ fuel' →
    parse fuel' (new tokens) =
      Return (ASTNode.mk "root" ∅ elements, [error]) this'.
Proof.
  intros Hsib Hthrow.
  destruct (top_level_stops _ _ _ _ _ _ Hsib Hthrow) as [fuel0 Hstop].
  exists fuel0. intros fuel' Hfuel'.
  unfold parse, top_level. rewrite (Hstop fuel' fuel') by done.
  pose proof (steady_parseElement fuel this) as Hst. rewrite Hthrow in Hst.
  destruct Hst as (_ & -> & _).
  by destruct (siblings_root _ _ _ Hsib) as [_ ->].
Qed.

Lemma parse_recovers_witness :
  let tokens := tokens_of (js "part A; package P { x") in
  let part := ASTNode.mk "part" {["name" := VStr (js "A")]} [] in
  ∃ this error this',
    siblings (new tokens) [part] this ∧
    parseElement 3 this = Throw error this' ∧
    ∃ fuel0, ∀ fuel', fuel0 ≤ fuel' →
      parse fuel' (new tokens) = Return (ASTNode.mk "root" ∅ [part], [error]) this'.
Proof.
  intros tokens part.
  set (this1 := mk tokens 3 (ASTNode.new "root")).
  assert (parseElement 2 (new tokens) = Return (Some part) this1) as Hpart
    by (vm_compute; reflexivity).
  assert (∃ error this', parseElement 3 (add_to_root this1 part) =
                           Throw error this')
    as (error & this' & Hthrow) by (do 2 eexists; vm_compute; reflexivity).
  assert (siblings (new tokens) [part] (add_to_root this1 part)) as Hsib.
  { eapply siblings_cons; [exact Hpart|apply siblings_nil]. }
  exists (add_to_root this1 part), error, this'.
  split; [exact Hsib|]. split; [exact Hthrow|].
  exact (parse_recovers tokens [part] (add_to_root this1 part) 3 error this'
           Hsib Hthrow).
Defined.

(** *** Fuel and the whole parse *)

Lemma element_to_root_extends fuel fuel' :
  fuel ≤ fuel' → extends (element_to_root fuel) (element_to_root fuel').
Proof.
  intros. unfold element_to_root.
  apply extends_bind; [by apply parseElement_extends|intros ?].
  apply extends_refl.
Qed.

Lemma parse_extends fuel fuel' :
  fuel ≤ fuel' → extends (parse fuel) (parse fuel').
Proof.
  intros Hle this Hthis. unfold parse, top_level in *.
  destruct (while fuel _ _ _ this) eqn:Hloop; [| |done];
    (erewrite (extends_while fuel fuel'); [by rewrite Hloop|lia| |congruence];
     intros ?; by apply element_to_root_extends).
Qed.

(** A run that is out of fuel for every large enough amount is out of fuel
    for every amount. *)
Lemma never_returns {S A} (m : nat → M S A) (s : S) (enough : nat) :
  (∀ fuel fuel', fuel ≤ fuel' → extends (m fuel) (m fuel')) →
  (∀ fuel, enough ≤ fuel → m fuel s = OutOfFuel) →
  ∀ fuel, m fuel s = OutOfFuel.
Proof.
  intros Hm Hlarge fuel.
  destruct (m fuel s) as [a s'|e s'|] eqn:Hrun; [| |done].
  - rewrite <-Hrun, <-(Hm fuel (fuel `max` enough)); [|lia|by rewrite Hrun].
    apply Hlarge. lia.
  - rewrite <-Hrun, <-(Hm fuel (fuel `max` enough)); [|lia|by rewrite Hrun].
    apply Hlarge. lia.
Qed.

(** *** A body that is never closed *)

(** At the EOF token [parseElement] returns [null] and leaves the cursor
    where it is. *)
Lemma parseElement_at_EOF fuel this token :
  current this = Some token → Token.type token = EOF →
  parseElement (S fuel) this = Return None this.
Proof.
  intros Hc Heof. cbn [parseElement]. rewrite bind_get, Hc.
  by rewrite bool_decide_true.
Qed.

(** The body loop tests for the closing brace and for the end of the token
    array, not for the EOF token: on that token every turn leaves the parser
    as it found it, and the loop runs until fuel is gone. *)
Lemma body_spins_at_EOF n fuel node this token :
  current this = Some token → Token.type token = EOF →
  Token.value token ≠ VStr (js "}") →
  body n (parseElement fuel) node this = OutOfFuel.
Proof.
  intros Hc Heof Hvalue. unfold body.
  induction n as [|n IH]; simpl; rewrite Hc, bool_decide_true by done; [done|].
  destruct fuel as [|fuel]; [done|].
  rewrite (bind_Return _ _ _ _ _ (parseElement_at_EOF fuel this token Hc Heof)).
  exact IH.
Qed.

Lemma parseElement_more_fuel fuel fuel' this :
  fuel ≤ fuel' → parseElement fuel this ≠ OutOfFuel →
  parseElement fuel' this = parseElement fuel this.
Proof. intros Hle Hne. by apply parseElement_extends. Qed.

Lemma while_OutOfFuel {S A} fuel cond (body : A → M S A) a s :
  cond s = true → body a s = OutOfFuel →
  while fuel cond body a s = OutOfFuel.
Proof. intros Hc Hb. destruct fuel; simpl; by rewrite Hc, ?Hb. Qed.

Lemma parseElement_package fuel this token :
  current this = Some token →
  Token.type token = KEYWORD →
  Token.value token = VStr (js "package") →
  parseElement (S fuel) this =
    (node ← parsePackage fuel (parseElement fuel); mret (Some node)) this.
Proof.
  intros Hc Htype Hvalue. cbn [parseElement]. rewrite bind_get, Hc.
  rewrite Htype, Hvalue. unfold dedicated.
  by rewrite (bool_decide_false (KEYWORD = EOF)),
    (bool_decide_true (KEYWORD = KEYWORD)),
    (bool_decide_true (VStr (js "package") = VStr (js "package"))).
Qed.

Lemma top_level_next n fuel this element this1 :
  parseElement fuel this = Return (Some element) this1 →
  while (S n) more_elements (λ _, element_to_root fuel) () this =
  while n more_elements (λ _, element_to_root fuel) () (add_to_root this1 element).
Proof.
  intros Hpe. apply while_step.
  - apply (parseElement_more_elements fuel). eauto.
  - by apply element_to_root_Return.
Qed.

Lemma body_next n pe node this token element this1 :
  current this = Some token → Token.value token ≠ VStr (js "}") →
  pe this = Return (Some element) this1 →
  body (S n) pe node this = body n pe (ASTNode.addChild node element) this1.
Proof.
  intros Hc Hvalue Hpe. unfold body. apply while_step.
  - by rewrite Hc, bool_decide_true.
  - by rewrite (bind_Return _ _ _ _ _ Hpe).
Qed.

(** C2. The token sequence of the text [package P {], which ends in EOF as
    the tokenizer makes it, is one on which [parse] does not terminate:
    whatever fuel it is given, it runs out of it.  The cursor reaches the
    EOF token inside the body of the package and stays there. *)
Theorem parse_unclosed_package_never_returns :
  ∀ fuel, parse fuel (new (tokens_of (js "package P {"))) = OutOfFuel.
Proof.
  intros fuel.
  set (tokens := tokens_of (js "package P {")).
  set (opened := mk tokens 3 (ASTNode.new "root")).
  set (package := ASTNode.set (ASTNode.new "package") "name" (VStr (js "P"))).
  assert (current (new tokens) =
            Some (Token.mk KEYWORD (VStr (js "package")) 1 1)) as Hfirst
    by (vm_compute; reflexivity).
  assert (current opened = Some (Token.mk EOF VNull 1 12)) as Hlast
    by (vm_compute; reflexivity).
  assert (∀ f pe, parsePackage f pe (new tokens) =
            (node ← body f pe package;
             expect PUNCTUATION "}";; mret node) opened) as Hpackage
    by (intros f pe; vm_compute; reflexivity).
  assert (∀ f, parseElement f (new tokens) = OutOfFuel) as Helement.
  { intros [|f]; [done|].
    rewrite (parseElement_package f _ _ Hfirst) by done.
    apply bind_OutOfFuel. rewrite Hpackage. apply bind_OutOfFuel.
    by apply (body_spins_at_EOF f f package opened _ Hlast). }
  unfold parse, top_level. rewrite while_OutOfFuel; [done| |].
  - unfold more_elements. by rewrite Hfirst.
  - unfold element_to_root. by apply bind_OutOfFuel.
Qed.

(** C3. The text [part A; package P { attribute x;] opens a brace that it
    never closes, with an element fully parsed before it.  [parse] does not
    return on its token sequence, whatever fuel it is given: no
    [expect] fails, nothing is thrown and no tree comes back.  After
    [attribute x;] the cursor is on the EOF token, where the body loop of
    the package goes round for ever. *)
Theorem parse_unclosed_after_sibling_never_returns :
  ∀ fuel,
    parse fuel (new (tokens_of (js "part A; package P { attribute x;"))) =
      OutOfFuel.
Proof.
  intros fuel.
  set (tokens := tokens_of (js "part A; package P { attribute x;")).
  set (part := ASTNode.set (ASTNode.new "part") "name" (VStr (js "A"))).
  set (package := ASTNode.set (ASTNode.new "package") "name" (VStr (js "P"))).
  set (attribute := ASTNode.set (ASTNode.new "attribute") "name" (VStr (js "x"))).
  set (root := ASTNode.addChild (ASTNode.new "root") part).
  assert (current (new tokens) =
            Some (Token.mk KEYWORD (VStr (js "part")) 1 1)) as H0
    by (vm_compute; reflexivity).
  assert (current (mk tokens 3 root) =
            Some (Token.mk KEYWORD (VStr (js "package")) 1 9)) as H3
    by (vm_compute; reflexivity).
  assert (current (mk tokens 6 root) =
            Some (Token.mk KEYWORD (VStr (js "attribute")) 1 21)) as H6
    by (vm_compute; reflexivity).
  assert (current (mk tokens 9 root) = Some (Token.mk EOF VNull 1 33)) as H9
    by (vm_compute; reflexivity).
  (* part A; *)
  assert (∀ f, 1 ≤ f →
            parseElement f (new tokens) =
              Return (Some part) (mk tokens 3 (ASTNode.new "root"))) as Hpart.
  { intros f Hf. rewrite (parseElement_more_fuel 1 f); [|done|];
      by vm_compute. }
  (* attribute x; inside the body *)
  assert (∀ f, 1 ≤ f →
            parseElement f (mk tokens 6 root) =
              Return (Some attribute) (mk tokens 9 root)) as Hattribute.
  { intros f Hf. rewrite (parseElement_more_fuel 1 f); [|done|];
      by vm_compute. }
  (* package P { ... *)
  assert (∀ f pe, parsePackage f pe (mk tokens 3 root) =
            (node ← body f pe package;
             expect PUNCTUATION "}";; mret node) (mk tokens 6 root)) as Hopen
    by (intros f pe; vm_compute; reflexivity).
  assert (∀ f, parseElement f (mk tokens 3 root) = OutOfFuel) as Hpackage.
  { intros [|f]; [done|].
    rewrite (parseElement_package f _ _ H3) by done.
    apply bind_OutOfFuel. rewrite Hopen. apply bind_OutOfFuel.
    destruct f as [|f].
    { unfold body. simpl. by rewrite H6. }
    rewrite (body_next _ _ _ _ _ attribute (mk tokens 9 root) H6);
      [|done|apply Hattribute; lia].
    by apply (body_spins_at_EOF _ _ _ _ _ H9). }
  unfold parse, top_level.
  destruct fuel as [|n].
  { rewrite while_OutOfFuel; [done| |done].
    unfold more_elements. by rewrite H0. }
  rewrite (top_level_next _ _ _ _ _ (Hpart (S n) ltac:(lia))).
  change (add_to_root (mk tokens 3 (ASTNode.new "root")) part)
    with (mk tokens 3 root).
  rewrite while_OutOfFuel; [done| |].
  - unfold more_elements. by rewrite H3.
  - unfold element_to_root. by apply bind_OutOfFuel.
Qed.

(** *** The generic rule *)

Lemma dedicated_None fuel pe keyword :
  ¬ has_own_rule keyword → dedicated fuel pe keyword = None.
Proof.
  intros Hnot. unfold dedicated.
  repeat (case_bool_decide as Heq;
    [destruct Hnot; rewrite Heq;
     apply (list_elem_of_fmap_2 (λ word, VStr (js word)));
     rewrite !elem_of_cons; tauto|clear Heq]).
  done.
Qed.

(** Outside the end marker, whatever has no rule of its own goes to the
    generic rule. *)
Lemma parseElement_generic fuel this token :
  current this = Some token →
  Token.type token ≠ EOF →
  (Token.type token = KEYWORD → ¬ has_own_rule (Token.value token)) →
  parseElement (S fuel) this = parseGenericElement fuel this.
Proof.
  intros Hc Heof Hrule. cbn [parseElement]. rewrite bind_get, Hc.
  rewrite bool_decide_false by done.
  case_bool_decide as Hkw; [|done].
  by rewrite dedicated_None by auto.
Qed.

(** The skip loop has an end: it stops at the latest past the last token. *)
Lemma runs_skip_loop fuel this :
  length (tokens this) - position this ≤ fuel →
  runs (while fuel skipped (λ _, advance) ()) this (λ _ this',
    tokens this' = tokens this ∧ ast this' = ast this ∧
    position this ≤ position this').
Proof.
  intros Hfuel. eapply runs_weaken.
  - apply (runs_while (λ s, length (tokens s) - position s)
             (λ _ s, tokens s = tokens this ∧ ast s = ast this ∧
                     position this ≤ position s)); [done..|].
    intros [] s (Ht & Ha & Hp) Hskipped.
    apply runs_modify. simpl. split; [split_and!; [done..|lia]|].
    unfold skipped, current in Hskipped.
    destruct (tokens s !! position s) eqn:Hc; [|done].
    apply lookup_lt_Some in Hc. lia.
  - cbv beta. by intros _ s [? _].
Qed.

Lemma keyword_is_skipped keyword :
  keyword ∈ KEYWORDS →
  VStr keyword ≠ VStr (js ";") ∧ VStr keyword ≠ VStr (js "}").
Proof.
  intros Hin. split; intros [= ->]; revert Hin; by vm_compute.
Qed.

(** On a keyword without a rule the generic rule captures no name, enters
    its skip loop on the keyword and returns a bare generic node. *)
Lemma parseGenericElement_keyword fuel this token keyword :
  current this = Some token →
  Token.type token = KEYWORD →
  Token.value token = VStr keyword →
  keyword ∈ KEYWORDS →
  length (tokens this) - position this ≤ fuel →
  capture (is_type IDENTIFIER) "name" (ASTNode.new "generic") this =
    Return (ASTNode.new "generic") this ∧
  skipped this = true ∧
  ∃ this',
    parseGenericElement fuel this = Return (Some (ASTNode.new "generic")) this' ∧
    position this < position this'.
Proof.
  intros Hc Htype Hvalue Hkw Hfuel.
  destruct (keyword_is_skipped keyword Hkw) as [Hsemi Hbrace].
  assert (capture (is_type IDENTIFIER) "name" (ASTNode.new "generic") this =
            Return (ASTNode.new "generic") this) as Hcapture.
  { unfold capture. rewrite bind_get, Hc. unfold is_type.
    by rewrite Htype, bool_decide_false. }
  assert (skipped this = true) as Hskipped.
  { unfold skipped. by rewrite Hc, Hvalue, !bool_decide_true. }
  split; [done|]. split; [done|].
  pose proof (lookup_lt_Some _ _ _ Hc) as Hlt.
  destruct fuel as [|fuel]; [lia|].
  set (this1 := mk (tokens this) (position this + 1) (ast this)).
  destruct (runs_skip_loop fuel this1) as ([] & this2 & Hloop & _ & _ & Hp2).
  { simpl. lia. }
  pose proof (steady_skip ";" this2) as Hskip.
  destruct (skip ";" this2) as [[] this3|e this3|] eqn:Hskip3.
  - exists this3. split.
    + unfold parseGenericElement. rewrite bind_get, Hc.
      rewrite (bind_Return _ _ _ _ _ Hcapture).
      assert (while (S fuel) skipped (λ _, advance) () this = Return () this2)
        as Hwhile by (by rewrite (while_step _ _ _ _ _ () this1)).
      rewrite (bind_Return _ _ _ _ _ Hwhile).
      by rewrite (bind_Return _ _ _ _ _ Hskip3).
    + destruct Hskip as (_ & _ & Hp3). simpl in Hp2. lia.
  - unfold skip in Hskip3. rewrite bind_get in Hskip3.
    by destruct (value_is _ _).
  - unfold skip in Hskip3. rewrite bind_get in Hskip3.
    by destruct (value_is _ _).
Qed.

(** *** Claims about the grammar rules *)

(** C5. The token sequence of [connection c : a B.c;] parses, with any fuel
    from 3 on, to a root with two children.  The first is the connection
    node, of name [c], from [a] and to [B]; [parseConnection] stops on the
    dot, leaving [. c ;] and EOF unread.  The second is a generic node with
    no property at all, hence no name, which the generic rule makes of the
    three tokens left. *)
Theorem qualified_connection_leaves_generic_sibling :
  let tokens := tokens_of (js "connection c : a B.c;") in
  ∃ connection generic after_connection after_generic,
    (∀ fuel, 3 ≤ fuel →
       ∃ final,
         parse fuel (new tokens) =
           Return (ASTNode.mk "root" ∅ [connection; generic], []) final) ∧
    ASTNode.type connection = "connection" ∧
    ASTNode.properties connection !! "name" = Some (VStr (js "c")) ∧
    ASTNode.properties connection !! "from" = Some (VStr (js "a")) ∧
    ASTNode.properties connection !! "to" = Some (VStr (js "B")) ∧
    ASTNode.children connection = [] ∧
    generic = ASTNode.mk "generic" ∅ [] ∧
    ASTNode.properties generic !! "name" = None ∧
    parseConnection (new tokens) = Return connection after_connection ∧
    position after_connection = 5 ∧
    Token.value <$> drop 5 tokens =
      [VStr (js "."); VStr (js "c"); VStr (js ";"); VNull] ∧
    parseGenericElement 2 after_connection =
      Return (Some generic) after_generic ∧
    position after_generic = 8.
Proof.
  intros tokens.
  assert (∃ r, parse 3 (new tokens) = r) as [r Hr] by eauto.
  vm_compute in Hr.
  match type of Hr with
  | Return ({| ASTNode.children := [?c; ?g] |}, []) ?s = _ =>
      exists c, g; do 2 eexists;
      split; [intros fuel Hfuel; exists s|]
  end.
  - rewrite (parse_extends 3 fuel); [|done|by vm_compute]. by vm_compute.
  - split_and!; try (vm_compute; reflexivity).
Qed.

Lemma qualified_connection_leaves_generic_sibling_witness :
  ∃ root final,
    3 ≤ 5 ∧
    parse 5 (new (tokens_of (js "connection c : a B.c;"))) =
      Return (root, []) final ∧
    ASTNode.type <$> ASTNode.children root = ["connection"; "generic"].
Proof.
  destruct qualified_connection_leaves_generic_sibling
    as (connection & generic & ? & ? & Hparse & Htype & _ & _ & _ & _ & -> & _).
  destruct (Hparse 5) as [final Hfinal]; [lia|].
  exists (ASTNode.mk "root" ∅ [connection; ASTNode.mk "generic" ∅ []]), final.
  split; [lia|]. split; [exact Hfinal|]. simpl. by rewrite Htype.
Defined.

(** C6, as the code has it.  A current token other than EOF that is not a
    KEYWORD, or that is a KEYWORD without a rule of its own, sends
    [parseElement] to the generic rule.  When that token is a keyword of the
    language, the generic rule captures no name (the capture returns the
    node and the parser untouched), the skip loop starts on the keyword and
    consumes it, and what is returned is a generic node with no property,
    the cursor past the keyword. *)
Theorem generic_fallback :
  (∀ fuel this token,
     current this = Some token →
     Token.type token ≠ EOF →
     (Token.type token = KEYWORD → ¬ has_own_rule (Token.value token)) →
     parseElement (S fuel) this = parseGenericElement fuel this) ∧
  (∀ fuel this token keyword,
     current this = Some token →
     Token.type token = KEYWORD →
     Token.value token = VStr keyword →
     keyword ∈ KEYWORDS →
     ¬ has_own_rule (Token.value token) →
     length (tokens this) - position this ≤ fuel →
     capture (is_type IDENTIFIER) "name" (ASTNode.new "generic") this =
       Return (ASTNode.new "generic") this ∧
     skipped this = true ∧
     ASTNode.properties (ASTNode.new "generic") !! "name" = None ∧
     ∃ this',
       parseElement (S fuel) this =
         Return (Some (ASTNode.new "generic")) this' ∧
       position this < position this').
Proof.
  split.
  - intros fuel this token. apply parseElement_generic.
  - intros fuel this token keyword Hc Htype Hvalue Hkw Hrule Hfuel.
    destruct (parseGenericElement_keyword fuel this token keyword)
      as (Hcapture & Hskipped & this' & Hgeneric & Hp); [done..|].
    split_and!; [done..|]. exists this'. split; [|done].
    rewrite (parseElement_generic fuel this token); [done..| |done].
    by rewrite Htype.
Qed.

Lemma generic_fallback_witness :
  let this := new (tokens_of (js "block Engine;")) in
  let token := Token.mk KEYWORD (VStr (js "block")) 1 1 in
  current this = Some token ∧
  Token.type token = KEYWORD ∧
  js "block" ∈ KEYWORDS ∧
  ¬ has_own_rule (Token.value token) ∧
  length (tokens this) - position this ≤ 4 ∧
  parseElement 5 this = parseGenericElement 4 this ∧
  ∃ this',
    parseElement 5 this = Return (Some (ASTNode.new "generic")) this' ∧
    position this < position this'.
Proof.
  intros this token.
  assert (¬ has_own_rule (Token.value token)) as Hrule.
  { unfold has_own_rule. simpl. rewrite !elem_of_cons, elem_of_nil.
    intros H. repeat (destruct H as [H|H]; [by vm_compute in H|]). done. }
  assert (js "block" ∈ KEYWORDS) as Hkw by (by vm_compute).
  assert (length (tokens this) - position this ≤ 4) as Hfuel
    by (vm_compute; lia).
  split_and!; [done|done|exact Hkw|exact Hrule|exact Hfuel| |].
  - apply (proj1 generic_fallback 4 this token); [done|done|by intros _].
  - destruct (proj2 generic_fallback 4 this token (js "block"))
      as (_ & _ & _ & Hrun); [done|done|done|exact Hkw|exact Hrule|exact Hfuel|].
    exact Hrun.
Defined.

(** The claim as the specification words it fails on the EOF token, which is
    not a KEYWORD: [parseElement] returns [null] there and leaves the cursor
    alone, where the generic rule gives a node and moves past the token. *)
Lemma generic_fallback_not_at_EOF :
  ¬ (∀ fuel this token,
       current this = Some token →
       Token.type token ≠ KEYWORD →
       parseElement (S fuel) this = parseGenericElement fuel this).
Proof.
  intros H.
  specialize (H 1 (new [Token.mk EOF VNull 1 1]) (Token.mk EOF VNull 1 1)).
  by specialize (H eq_refl ltac:(done)).
Qed.

(** *** What the rules return and what they throw *)

Section ensures.
Context {S : Type}.

Lemma ensures_ret {A} (a : A) (s : S) R T : R a s → ensures (mret a) s R T.
Proof. done. Qed.

Lemma ensures_bind {A B} (m : M S A) (k : A → M S B) (s : S) R' R T :
  ensures m s R' T →
  (∀ a s', R' a s' → ensures (k a) s' R T) →
  ensures (m ≫= k) s R T.
Proof.
  unfold ensures, mbind, M_bind. intros Hm Hk.
  destruct (m s) as [a s'|e s'|]; [by apply Hk|done..].
Qed.

Lemma ensures_bind_Return {A B} (m : M S A) (k : A → M S B) (s : S) a s' R T :
  m s = Return a s' → ensures (k a) s' R T → ensures (m ≫= k) s R T.
Proof. unfold ensures. intros Hm. by rewrite (bind_Return _ _ _ _ _ Hm). Qed.

Lemma ensures_weaken {A} (m : M S A) (s : S) (R R' : A → S → Prop)
    (T T' : Error → S → Prop) :
  ensures m s R T →
  (∀ a s', R a s' → R' a s') → (∀ e s', T e s' → T' e s') →
  ensures m s R' T'.
Proof. unfold ensures. destruct (m s); eauto. Qed.

Lemma ensures_get_bind {B} (k : S → M S B) (s : S) R T :
  ensures (k s) s R T → ensures (get ≫= k) s R T.
Proof. done. Qed.

Lemma ensures_while {A} fuel cond (body : A → M S A) a (s : S)
    (I : A → S → Prop) T :
  I a s →
  (∀ a s, I a s → cond s = true → ensures (body a) s I T) →
  ensures (while fuel cond body a) s (λ a' s', I a' s' ∧ cond s' = false) T.
Proof.
  intros HI Hbody. revert a s HI.
  induction fuel as [|fuel IH]; intros a s HI; unfold ensures; simpl.
  - by destruct (cond s) eqn:Hc.
  - destruct (cond s) eqn:Hc; [|done].
    specialize (Hbody a s HI Hc). unfold ensures in Hbody.
    destruct (body a s) as [a' s'|e s'|]; [|done..].
    by apply IH.
Qed.

Lemma ensures_Return {A} (m : M S A) (s : S) R T a s' :
  ensures m s R T → m s = Return a s' → R a s'.
Proof. unfold ensures. intros H Hm. by rewrite Hm in H. Qed.

Lemma ensures_Throw {A} (m : M S A) (s : S) R T e s' :
  ensures m s R T → m s = Throw e s' → T e s'.
Proof. unfold ensures. intros H Hm. by rewrite Hm in H. Qed.

End ensures.

Lemma onward_refl this : onward this this.
Proof. by split_and!. Qed.

Lemma onward_trans this1 this2 this3 :
  onward this1 this2 → onward this2 this3 → onward this1 this3.
Proof.
  intros (? & ? & ?) (? & ? & ?). split_and!; [congruence..|lia].
Qed.

Lemma onward_next this : onward this (next this).
Proof. split_and!; [done..|simpl; lia]. Qed.

Lemma onward_next_r this this' : onward this this' → onward this (next this').
Proof. intros H. eapply onward_trans; [exact H|apply onward_next]. Qed.

Lemma current_next this this' :
  onward this this' → tokens (next this') = tokens this.
Proof. by intros (? & _). Qed.

Lemma expect_spec type value this R T :
  (∀ token, current this = Some token → Token.type token = type →
            R token (next this)) →
  T (mkError type (Some (js value)) (current this)) this →
  ensures (expect type value) this R T.
Proof.
  intros HR HT. unfold expect. apply ensures_get_bind.
  destruct (current this) as [token|] eqn:Hc; [|done].
  destruct (bool_decide (Token.type token ≠ type)) eqn:Htype; [done|].
  apply bool_decide_eq_false in Htype.
  destruct (_ && _); [done|].
  unfold ensures. simpl. apply HR; [done|].
  by destruct (decide (Token.type token = type)).
Qed.

Lemma expect_Return type value this token :
  current this = Some token → Token.type token = type →
  Token.value token = VStr (js value) →
  expect type value this = Return token (next this).
Proof.
  intros Hc Htype Hvalue. unfold expect. rewrite bind_get, Hc.
  rewrite bool_decide_false by (by intros []).
  rewrite (bool_decide_false (Token.value token ≠ _)) by (by intros []).
  by rewrite andb_false_r.
Qed.

Lemma skip_spec text this R T :
  R () (if value_is (current this) text then next this else this) →
  ensures (skip text) this R T.
Proof.
  intros HR. unfold skip. apply ensures_get_bind.
  by destruct (value_is (current this) text).
Qed.

Lemma capture_spec test key node this R T :
  (∀ token, current this = Some token → test token = true →
            R (ASTNode.set node key (Token.value token)) (next this)) →
  R node this →
  ensures (capture test key node) this R T.
Proof.
  intros Htaken Hleft. unfold capture. apply ensures_get_bind.
  destruct (current this) as [token|] eqn:Hc; [|done].
  destruct (test token) eqn:Htest; [|done].
  unfold ensures. simpl. by apply Htaken.
Qed.

Lemma in_progress_new tokens type : in_progress tokens type (ASTNode.new type).
Proof.
  split_and!; [done|simpl; rewrite dom_empty_L; set_solver|done|].
  intros _. by constructor.
Qed.

Lemma in_progress_set tokens type node key v :
  in_progress tokens type node →
  key ∈ node_keys type →
  (Forall well_typed tokens →
   (∃ text, v = VStr text) ∨ (key = "defaultValue" ∧ ∃ lexeme, v = VNum lexeme)) →
  in_progress tokens type (ASTNode.set node key v).
Proof.
  intros (Htype & Hdom & Hchildren & Htextual) Hkey Hv.
  destruct node as [ty properties children]. simpl in *.
  split_and!; [done| |done|].
  - simpl. rewrite dom_insert_L.
    apply union_subseteq. split; [by apply singleton_subseteq_l|done].
  - intros Htokens. specialize (Htextual Htokens). specialize (Hv Htokens).
    inversion Htextual as [? ? ? Hprops Hcs]; subst.
    constructor; [|done].
    intros key' v' Hlookup.
    destruct (decide (key = key')) as [<-|Hne].
    + rewrite lookup_insert_eq in Hlookup. by injection Hlookup as <-.
    + rewrite lookup_insert_ne in Hlookup by done. by eapply Hprops.
Qed.

Lemma in_progress_addChild tokens type node element :
  in_progress tokens type node →
  well_formed element →
  (Forall well_typed tokens → textual element) →
  in_progress tokens type (ASTNode.addChild node element).
Proof.
  intros (Htype & Hdom & Hchildren & Htextual) Hwf Htext.
  destruct node as [ty properties children]. simpl in *.
  split_and!; [done..| |].
  - apply Forall_app. split; [done|by constructor].
  - intros Htokens. specialize (Htextual Htokens).
    inversion Htextual as [? ? ? Hprops Hcs]; subst.
    constructor; [done|]. apply Forall_app. split; [done|]. constructor; auto.
Qed.

Lemma captured_value this token key :
  current this = Some token →
  Token.type token = IDENTIFIER ∨
  key = "defaultValue" ∧
  (Token.type token = NUMBER ∨ Token.type token = STRING) →
  Forall well_typed (tokens this) →
  (∃ text, Token.value token = VStr text) ∨
  (key = "defaultValue" ∧ ∃ lexeme, Token.value token = VNum lexeme).
Proof.
  intros Hc Htype Htokens.
  pose proof (Forall_lookup_1 _ _ _ _ Htokens Hc) as Htoken.
  unfold well_typed in Htoken.
  destruct Htype as [Hid|[-> [Hnum|Hstr]]].
  - rewrite Hid in Htoken. destruct Htoken as (word & ? & _). eauto.
  - rewrite Hnum in Htoken. eauto.
  - rewrite Hstr in Htoken. eauto.
Qed.

Lemma building_next start type leaf node this :
  building start type leaf node this → building start type leaf node (next this).
Proof.
  intros (? & ? & Hon & ?). split_and!; [done..|by apply onward_next_r|].
  simpl. lia.
Qed.

Lemma capture_building start type leaf test key node this T :
  building start type leaf node this →
  key ∈ node_keys type →
  (∀ token, test token = true →
     Token.type token = IDENTIFIER ∨
     key = "defaultValue" ∧
     (Token.type token = NUMBER ∨ Token.type token = STRING)) →
  ensures (capture test key node) this (building start type leaf) T.
Proof.
  intros Hb Hkey Htest. apply capture_spec; [|done].
  intros token Hc Htoken.
  pose proof Hb as (Hin & Hleaf & Hon & Hp).
  apply building_next. split_and!; [|by destruct node|done..].
  apply in_progress_set; [done..|].
  intros Htokens. apply (captured_value this token key Hc (Htest _ Htoken)).
  destruct Hon as (-> & _). done.
Qed.

Lemma is_type_IDENTIFIER token key :
  is_type IDENTIFIER token = true →
  Token.type token = IDENTIFIER ∨
  key = "defaultValue" ∧
  (Token.type token = NUMBER ∨ Token.type token = STRING).
Proof. intros H%bool_decide_eq_true. by left. Qed.

(** [if (this.current()?.value === text) { this.advance(); capture }] *)
Lemma optional_capture_building start type leaf text test key node this T :
  building start type leaf node this →
  key ∈ node_keys type →
  (∀ token, test token = true →
     Token.type token = IDENTIFIER ∨
     key = "defaultValue" ∧
     (Token.type token = NUMBER ∨ Token.type token = STRING)) →
  ensures (if value_is (current this) text
           then advance;; capture test key node
           else mret node) this (building start type leaf) T.
Proof.
  intros Hb Hkey Htest. destruct (value_is _ _); [|done].
  apply (ensures_bind_Return _ _ _ () (next this)); [done|].
  apply capture_building; [by apply building_next|done..].
Qed.

Lemma skip_building start type leaf text node this T :
  building start type leaf node this →
  ensures (skip text;; mret node) this (building start type leaf) T.
Proof.
  intros Hb. eapply ensures_bind; [apply skip_spec|].
  - instantiate (1 := λ _ s, building start type leaf node s). cbv beta.
    destruct (value_is _ _); [by apply building_next|done].
  - by intros [] s Hs.
Qed.

Lemma building_finished start type leaf node this :
  building start type leaf node this →
  type ∈ node_types → (type ∈ leaf_types → leaf = true) →
  element_returned start (Some node) this.
Proof.
  intros ((Htype & Hdom & Hchildren & Htextual) & Hleaf & Hon & Hp) Hty Hlf.
  split; [done|]. split_and!; [|done|by left].
  destruct node as [ty properties children]. simpl in *. subst ty.
  constructor; auto.
Qed.

Lemma element_thrown_onward start this error this' :
  onward start this → position start < position this ∨ start = this →
  element_thrown this error this' → element_thrown start error this'.
Proof.
  intros Hon Hp (Hon' & Hp' & ? & ? & ?).
  split_and!; [by eapply onward_trans| |done..].
  destruct Hp as [?| ->]; [lia|done].
Qed.

(** The braces and what is between them. *)
Lemma block_building start type fuel pe node this :
  (∀ s, ensures pe s (element_returned s) (element_thrown s)) →
  building start type false node this →
  ensures (block fuel pe node) this
    (building start type false) (element_thrown start).
Proof.
  intros Hpe Hb. unfold block.
  pose proof Hb as (Hin & _ & Hon & Hp).
  eapply ensures_bind.
  { apply (expect_spec _ _ _ (λ _ s, s = next this)); [done|].
    split_and!; [done|done|done|by left|done]. }
  cbv beta. intros _ ? ->.
  eapply ensures_bind.
  { unfold body.
    apply (ensures_while _ _ _ _ _ (building start type false));
      [by apply building_next|].
    intros node1 s1 Hb1 _. pose proof Hb1 as (Hin1 & _ & Hon1 & Hp1).
    eapply ensures_bind.
    - eapply ensures_weaken; [apply Hpe|intros a s' H; exact H|].
      intros e s' H. apply (element_thrown_onward start s1); [done|by left|done].
    - cbv beta. intros [element|] s2 (Hon2 & Hrest); [|by destruct Hrest as [-> _]].
      destruct Hrest as (Hwf & Htext & _).
      apply ensures_ret. split_and!; [|done| |].
      + apply in_progress_addChild; [done..|].
        destruct Hon1 as (<- & _). done.
      + by eapply onward_trans.
      + destruct Hon2 as (_ & _ & ?). lia. }
  cbv beta. intros node2 s2 [Hb2 _].
  pose proof Hb2 as (Hin2 & _ & Hon2 & Hp2).
  eapply ensures_bind.
  { apply (expect_spec _ _ _ (λ _ s, s = next s2)); [done|].
    split_and!; [done|done|done|by right|done]. }
  cbv beta. intros _ ? ->. apply ensures_ret. by apply building_next.
Qed.

Lemma entered_building this keyword type leaf :
  entered this keyword →
  ∃ token,
    expect KEYWORD keyword this = Return token (next this) ∧
    building this type leaf (ASTNode.new type) (next this).
Proof.
  intros (token & Hc & Htype & Hvalue). exists token.
  split; [by apply expect_Return|].
  split_and!; [apply in_progress_new|done|apply onward_next|simpl; lia].
Qed.

(** Close the goals on the keys a rule may set and on the type of its
    node. *)
Ltac key_ok := by vm_compute.

Ltac finished H :=
  apply (building_finished _ _ _ _ _ H);
  [ match goal with |- ?P => apply (bool_decide_unpack P) end;
    vm_compute; exact I
  | first [ by intros _
          | let Hleaf := fresh in
            intros Hleaf; apply (bool_decide_pack _) in Hleaf;
            by vm_compute in Hleaf ] ].

Lemma parsePackage_spec fuel pe this :
  (∀ s, ensures pe s (element_returned s) (element_thrown s)) →
  entered this "package" →
  ensures (parsePackage fuel pe) this
    (λ node this', element_returned this (Some node) this')
    (element_thrown this).
Proof.
  intros Hpe Hin. unfold parsePackage.
  destruct (entered_building this "package" "package" false Hin)
    as (token & Hexpect & Hb).
  apply (ensures_bind_Return _ _ _ _ _ _ _ Hexpect).
  eapply ensures_bind.
  { apply (capture_building this "package" false); [done|key_ok|].
    intros ?. apply is_type_IDENTIFIER. }
  cbv beta. intros node1 s1 Hb1. apply ensures_get_bind.
  destruct (value_is _ _).
  - eapply ensures_weaken; [by apply (block_building this "package")| |done].
    intros node2 s2 Hb2. finished Hb2.
  - apply ensures_ret. finished Hb1.
Qed.

Lemma parseRequirement_spec fuel pe this :
  (∀ s, ensures pe s (element_returned s) (element_thrown s)) →
  entered this "requirement" →
  ensures (parseRequirement fuel pe) this
    (λ node this', element_returned this (Some node) this')
    (element_thrown this).
Proof.
  intros Hpe Hin. unfold parseRequirement.
  destruct (entered_building this "requirement" "requirement" false Hin)
    as (token & Hexpect & Hb).
  apply (ensures_bind_Return _ _ _ _ _ _ _ Hexpect).
  eapply ensures_bind.
  { apply (capture_building this "requirement" false); [done|key_ok|].
    intros ?. apply is_type_IDENTIFIER. }
  cbv beta. intros node1 s1 Hb1. apply ensures_get_bind.
  destruct (value_is _ _).
  - eapply ensures_weaken;
      [by apply (block_building this "requirement")| |done].
    intros node2 s2 Hb2. finished Hb2.
  - apply ensures_ret. finished Hb1.
Qed.

Lemma parseUseCase_spec fuel pe this :
  (∀ s, ensures pe s (element_returned s) (element_thrown s)) →
  entered this "use" →
  ensures (parseUseCase fuel pe) this
    (λ node this', element_returned this (Some node) this')
    (element_thrown this).
Proof.
  intros Hpe Hin. unfold parseUseCase.
  destruct (entered_building this "use" "usecase" false Hin)
    as (token & Hexpect & Hb).
  apply (ensures_bind_Return _ _ _ _ _ _ _ Hexpect).
  eapply ensures_bind.
  { apply (skip_spec _ _ (λ _ s, building this "usecase" false
                                   (ASTNode.new "usecase") s)).
    destruct (value_is _ _); [by apply building_next|done]. }
  cbv beta. intros [] s0 Hb0.
  eapply ensures_bind.
  { apply (capture_building this "usecase" false); [done|key_ok|].
    intros ?. apply is_type_IDENTIFIER. }
  cbv beta. intros node1 s1 Hb1. apply ensures_get_bind.
  destruct (value_is _ _).
  - eapply ensures_weaken; [by apply (block_building this "usecase")| |done].
    intros node2 s2 Hb2. finished Hb2.
  - apply ensures_ret. finished Hb1.
Qed.

Lemma parsePart_spec fuel pe this :
  (∀ s, ensures pe s (element_returned s) (element_thrown s)) →
  entered this "part" →
  ensures (parsePart fuel pe) this
    (λ node this', element_returned this (Some node) this')
    (element_thrown this).
Proof.
  intros Hpe Hin. unfold parsePart.
  destruct (entered_building this "part" "part" false Hin)
    as (token & Hexpect & Hb).
  apply (ensures_bind_Return _ _ _ _ _ _ _ Hexpect).
  eapply ensures_bind.
  { apply (capture_building this "part" false); [done|key_ok|].
    intros ?. apply is_type_IDENTIFIER. }
  cbv beta. intros node1 s1 Hb1. apply ensures_get_bind.
  eapply ensures_bind.
  { apply (optional_capture_building this "part" false); [done|key_ok|].
    intros ?. apply is_type_IDENTIFIER. }
  cbv beta. intros node2 s2 Hb2. apply ensures_get_bind.
  destruct (value_is _ "{").
  - eapply ensures_weaken; [by apply (block_building this "part")| |done].
    intros node3 s3 Hb3. finished Hb3.
  - destruct (value_is _ ";").
    + apply (ensures_bind_Return _ _ _ () (next s2)); [done|].
      apply ensures_ret. apply building_next in Hb2. finished Hb2.
    + apply ensures_ret. finished Hb2.
Qed.

Lemma parseAttribute_spec this T :
  entered this "attribute" →
  ensures parseAttribute this
    (λ node this', element_returned this (Some node) this') T.
Proof.
  intros Hin. unfold parseAttribute.
  destruct (entered_building this "attribute" "attribute" true Hin)
    as (token & Hexpect & Hb).
  apply (ensures_bind_Return _ _ _ _ _ _ _ Hexpect).
  eapply ensures_bind.
  { apply (capture_building this "attribute" true); [done|key_ok|].
    intros ?. apply is_type_IDENTIFIER. }
  cbv beta. intros node1 s1 Hb1. apply ensures_get_bind.
  eapply ensures_bind.
  { apply (optional_capture_building this "attribute" true); [done|key_ok|].
    intros ?. apply is_type_IDENTIFIER. }
  cbv beta. intros node2 s2 Hb2. apply ensures_get_bind.
  eapply ensures_bind.
  { apply (optional_capture_building this "attribute" true); [done|key_ok|].
    intros tok [H|H]%orb_true_iff; apply bool_decide_eq_true in H; auto. }
  cbv beta. intros node3 s3 Hb3.
  eapply ensures_weaken; [by apply (skip_building this "attribute" true)| |done].
  intros node4 s4 Hb4. finished Hb4.
Qed.

Lemma parsePort_spec this T :
  entered this "port" →
  ensures parsePort this
    (λ node this', element_returned this (Some node) this') T.
Proof.
  intros Hin. unfold parsePort.
  destruct (entered_building this "port" "port" true Hin)
    as (token & Hexpect & Hb).
  apply (ensures_bind_Return _ _ _ _ _ _ _ Hexpect).
  eapply ensures_bind.
  { apply (capture_building this "port" true); [done|key_ok|].
    intros ?. apply is_type_IDENTIFIER. }
  cbv beta. intros node1 s1 Hb1. apply ensures_get_bind.
  eapply ensures_bind.
  { apply (optional_capture_building this "port" true); [done|key_ok|].
    intros ?. apply is_type_IDENTIFIER. }
  cbv beta. intros node2 s2 Hb2.
  eapply ensures_weaken; [by apply (skip_building this "port" true)| |done].
  intros node4 s4 Hb4. finished Hb4.
Qed.

Lemma parseConnection_spec this T :
  entered this "connection" →
  ensures parseConnection this
    (λ node this', element_returned this (Some node) this') T.
Proof.
  intros Hin. unfold parseConnection.
  destruct (entered_building this "connection" "connection" true Hin)
    as (token & Hexpect & Hb).
  apply (ensures_bind_Return _ _ _ _ _ _ _ Hexpect).
  eapply ensures_bind.
  { apply (capture_building this "connection" true); [done|key_ok|].
    intros ?. apply is_type_IDENTIFIER. }
  cbv beta. intros node1 s1 Hb1. apply ensures_get_bind.
  apply (ensures_bind _ _ _ (building this "connection" true)).
  { destruct (value_is _ _); [|done].
    apply (ensures_bind_Return _ _ _ () (next s1)); [done|].
    apply building_next in Hb1. apply ensures_get_bind.
    destruct (type_is _ _); [|done].
    eapply ensures_bind.
    - apply (capture_building this "connection" true); [done|key_ok|].
      intros ?. apply is_type_IDENTIFIER.
    - cbv beta. intros node2 s2 Hb2.
      apply (capture_building this "connection" true); [done|key_ok|].
      intros ?. apply is_type_IDENTIFIER. }
  intros node3 s3 Hb3.
  eapply ensures_weaken; [by apply (skip_building this "connection" true)| |done].
  intros node4 s4 Hb4. finished Hb4.
Qed.

Lemma skip_loop_spec fuel this T :
  ensures (while fuel skipped (λ _, advance) ()) this
    (λ _ this',
       onward this this' ∧
       (skipped this = true → position this < position this') ∧
       (skipped this = false → this' = this)) T.
Proof.
  destruct (skipped this) eqn:Hskipped.
  - destruct fuel as [|fuel]; [unfold ensures; simpl; by rewrite Hskipped|].
    unfold ensures.
    rewrite (while_step _ _ _ _ _ () (next this) Hskipped eq_refl).
    apply (ensures_weaken _ _ (λ _ s, onward (next this) s ∧ skipped s = false) _ T).
    + apply (ensures_while _ _ _ _ _ (λ _ s, onward (next this) s));
        [apply onward_refl|].
      intros [] s Hs _. unfold ensures. simpl. by apply onward_next_r.
    + intros [] s' [Hon _]. split_and!; [|intros _|done].
      * eapply onward_trans; [apply onward_next|done].
      * destruct Hon as (_ & _ & Hp). simpl in Hp. lia.
    + done.
  - unfold ensures. rewrite while_done by done.
    split_and!; [apply onward_refl|done..].
Qed.

Lemma parseGenericElement_spec fuel this T :
  ensures (parseGenericElement fuel) this (element_returned this) T.
Proof.
  unfold parseGenericElement. apply ensures_get_bind.
  destruct (current this) as [token|] eqn:Hc.
  2:{ apply ensures_ret. split; [apply onward_refl|]. split; [done|].
      unfold more_elements. by rewrite Hc. }
  apply (ensures_bind _ _ _ (λ node s,
    in_progress (tokens this) "generic" node ∧ ASTNode.children node = [] ∧
    (s = next this ∨ s = this ∧ node = ASTNode.new "generic"))).
  { apply capture_spec.
    - intros tok Hc' Htest. split_and!; [|done|by left].
      apply in_progress_set; [apply in_progress_new|key_ok|].
      apply (captured_value this tok "name" Hc').
      by apply is_type_IDENTIFIER.
    - split_and!; [apply in_progress_new|done|by right]. }
  intros node s1 (Hin & Hleaf & Hs1).
  eapply ensures_bind; [apply skip_loop_spec|].
  cbv beta. intros [] s2 (Hon2 & Hmoved & Hstill).
  eapply ensures_bind; [apply (skip_spec _ _ (λ _ s,
    s = if value_is (current s2) ";" then next s2 else s2)); done|].
  cbv beta. intros [] s3 ->. apply ensures_ret.
  assert (onward this s1) as Hon1.
  { destruct Hs1 as [->|[-> _]]; [apply onward_next|apply onward_refl]. }
  assert (onward s2 (if value_is (current s2) ";" then next s2 else s2)) as Hon3.
  { destruct (value_is _ _); [apply onward_next|apply onward_refl]. }
  split; [eauto using onward_trans|].
  destruct Hin as (Htype & Hdom & Hchildren & Htextual).
  split_and!; [|done|].
  { destruct node as [ty properties children]. simpl in *. subst.
    constructor; [|done|done|done].
    apply (bool_decide_unpack _). vm_compute. exact I. }
  destruct Hon2 as (_ & _ & Hp2), Hon3 as (_ & _ & Hp3).
  destruct Hs1 as [->|[-> ->]]; [left; simpl in *; lia|].
  destruct (skipped this) eqn:Hskipped; [left; specialize (Hmoved eq_refl); lia|].
  rewrite (Hstill eq_refl) in *.
  destruct (value_is (current this) ";") eqn:Hsemi; [left; simpl; lia|].
  right. split_and!; [done..|].
  unfold skipped, value_is in *. rewrite Hc in *.
  apply bool_decide_eq_false in Hsemi.
  rewrite (bool_decide_true (_ ≠ VStr (js ";"))) in Hskipped by done.
  rewrite andb_true_l in Hskipped.
  apply bool_decide_eq_false in Hskipped. apply bool_decide_eq_true.
  by destruct (decide (Token.value token = VStr (js "}"))).
Qed.

Lemma dedicated_spec fuel pe this token rule :
  (∀ s, ensures pe s (element_returned s) (element_thrown s)) →
  current this = Some token → Token.type token = KEYWORD →
  dedicated fuel pe (Token.value token) = Some rule →
  ensures rule this
    (λ node this', element_returned this (Some node) this')
    (element_thrown this).
Proof.
  intros Hpe Hc Htype. unfold dedicated.
  repeat (case_bool_decide as Hvalue;
    [intros [= <-];
     first [ apply parsePackage_spec; [done|by exists token]
           | apply parsePart_spec; [done|by exists token]
           | apply parseRequirement_spec; [done|by exists token]
           | apply parseUseCase_spec; [done|by exists token]
           | apply parseAttribute_spec; by exists token
           | apply parsePort_spec; by exists token
           | apply parseConnection_spec; by exists token ]
    |clear Hvalue]).
  done.
Qed.

(** What [parseElement] returns and what it throws. *)
Lemma parseElement_spec fuel this :
  ensures (parseElement fuel) this (element_returned this) (element_thrown this).
Proof.
  revert this. induction fuel as [|fuel IH]; intros this; [done|].
  cbn [parseElement]. apply ensures_get_bind.
  destruct (current this) as [token|] eqn:Hc.
  2:{ apply ensures_ret. split; [apply onward_refl|]. split; [done|].
      unfold more_elements. by rewrite Hc. }
  destruct (decide (Token.type token = EOF)) as [Heof|Heof].
  { rewrite bool_decide_true by done.
    apply ensures_ret. split; [apply onward_refl|]. split; [done|].
    unfold more_elements. rewrite Hc. by rewrite bool_decide_false by auto. }
  rewrite bool_decide_false by done.
  case_bool_decide as Hkw; [|apply parseGenericElement_spec].
  destruct (dedicated _ _ _) as [rule|] eqn:Hrule;
    [|apply parseGenericElement_spec].
  eapply ensures_bind; [by eapply dedicated_spec|].
  by intros node s' H.
Qed.

(** *** Further properties of the parser *)

(** X9. When [parseElement] returns a node it has left the token sequence
    and the root as they were and has moved the cursor forward by at least
    one token, with one exception: on a token whose text is a closing brace
    it returns the bare generic node and does not move. *)
Theorem parseElement_moves_forward fuel this node this' :
  parseElement fuel this = Return (Some node) this' →
  tokens this' = tokens this ∧ ast this' = ast this ∧
  (position this < position this' ∨
   this' = this ∧ node = ASTNode.new "generic" ∧
   value_is (current this) "}" = true).
Proof.
  intros Hrun.
  pose proof (ensures_Return _ _ _ _ _ _ (parseElement_spec fuel this) Hrun)
    as ((Ht & Ha & _) & _ & _ & Hmove).
  by split_and!.
Qed.

Lemma parseElement_moves_forward_witness :
  let this := new (tokens_of (js "} port p;")) in
  parseElement 1 this = Return (Some (ASTNode.new "generic")) this ∧
  tokens this = tokens this ∧ ast this = ast this ∧
  (position this < position this ∨
   this = this ∧ ASTNode.new "generic" = ASTNode.new "generic" ∧
   value_is (current this) "}" = true).
Proof.
  intros this.
  assert (parseElement 1 this = Return (Some (ASTNode.new "generic")) this)
    as Hrun by (vm_compute; reflexivity).
  split; [exact Hrun|].
  exact (parseElement_moves_forward 1 this _ this Hrun).
Defined.

(** X10. Every node [parseElement] returns is well formed, and so are the
    nodes under it: its type is one of the eight tags, its properties are
    among the keys of that type, and an attribute, port, connection or
    generic node has no child. *)
Theorem parseElement_well_formed fuel this node this' :
  parseElement fuel this = Return (Some node) this' → well_formed node.
Proof.
  intros Hrun.
  by pose proof (ensures_Return _ _ _ _ _ _ (parseElement_spec fuel this) Hrun)
    as (_ & ? & _).
Qed.

Lemma parseElement_well_formed_witness :
  let this := new (tokens_of (js "part A { port p : T; }")) in
  ∃ node this',
    parseElement 3 this = Return (Some node) this' ∧ well_formed node.
Proof.
  intros this.
  assert (∃ node this', parseElement 3 this = Return (Some node) this')
    as (node & this' & Hrun) by (do 2 eexists; vm_compute; reflexivity).
  exists node, this'. split; [exact Hrun|].
  exact (parseElement_well_formed 3 this node this' Hrun).
Defined.

(** X11. The only errors [parseElement] throws are those of the [expect] of
    an opening or of a closing brace: never one about the keyword that
    selected the rule.  The error names the token the cursor is left on
    (none past the end of the sequence), the keyword has been consumed, and
    the token sequence and the root are as they were. *)
Theorem parseElement_throws_braces fuel this error this' :
  parseElement fuel this = Throw error this' →
  expected_type error = PUNCTUATION ∧
  (expected_value error = Some (js "{") ∨
   expected_value error = Some (js "}")) ∧
  actual error = current this' ∧
  position this < position this' ∧
  tokens this' = tokens this ∧ ast this' = ast this.
Proof.
  intros Hrun.
  pose proof (ensures_Throw _ _ _ _ _ _ (parseElement_spec fuel this) Hrun)
    as ((Ht & Ha & _) & Hp & Htype & Hvalue & Hactual).
  by split_and!.
Qed.

Lemma parseElement_throws_braces_witness :
  let this := new (tokens_of (js "package P '{' }")) in
  ∃ error this',
    parseElement 2 this = Throw error this' ∧
    expected_type error = PUNCTUATION ∧
    (expected_value error = Some (js "{") ∨
     expected_value error = Some (js "}")) ∧
    actual error = Some (Token.mk STRING (VStr (js "{")) 1 11).
Proof.
  intros this.
  assert (∃ error this', parseElement 2 this = Throw error this' ∧
            actual error = Some (Token.mk STRING (VStr (js "{")) 1 11))
    as (error & this' & Hrun & Hactual)
    by (do 2 eexists; split; vm_compute; reflexivity).
  exists error, this'. split; [exact Hrun|].
  destruct (parseElement_throws_braces 2 this error this' Hrun)
    as (Htype & Hvalue & _).
  by split_and!.
Defined.

Lemma grown_refl this : grown this this.
Proof.
  split_and!; [done..|]. exists []. by rewrite app_nil_r.
Qed.

Lemma element_to_root_spec fuel start this :
  grown start this →
  ensures (element_to_root fuel) this
    (λ _ this', grown start this')
    (λ error this', grown start this' ∧
       expected_type error = PUNCTUATION ∧
       (expected_value error = Some (js "{") ∨
        expected_value error = Some (js "}"))).
Proof.
  intros (Ht & Hty & Hprops & added & Hchildren & Hwf & Htext).
  unfold element_to_root.
  apply (ensures_bind _ _ _ (element_returned this)).
  - eapply ensures_weaken; [apply parseElement_spec|intros a s' H; exact H|].
    intros e s' ((Ht' & Ha' & _) & _ & ? & ? & _).
    split; [|done]. rewrite <-Ha' in Hty, Hprops, Hchildren.
    split_and!; [congruence|done|done|]. by exists added.
  - intros [element|] s' ((Ht' & Ha' & _) & Hrest).
    + destruct Hrest as (Hwf' & Htext' & _).
      unfold ensures. simpl. rewrite Ha'.
      split; [simpl; congruence|]. split; [done|]. split; [done|].
      exists (added ++ [element]).
      split; [simpl; by rewrite Hchildren, (assoc_L (++))|].
      split; [apply Forall_app; split; [done|by constructor]|].
      intros Htyped. apply Forall_app. split; [by apply Htext|].
      constructor; [|done]. apply Htext'. by rewrite Ht.
    + destruct Hrest as [-> _]. apply ensures_ret.
      split_and!; [done..|]. by exists added.
Qed.

Lemma top_level_spec fuel this :
  ensures (top_level fuel) this
    (λ _ this', grown this this')
    (λ error this', grown this this' ∧
       expected_type error = PUNCTUATION ∧
       (expected_value error = Some (js "{") ∨
        expected_value error = Some (js "}"))).
Proof.
  unfold top_level.
  eapply ensures_weaken.
  - apply (ensures_while _ _ _ _ _ (λ _ s, grown this s)); [apply grown_refl|].
    intros [] s Hs _. by apply element_to_root_spec.
  - by intros [] s' [H _].
  - done.
Qed.

(** X12. Whatever the token sequence, the tree [parse] returns is the root
    node, of type [root] and without properties, over well-formed elements;
    and the console holds nothing or one error, that of the [expect] of a
    brace. *)
Theorem parse_tree_well_formed fuel tokens root console this' :
  parse fuel (new tokens) = Return (root, console) this' →
  ASTNode.type root = "root" ∧
  ASTNode.properties root = ∅ ∧
  Forall well_formed (ASTNode.children root) ∧
  (console = [] ∨
   ∃ error, console = [error] ∧ expected_type error = PUNCTUATION ∧
            (expected_value error = Some (js "{") ∨
             expected_value error = Some (js "}"))).
Proof.
  unfold parse. intros Hrun.
  pose proof (top_level_spec fuel (new tokens)) as Hspec. unfold ensures in Hspec.
  destruct (top_level fuel (new tokens)) as [[] s|error s|]; [| |done].
  - injection Hrun as <- <- _.
    destruct Hspec as (_ & Hty & Hprops & added & Hchildren & Hwf & _).
    split_and!; [done..| |by left]. by rewrite Hchildren.
  - injection Hrun as <- <- _.
    destruct Hspec as ((_ & Hty & Hprops & added & Hchildren & Hwf & _) & ? & ?).
    split_and!; [done..|by rewrite Hchildren|]. right. by exists error.
Qed.

Lemma parse_tree_well_formed_witness :
  ∃ root error this',
    parse 4 (new (tokens_of (js "part A { port p; } use case U { x"))) =
      Return (root, [error]) this' ∧
    ASTNode.type root = "root" ∧
    Forall well_formed (ASTNode.children root) ∧
    expected_type error = PUNCTUATION.
Proof.
  assert (∃ root error this',
            parse 4 (new (tokens_of (js "part A { port p; } use case U { x"))) =
              Return (root, [error]) this')
    as (root & error & this' & Hrun) by (do 3 eexists; vm_compute; reflexivity).
  exists root, error, this'. split; [exact Hrun|].
  destruct (parse_tree_well_formed _ _ _ _ _ Hrun)
    as (Hty & _ & Hwf & [[=]|(e & [= <-] & Hexpected & _)]).
  by split_and!.
Defined.

(** X13. For every text, in the tree [parse] returns on its token sequence
    every property of every node is a string, except [defaultValue], which
    is a string or a number: names and types are never numbers or [null]. *)
Theorem parse_text_textual text fuel root console this' :
  parse fuel (new (tokens_of text)) = Return (root, console) this' →
  Forall textual (ASTNode.children root).
Proof.
  unfold parse. intros Hrun.
  pose proof (top_level_spec fuel (new (tokens_of text))) as Hspec.
  unfold ensures in Hspec.
  pose proof (Lexing.tokens_of_well_typed text) as Htyped.
  destruct (top_level fuel (new (tokens_of text))) as [[] s|error s|]; [| |done].
  - injection Hrun as <- <- _.
    destruct Hspec as (_ & _ & _ & added & -> & _ & Htext). by apply Htext.
  - injection Hrun as <- <- _.
    destruct Hspec as ((_ & _ & _ & added & -> & _ & Htext) & _).
    by apply Htext.
Qed.

Lemma parse_text_textual_witness :
  ∃ root this',
    parse 4 (new (tokens_of (js "attribute mass : Real = 1500.0;"))) =
      Return (root, []) this' ∧
    Forall textual (ASTNode.children root).
Proof.
  assert (∃ root this',
            parse 4 (new (tokens_of (js "attribute mass : Real = 1500.0;"))) =
              Return (root, []) this')
    as (root & this' & Hrun) by (do 2 eexists; vm_compute; reflexivity).
  exists root, this'. split; [exact Hrun|].
  exact (parse_text_textual _ _ _ _ _ Hrun).
Defined.

(** **** A closing brace at the top level *)

Lemma brace_has_no_rule : ¬ has_own_rule (VStr (js "}")).
Proof.
  unfold has_own_rule. intros H. apply (bool_decide_pack _) in H.
  by vm_compute in H.
Qed.

Lemma parseElement_at_brace fuel this token :
  current this = Some token →
  Token.value token = VStr (js "}") →
  Token.type token ≠ EOF → Token.type token ≠ IDENTIFIER →
  parseElement (S fuel) this = Return (Some (ASTNode.new "generic")) this.
Proof.
  intros Hc Hvalue Heof Hid.
  rewrite (parseElement_generic fuel this token Hc Heof);
    [|intros _; rewrite Hvalue; apply brace_has_no_rule].
  unfold parseGenericElement. rewrite bind_get, Hc.
  assert (capture (is_type IDENTIFIER) "name" (ASTNode.new "generic") this =
            Return (ASTNode.new "generic") this) as Hcapture.
  { unfold capture. rewrite bind_get, Hc. unfold is_type.
    by rewrite bool_decide_false. }
  rewrite (bind_Return _ _ _ _ _ Hcapture).
  assert (skipped this = false) as Hskipped.
  { unfold skipped. rewrite Hc, Hvalue.
    by rewrite (bool_decide_false (VStr (js "}") ≠ VStr (js "}"))),
      andb_false_r by (by intros []). }
  rewrite (bind_Return _ _ _ _ _ (while_done fuel _ _ () this Hskipped)).
  assert (skip ";" this = Return () this) as Hskip.
  { unfold skip. rewrite bind_get. unfold value_is. rewrite Hc, Hvalue.
    by rewrite bool_decide_false. }
  by rewrite (bind_Return _ _ _ _ _ Hskip).
Qed.

Lemma top_level_stuck_at_brace n fuel this token :
  current this = Some token →
  Token.value token = VStr (js "}") →
  Token.type token ≠ EOF → Token.type token ≠ IDENTIFIER →
  while n more_elements (λ _, element_to_root fuel) () this = OutOfFuel.
Proof.
  intros Hc Hvalue Heof Hid. revert this Hc.
  induction n as [|n IH]; intros this Hc.
  - simpl. unfold more_elements. rewrite Hc. by rewrite bool_decide_true.
  - destruct fuel as [|fuel].
    { apply while_OutOfFuel; [|done].
      unfold more_elements. rewrite Hc. by rewrite bool_decide_true. }
    rewrite (top_level_next _ _ _ _ _
               (parseElement_at_brace fuel this token Hc Hvalue Heof Hid)).
    by apply IH.
Qed.

Lemma top_level_stuck_after this elements this2 :
  siblings this elements this2 →
  (∀ n fuel,
     while n more_elements (λ _, element_to_root fuel) () this2 = OutOfFuel) →
  ∀ n fuel,
    while n more_elements (λ _, element_to_root fuel) () this = OutOfFuel.
Proof.
  induction 1 as [this|this f element this1 elements this2 Hpe _ IH];
    intros Hstuck n fuel; [done|].
  assert (more_elements this = true) as Hmore
    by (apply (parseElement_more_elements f); eauto).
  destruct (parseElement fuel this) as [a s|e s|] eqn:Hrun.
  - assert (parseElement fuel this = parseElement f this) as Hsame.
    { destruct (Nat.le_ge_cases fuel f) as [Hle|Hle].
      - symmetry. apply parseElement_extends; [done|by rewrite Hrun].
      - apply parseElement_extends; [done|by rewrite Hpe]. }
    rewrite Hpe in Hsame. destruct n as [|n]; [simpl; by rewrite Hmore|].
    rewrite (top_level_next _ _ _ _ _ Hsame). by apply IH.
  - assert (parseElement fuel this = parseElement f this) as Hsame.
    { destruct (Nat.le_ge_cases fuel f) as [Hle|Hle].
      - symmetry. apply parseElement_extends; [done|by rewrite Hrun].
      - apply parseElement_extends; [done|by rewrite Hpe]. }
    congruence.
  - apply while_OutOfFuel; [done|].
    unfold element_to_root. by apply bind_OutOfFuel.
Qed.

(** X14. The generic rule never consumes a closing brace, and the loop of
    [parse] has nothing else to offer it to: once the elements before it are
    parsed, a token of text [}] met at the top level (a PUNCTUATION token,
    or any token but an IDENTIFIER) keeps [parse] adding generic nodes
    without moving, and [parse] never returns. *)
Theorem stray_brace_never_returns tokens elements this token :
  siblings (new tokens) elements this →
  current this = Some token →
  Token.value token = VStr (js "}") →
  Token.type token ≠ EOF → Token.type token ≠ IDENTIFIER →
  ∀ fuel, parse fuel (new tokens) = OutOfFuel.
Proof.
  intros Hsib Hc Hvalue Heof Hid fuel. unfold parse, top_level.
  rewrite (top_level_stuck_after _ _ _ Hsib); [done|].
  intros n F.
  by apply (top_level_stuck_at_brace n F this token).
Qed.

Lemma stray_brace_never_returns_witness :
  let tokens := tokens_of (js "port p; } port q;") in
  let brace := Token.mk PUNCTUATION (VStr (js "}")) 1 9 in
  ∃ elements this,
    siblings (new tokens) elements this ∧
    current this = Some brace ∧
    ∀ fuel, parse fuel (new tokens) = OutOfFuel.
Proof.
  intros tokens brace.
  set (port := ASTNode.set (ASTNode.new "port") "name" (VStr (js "p"))).
  set (this1 := mk tokens 3 (ASTNode.new "root")).
  assert (parseElement 1 (new tokens) = Return (Some port) this1) as Hport
    by (vm_compute; reflexivity).
  assert (siblings (new tokens) [port] (add_to_root this1 port)) as Hsib.
  { eapply siblings_cons; [exact Hport|apply siblings_nil]. }
  assert (current (add_to_root this1 port) = Some brace) as Hc
    by (vm_compute; reflexivity).
  exists [port], (add_to_root this1 port).
  split; [exact Hsib|]. split; [exact Hc|].
  exact (stray_brace_never_returns tokens [port] _ brace Hsib Hc eq_refl
           ltac:(done) ltac:(done)).
Defined.

(** **** How far the generic rule reads *)

Lemma parser_drop_current this :
  drop (position this) (tokens this) =
    match current this with
    | Some token => token :: drop (S (position this)) (tokens this)
    | None => []
    end.
Proof.
  unfold current. destruct (tokens this !! position this) as [token|] eqn:Hc.
  - by apply drop_S.
  - apply drop_ge. by apply lookup_ge_None.
Qed.

Lemma skipped_statement this :
  skipped this =
    match current this with
    | Some token => negb (ends_statement token)
    | None => false
    end.
Proof.
  unfold skipped, ends_statement. destruct (current this) as [token|]; [|done].
  by repeat case_bool_decide.
Qed.

Lemma skip_loop_exact fuel this :
  length (tokens this) - position this ≤ fuel →
  while fuel skipped (λ _, advance) () this =
    Return () (mk (tokens this)
                  (position this +
                   length (statement (drop (position this) (tokens this))))
                  (ast this)).
Proof.
  revert this. induction fuel as [|fuel IH]; intros this Hfuel.
  - rewrite while_done.
    + rewrite drop_ge by lia. simpl. rewrite Nat.add_0_r. by destruct this.
    + rewrite skipped_statement. unfold current.
      by rewrite (proj2 (lookup_ge_None _ _)) by lia.
  - pose proof (skipped_statement this) as Hskipped.
    rewrite (parser_drop_current this).
    destruct (current this) as [token|] eqn:Hc.
    + cbn [statement]. destruct (ends_statement token); simpl in Hskipped.
      * rewrite while_done by done. cbn [length].
        rewrite Nat.add_0_r. by destruct this.
      * rewrite (while_step _ _ _ _ _ () (next this) Hskipped eq_refl).
        apply lookup_lt_Some in Hc.
        rewrite IH by (simpl; lia). cbn [length next tokens position ast].
        rewrite Nat.add_1_r. f_equal. f_equal. lia.
    + rewrite while_done by done. cbn [statement length].
      rewrite Nat.add_0_r. by destruct this.
Qed.

(** X15. What the generic rule reads, token by token: an IDENTIFIER, if the
    statement starts with one, kept as the name; then every token up to the
    first whose text is [;] or [}], whatever the types of those tokens; then
    that token too if its text is [;].  The node has no other property and
    no child. *)
Theorem generic_extent fuel this token :
  current this = Some token →
  length (tokens this) - position this ≤ fuel →
  let named := is_type IDENTIFIER token in
  let node := if named
              then ASTNode.set (ASTNode.new "generic") "name" (Token.value token)
              else ASTNode.new "generic" in
  let from := position this + (if named then 1 else 0) in
  let stop := from + length (statement (drop from (tokens this))) in
  let after := stop + (if value_is (tokens this !! stop) ";" then 1 else 0) in
  parseGenericElement fuel this =
    Return (Some node) (mk (tokens this) after (ast this)).
Proof.
  intros Hc Hfuel named node from stop after.
  unfold parseGenericElement. rewrite bind_get, Hc.
  assert (capture (is_type IDENTIFIER) "name" (ASTNode.new "generic") this =
            Return node (mk (tokens this) from (ast this))) as Hcapture.
  { unfold capture. rewrite bind_get, Hc. subst node from. fold named.
    destruct named; [done|]. simpl. rewrite Nat.add_0_r. by destruct this. }
  rewrite (bind_Return _ _ _ _ _ Hcapture).
  rewrite (bind_Return _ _ _ _ _
             (skip_loop_exact fuel (mk (tokens this) from (ast this))
                ltac:(simpl; subst from; lia))).
  cbn [tokens position ast]. fold stop.
  assert (skip ";" (mk (tokens this) stop (ast this)) =
            Return () (mk (tokens this) after (ast this))) as Hskip.
  { unfold skip. rewrite bind_get. unfold current. cbn [tokens position].
    subst after. destruct (value_is _ _); [done|]. by rewrite Nat.add_0_r. }
  by rewrite (bind_Return _ _ _ _ _ Hskip).
Qed.

Lemma generic_extent_witness :
  let this := new (tokens_of (js "x = f(';') + 1; part A;")) in
  let token := Token.mk IDENTIFIER (VStr (js "x")) 1 1 in
  current this = Some token ∧
  length (tokens this) - position this ≤ 15 ∧
  parseGenericElement 15 this =
    Return (Some (ASTNode.set (ASTNode.new "generic") "name" (VStr (js "x"))))
           (mk (tokens this) 5 (ast this)).
Proof.
  intros this token.
  assert (current this = Some token) as Hc by (vm_compute; reflexivity).
  assert (length (tokens this) - position this ≤ 15) as Hfuel
    by (vm_compute; lia).
  split; [exact Hc|]. split; [exact Hfuel|].
  rewrite (generic_extent 15 this token Hc Hfuel). vm_compute. reflexivity.
Defined.

(** **** The rules on the forms they are written for *)

Lemma current_of_tokens this token rest :
  drop (position this) (tokens this) = token :: rest →
  current this = Some token ∧
  drop (position (next this)) (tokens (next this)) = rest.
Proof.
  rewrite parser_drop_current. simpl. rewrite Nat.add_1_r.
  destruct (current this); naive_solver.
Qed.

Lemma capture_taken test key node this token :
  current this = Some token → test token = true →
  capture test key node this =
    Return (ASTNode.set node key (Token.value token)) (next this).
Proof.
  intros Hc Htest. unfold capture. by rewrite bind_get, Hc, Htest.
Qed.

Lemma capture_left test key node this token :
  current this = Some token → test token = false →
  capture test key node this = Return node this.
Proof.
  intros Hc Htest. unfold capture. by rewrite bind_get, Hc, Htest.
Qed.

Lemma value_is_text this token text :
  current this = Some token → Token.value token = VStr (js text) →
  value_is (current this) text = true.
Proof. intros -> Hvalue. by apply bool_decide_eq_true. Qed.

Lemma parseElement_dedicated fuel this token rule :
  current this = Some token →
  Token.type token = KEYWORD →
  dedicated fuel (parseElement fuel) (Token.value token) = Some rule →
  parseElement (S fuel) this = (node ← rule; mret (Some node)) this.
Proof.
  intros Hc Htype Hrule. cbn [parseElement]. rewrite bind_get, Hc, Htype.
  by rewrite (bool_decide_false (KEYWORD = EOF)),
    (bool_decide_true (KEYWORD = KEYWORD)), Hrule.
Qed.

Lemma optional_capture_taken text test key node this separator token :
  current this = Some separator →
  Token.value separator = VStr (js text) →
  current (next this) = Some token → test token = true →
  (if value_is (current this) text
   then advance;; capture test key node
   else mret node) this =
    Return (ASTNode.set node key (Token.value token)) (next (next this)).
Proof.
  intros Hc Hvalue Hc' Htest.
  rewrite (value_is_text this separator text Hc Hvalue).
  rewrite (bind_Return _ _ this () (next this) eq_refl).
  by apply capture_taken.
Qed.

Lemma is_type_true type token :
  Token.type token = type → is_type type token = true.
Proof. intros H. by apply bool_decide_eq_true. Qed.

(** X16. The full form of an attribute, [attribute] name [:] type [=]
    value [;] with an IDENTIFIER for the name and for the type and a NUMBER
    or a STRING for the value, is read whole: the node has the three
    properties [name], [type] and [defaultValue], holding the payloads of
    the three tokens as they are, and the cursor is past the semicolon. *)
Theorem attribute_full_form fuel this keyword name colon type equals value
    semicolon rest :
  drop (position this) (tokens this) =
    keyword :: name :: colon :: type :: equals :: value :: semicolon :: rest →
  Token.type keyword = KEYWORD →
  Token.value keyword = VStr (js "attribute") →
  Token.type name = IDENTIFIER →
  Token.value colon = VStr (js ":") →
  Token.type type = IDENTIFIER →
  Token.value equals = VStr (js "=") →
  Token.type value = NUMBER ∨ Token.type value = STRING →
  Token.value semicolon = VStr (js ";") →
  parseElement (S fuel) this =
    Return
      (Some (ASTNode.mk "attribute"
               (<["defaultValue" := Token.value value]>
                  (<["type" := Token.value type]>
                     (<["name" := Token.value name]> ∅))) []))
      (mk (tokens this) (position this + 7) (ast this)).
Proof.
  intros Hdrop Hkw Hattribute Hname Hcolon Htype Hequals Hvalue Hsemicolon.
  apply current_of_tokens in Hdrop as [H0 Hdrop].
  apply current_of_tokens in Hdrop as [H1 Hdrop].
  apply current_of_tokens in Hdrop as [H2 Hdrop].
  apply current_of_tokens in Hdrop as [H3 Hdrop].
  apply current_of_tokens in Hdrop as [H4 Hdrop].
  apply current_of_tokens in Hdrop as [H5 Hdrop].
  apply current_of_tokens in Hdrop as [H6 _].
  set (s1 := next this) in *. set (s2 := next s1) in *.
  set (s3 := next s2) in *. set (s4 := next s3) in *.
  set (s5 := next s4) in *. set (s6 := next s5) in *.
  set (n1 := ASTNode.set (ASTNode.new "attribute") "name" (Token.value name)).
  set (n2 := ASTNode.set n1 "type" (Token.value type)).
  set (n3 := ASTNode.set n2 "defaultValue" (Token.value value)).
  pose proof (expect_Return KEYWORD "attribute" this keyword H0 Hkw Hattribute)
    as Hexpect.
  pose proof (capture_taken (is_type IDENTIFIER) "name"
                (ASTNode.new "attribute") s1 name H1
                (is_type_true _ _ Hname)) as Hcapture.
  pose proof (optional_capture_taken ":" (is_type IDENTIFIER) "type" n1 s2
                colon type H2 Hcolon H3 (is_type_true _ _ Htype)) as Htyped.
  assert (is_type NUMBER value || is_type STRING value = true) as Hliteral.
  { apply orb_true_iff. destruct Hvalue; [left|right]; by apply is_type_true. }
  pose proof (optional_capture_taken "="
                (λ token, is_type NUMBER token || is_type STRING token)
                "defaultValue" n2 s4 equals value H4 Hequals H5 Hliteral)
    as Hdefault.
  assert (skip ";" s6 = Return () (next s6)) as Hskip.
  { unfold skip. by rewrite bind_get, (value_is_text s6 semicolon ";"). }
  rewrite (parseElement_dedicated fuel this keyword parseAttribute H0 Hkw)
    by (by rewrite Hattribute).
  assert (parseAttribute this = Return n3 (next s6)) as Hrun.
  { unfold parseAttribute.
    rewrite (bind_Return _ _ _ _ _ Hexpect), (bind_Return _ _ _ _ _ Hcapture).
    rewrite bind_get, (bind_Return _ _ _ _ _ Htyped).
    rewrite bind_get, (bind_Return _ _ _ _ _ Hdefault).
    by rewrite (bind_Return _ _ _ _ _ Hskip). }
  rewrite (bind_Return _ _ _ _ _ Hrun).
  unfold mret, M_ret, next. simpl. do 2 f_equal. lia.
Qed.

Lemma attribute_full_form_witness :
  let this := new (tokens_of (js "attribute mass : Real = 1500.0; port p;")) in
  ∃ rest,
    drop (position this) (tokens this) =
      Token.mk KEYWORD (VStr (js "attribute")) 1 1 ::
      Token.mk IDENTIFIER (VStr (js "mass")) 1 11 ::
      Token.mk PUNCTUATION (VStr (js ":")) 1 16 ::
      Token.mk IDENTIFIER (VStr (js "Real")) 1 18 ::
      Token.mk OPERATOR (VStr (js "=")) 1 23 ::
      Token.mk NUMBER (VNum (js "1500.0")) 1 25 ::
      Token.mk PUNCTUATION (VStr (js ";")) 1 31 :: rest ∧
    parseElement 1 this =
      Return
        (Some (ASTNode.mk "attribute"
                 (<["defaultValue" := VNum (js "1500.0")]>
                    (<["type" := VStr (js "Real")]>
                       (<["name" := VStr (js "mass")]> ∅))) []))
        (mk (tokens this) 7 (ast this)).
Proof.
  intros this.
  assert (∃ rest, drop (position this) (tokens this) =
      Token.mk KEYWORD (VStr (js "attribute")) 1 1 ::
      Token.mk IDENTIFIER (VStr (js "mass")) 1 11 ::
      Token.mk PUNCTUATION (VStr (js ":")) 1 16 ::
      Token.mk IDENTIFIER (VStr (js "Real")) 1 18 ::
      Token.mk OPERATOR (VStr (js "=")) 1 23 ::
      Token.mk NUMBER (VNum (js "1500.0")) 1 25 ::
      Token.mk PUNCTUATION (VStr (js ";")) 1 31 :: rest)
    as [rest Hdrop] by (eexists; vm_compute; reflexivity).
  exists rest. split; [exact Hdrop|].
  exact (attribute_full_form 0 this _ _ _ _ _ _ _ rest Hdrop eq_refl eq_refl
           eq_refl eq_refl eq_refl eq_refl (or_introl eq_refl) eq_refl).
Defined.

(** **** Blocks that are closed *)

Lemma body_members this elements this' close :
  members this elements this' →
  current this' = Some close → Token.value close = VStr (js "}") →
  ∃ fuel, ∀ n m node, fuel ≤ n → fuel ≤ m →
    body n (parseElement m) node this =
      Return (ASTNode.mk (ASTNode.type node) (ASTNode.properties node)
                (ASTNode.children node ++ elements)) this'.
Proof.
  intros Hmembers Hclose Hbrace.
  induction Hmembers
    as [this|this token fuel element this1 elements this2 Hc Hvalue Hpe _ IH].
  - exists 0. intros n m [type properties children] _ _. unfold body.
    rewrite while_done by (by rewrite Hclose, Hbrace, bool_decide_false by tauto).
    simpl. by rewrite app_nil_r.
  - destruct (IH Hclose) as [fuel1 Hbody]. exists (S (fuel `max` fuel1)).
    intros n m node Hn Hm. destruct n as [|n]; [lia|].
    assert (parseElement m this = Return (Some element) this1) as Hpe'.
    { rewrite <- Hpe. apply parseElement_more_fuel; [lia|]. by rewrite Hpe. }
    rewrite (body_next n _ node this token element this1 Hc Hvalue Hpe').
    rewrite Hbody by lia. simpl. by rewrite <- app_assoc.
Qed.

Lemma block_members node this open elements this' close :
  current this = Some open →
  Token.type open = PUNCTUATION → Token.value open = VStr (js "{") →
  members (next this) elements this' →
  current this' = Some close →
  Token.type close = PUNCTUATION → Token.value close = VStr (js "}") →
  ∃ fuel, ∀ n, fuel ≤ n →
    block n (parseElement n) node this =
      Return (ASTNode.mk (ASTNode.type node) (ASTNode.properties node)
                (ASTNode.children node ++ elements)) (next this').
Proof.
  intros Hopen Hpunctuation Hbrace Hmembers Hclose Hpunctuation' Hbrace'.
  destruct (body_members _ _ _ _ Hmembers Hclose Hbrace') as [fuel Hbody].
  exists fuel. intros n Hn. unfold block.
  rewrite (bind_Return _ _ _ _ _
             (expect_Return PUNCTUATION "{" this open Hopen Hpunctuation Hbrace)).
  rewrite (bind_Return _ _ _ _ _ (Hbody n n node Hn Hn)).
  by rewrite (bind_Return _ _ _ _ _
                (expect_Return PUNCTUATION "}" this' close Hclose Hpunctuation'
                   Hbrace')).
Qed.

Lemma value_is_another this token text text' :
  current this = Some token → Token.value token = VStr (js text) →
  js text ≠ js text' →
  value_is (current this) text' = false.
Proof.
  intros -> Hvalue Hne. apply bool_decide_eq_false. rewrite Hvalue. congruence.
Qed.

(** X17. A block that is closed.  When the current token is one of the
    keywords [package], [part] and [requirement], followed by an IDENTIFIER,
    an opening brace, the elements the body loop reads one after the other
    (see [members]) and a closing brace, [parseElement] (given enough fuel)
    returns the node of the keyword's type whose only property is the name
    and whose children are exactly those elements, in the order they were
    read, and leaves the cursor just past the closing brace. *)
Theorem closed_block this word keyword name open elements this' close :
  word ∈ ["package"; "part"; "requirement"] →
  current this = Some keyword →
  Token.type keyword = KEYWORD → Token.value keyword = VStr (js word) →
  current (next this) = Some name → Token.type name = IDENTIFIER →
  current (next (next this)) = Some open →
  Token.type open = PUNCTUATION → Token.value open = VStr (js "{") →
  members (next (next (next this))) elements this' →
  current this' = Some close →
  Token.type close = PUNCTUATION → Token.value close = VStr (js "}") →
  ∃ fuel, ∀ n, fuel ≤ n →
    parseElement n this =
      Return
        (Some (ASTNode.mk word (<["name" := Token.value name]> ∅) elements))
        (next this').
Proof.
  intros Hword Hkeyword Hkw Hvalue Hname Hidentifier Hopen Hpunctuation Hbrace
    Hmembers Hclose Hpunctuation' Hbrace'.
  set (node := ASTNode.set (ASTNode.new word) "name" (Token.value name)).
  destruct (block_members node _ _ _ _ _ Hopen Hpunctuation Hbrace Hmembers
              Hclose Hpunctuation' Hbrace') as [fuel Hblock].
  exists (S fuel). intros n Hn. destruct n as [|n]; [lia|].
  pose proof (Hblock n ltac:(lia)) as Hrun. clear Hblock.
  pose proof (expect_Return KEYWORD word this keyword Hkeyword Hkw Hvalue)
    as Hexpect.
  pose proof (capture_taken (is_type IDENTIFIER) "name" (ASTNode.new word)
                (next this) name Hname (is_type_true _ _ Hidentifier))
    as Hcapture.
  pose proof (value_is_text _ _ _ Hopen Hbrace) as Hbraced.
  rewrite !elem_of_cons, elem_of_nil in Hword.
  destruct Hword as [->|[->|[->|[]]]].
  - rewrite (parseElement_dedicated n this keyword
               (parsePackage n (parseElement n)) Hkeyword Hkw)
      by (by rewrite Hvalue).
    assert (parsePackage n (parseElement n) this = Return
              (ASTNode.mk "package" (<["name" := Token.value name]> ∅) elements)
              (next this')) as Hrule.
    { unfold parsePackage.
      rewrite (bind_Return _ _ _ _ _ Hexpect), (bind_Return _ _ _ _ _ Hcapture).
      rewrite bind_get, Hbraced. exact Hrun. }
    by rewrite (bind_Return _ _ _ _ _ Hrule).
  - rewrite (parseElement_dedicated n this keyword
               (parsePart n (parseElement n)) Hkeyword Hkw)
      by (by rewrite Hvalue).
    assert (parsePart n (parseElement n) this = Return
              (ASTNode.mk "part" (<["name" := Token.value name]> ∅) elements)
              (next this')) as Hrule.
    { unfold parsePart.
      rewrite (bind_Return _ _ _ _ _ Hexpect), (bind_Return _ _ _ _ _ Hcapture).
      rewrite bind_get.
      rewrite (value_is_another _ _ "{" "specializes" Hopen Hbrace) by done.
      rewrite bind_ret, bind_get, Hbraced. exact Hrun. }
    by rewrite (bind_Return _ _ _ _ _ Hrule).
  - rewrite (parseElement_dedicated n this keyword
               (parseRequirement n (parseElement n)) Hkeyword Hkw)
      by (by rewrite Hvalue).
    assert (parseRequirement n (parseElement n) this = Return
              (ASTNode.mk "requirement" (<["name" := Token.value name]> ∅)
                 elements)
              (next this')) as Hrule.
    { unfold parseRequirement.
      rewrite (bind_Return _ _ _ _ _ Hexpect), (bind_Return _ _ _ _ _ Hcapture).
      rewrite bind_get, Hbraced. exact Hrun. }
    by rewrite (bind_Return _ _ _ _ _ Hrule).
Qed.

Lemma closed_block_witness :
  let tokens := tokens_of (js "package P { part A; port p; }") in
  ∃ fuel, ∀ n, fuel ≤ n →
    parseElement n (new tokens) =
      Return
        (Some (ASTNode.mk "package" (<["name" := VStr (js "P")]> ∅)
                 [ASTNode.mk "part" (<["name" := VStr (js "A")]> ∅) [];
                  ASTNode.mk "port" (<["name" := VStr (js "p")]> ∅) []]))
        (mk tokens 10 (ASTNode.new "root")).
Proof.
  set (root := ASTNode.new "root").
  set (part := ASTNode.mk "part" (<["name" := VStr (js "A")]> ∅) []).
  set (port := ASTNode.mk "port" (<["name" := VStr (js "p")]> ∅) []).
  set (keyword := Token.mk KEYWORD (VStr (js "package")) 1 1).
  set (name := Token.mk IDENTIFIER (VStr (js "P")) 1 9).
  set (open := Token.mk PUNCTUATION (VStr (js "{")) 1 11).
  set (close := Token.mk PUNCTUATION (VStr (js "}")) 1 29).
  assert (∀ tokens,
            current (new tokens) = Some keyword →
            current (next (new tokens)) = Some name →
            current (next (next (new tokens))) = Some open →
            members (mk tokens 3 root) [part; port] (mk tokens 9 root) →
            current (mk tokens 9 root) = Some close →
            ∃ fuel, ∀ n, fuel ≤ n →
              parseElement n (new tokens) =
                Return
                  (Some (ASTNode.mk "package" (<["name" := VStr (js "P")]> ∅)
                           [part; port]))
                  (mk tokens 10 root)) as Hgiven.
  { intros tokens H0 H1 H2 Hmembers H9.
    exact (closed_block (new tokens) "package" keyword name open [part; port]
             (mk tokens 9 root) close ltac:(set_solver) H0 eq_refl eq_refl H1
             eq_refl H2 eq_refl eq_refl Hmembers H9 eq_refl eq_refl). }
  intros tokens. apply (Hgiven tokens); try (vm_compute; reflexivity).
  apply (members_cons _ (Token.mk KEYWORD (VStr (js "part")) 1 13) 1 part
           (mk tokens 6 root));
    [vm_compute; reflexivity|by vm_compute|vm_compute; reflexivity|].
  apply (members_cons _ (Token.mk KEYWORD (VStr (js "port")) 1 21) 1 port
           (mk tokens 9 root));
    [vm_compute; reflexivity|by vm_compute|vm_compute; reflexivity|].
  apply members_nil.
Defined.

(** **** A keyword on its own *)

Lemma skip_left text this :
  value_is (current this) text = false → skip text this = Return () this.
Proof. intros Hvalue. unfold skip. by rewrite bind_get, Hvalue. Qed.

(** X18. Everything after the keyword is optional in each of the seven
    rules.  When the current token is a keyword with a rule of its own and
    the token after it is no IDENTIFIER and has none of the texts the rules
    look for ([case], [specializes], [{], [:], [=], [;]), [parseElement]
    returns the bare node of the type the rule builds ([usecase] for [use]),
    without properties or children, having consumed the keyword alone: no
    rule throws there. *)
Theorem bare_keyword fuel this word type keyword follower :
  (word, type) ∈ rule_table →
  current this = Some keyword →
  Token.type keyword = KEYWORD → Token.value keyword = VStr (js word) →
  current (next this) = Some follower →
  Token.type follower ≠ IDENTIFIER →
  Token.value follower ∉
    (λ text, VStr (js text)) <$> ["case"; "specializes"; "{"; ":"; "="; ";"] →
  parseElement (S fuel) this = Return (Some (ASTNode.new type)) (next this).
Proof.
  intros Hrule Hc Hkw Hvalue Hfollower Hnot Hother.
  assert (∀ text, text ∈ ["case"; "specializes"; "{"; ":"; "="; ";"] →
            value_is (current (next this)) text = false) as Hno.
  { intros text Hin. rewrite Hfollower. apply bool_decide_eq_false.
    intros Heq. apply Hother. rewrite Heq.
    by apply (list_elem_of_fmap_2 (λ text, VStr (js text))). }
  assert (∀ key node, capture (is_type IDENTIFIER) key node (next this) =
                        Return node (next this)) as Hcapture.
  { intros key node. apply (capture_left _ _ _ _ follower Hfollower).
    by apply bool_decide_eq_false. }
  pose proof (expect_Return KEYWORD word this keyword Hc Hkw Hvalue)
    as Hexpect.
  assert (∀ rule,
            dedicated fuel (parseElement fuel) (Token.value keyword) =
              Some rule →
            rule this = Return (ASTNode.new type) (next this) →
            parseElement (S fuel) this =
              Return (Some (ASTNode.new type)) (next this)) as Hby.
  { intros rule Hdedicated Hrun.
    rewrite (parseElement_dedicated fuel this keyword rule Hc Hkw Hdedicated).
    by rewrite (bind_Return _ _ _ _ _ Hrun). }
  unfold rule_table in Hrule. rewrite !elem_of_cons, elem_of_nil in Hrule.
  destruct Hrule as [Hrule|[Hrule|[Hrule|[Hrule|[Hrule|[Hrule|[Hrule|[]]]]]]]];
    injection Hrule as -> ->.
  - apply (Hby (parsePackage fuel (parseElement fuel)));
      [by rewrite Hvalue|].
    unfold parsePackage.
    rewrite (bind_Return _ _ _ _ _ Hexpect),
      (bind_Return _ _ _ _ _ (Hcapture _ _)), bind_get.
    by rewrite Hno by set_solver.
  - apply (Hby (parsePart fuel (parseElement fuel)));
      [by rewrite Hvalue|].
    unfold parsePart.
    rewrite (bind_Return _ _ _ _ _ Hexpect),
      (bind_Return _ _ _ _ _ (Hcapture _ _)), bind_get.
    rewrite Hno by set_solver. rewrite bind_ret, bind_get.
    by rewrite !Hno by set_solver.
  - apply (Hby parseAttribute); [by rewrite Hvalue|].
    unfold parseAttribute.
    rewrite (bind_Return _ _ _ _ _ Hexpect),
      (bind_Return _ _ _ _ _ (Hcapture _ _)), bind_get.
    rewrite Hno by set_solver. rewrite bind_ret, bind_get.
    rewrite Hno by set_solver. rewrite bind_ret.
    by rewrite (bind_Return _ _ _ _ _ (skip_left ";" _ (Hno ";" ltac:(set_solver)))).
  - apply (Hby parsePort); [by rewrite Hvalue|].
    unfold parsePort.
    rewrite (bind_Return _ _ _ _ _ Hexpect),
      (bind_Return _ _ _ _ _ (Hcapture _ _)), bind_get.
    rewrite Hno by set_solver. rewrite bind_ret.
    by rewrite (bind_Return _ _ _ _ _ (skip_left ";" _ (Hno ";" ltac:(set_solver)))).
  - apply (Hby parseConnection); [by rewrite Hvalue|].
    unfold parseConnection.
    rewrite (bind_Return _ _ _ _ _ Hexpect),
      (bind_Return _ _ _ _ _ (Hcapture _ _)), bind_get.
    rewrite Hno by set_solver. rewrite bind_ret.
    by rewrite (bind_Return _ _ _ _ _ (skip_left ";" _ (Hno ";" ltac:(set_solver)))).
  - apply (Hby (parseRequirement fuel (parseElement fuel)));
      [by rewrite Hvalue|].
    unfold parseRequirement.
    rewrite (bind_Return _ _ _ _ _ Hexpect),
      (bind_Return _ _ _ _ _ (Hcapture _ _)), bind_get.
    by rewrite Hno by set_solver.
  - apply (Hby (parseUseCase fuel (parseElement fuel)));
      [by rewrite Hvalue|].
    unfold parseUseCase.
    rewrite (bind_Return _ _ _ _ _ Hexpect).
    rewrite (bind_Return _ _ _ _ _
               (skip_left "case" _ (Hno "case" ltac:(set_solver)))).
    rewrite (bind_Return _ _ _ _ _ (Hcapture _ _)), bind_get.
    by rewrite Hno by set_solver.
Qed.

Lemma bare_keyword_witness :
  let tokens := tokens_of (js "use") in
  parseElement 1 (new tokens) =
    Return (Some (ASTNode.new "usecase")) (mk tokens 1 (ASTNode.new "root")).
Proof.
  set (keyword := Token.mk KEYWORD (VStr (js "use")) 1 1).
  set (follower := Token.mk EOF VNull 1 4).
  assert (∀ tokens,
            current (new tokens) = Some keyword →
            current (next (new tokens)) = Some follower →
            parseElement 1 (new tokens) =
              Return (Some (ASTNode.new "usecase"))
                     (mk tokens 1 (ASTNode.new "root"))) as Hgiven.
  { intros tokens H0 H1.
    apply (bare_keyword 0 (new tokens) "use" "usecase" keyword follower);
      [unfold rule_table; set_solver|exact H0|reflexivity|reflexivity
      |exact H1|discriminate|].
    intros Hin. apply (bool_decide_pack _) in Hin. by vm_compute in Hin. }
  intros tokens. apply (Hgiven tokens); vm_compute; reflexivity.
Defined.

End Parsing.

(** ** The selection test of astToSVG *)

Lemma strict_equal_true (a b : option Value) :
  (∀ lexeme, a ≠ Some (VNum lexeme)) →
  strict_equal a b = Some true ↔ b = a.
Proof.
  intros Hnum.
  destruct a as [[s|l|]|], b as [[s'|l'|]|]; simpl; try by split.
  - rewrite bool_decide_decide. destruct (decide (s = s')); naive_solver.
  - by destruct (Hnum l).
Qed.

(** C9, as the code has it.  A node is drawn as the selected one exactly
    when its [properties.name] is that of the selected node (both absent
    counts as equal); the names the parser stores are strings, never
    Numbers.  The type of the node has no part in the test: two nodes with
    the same name get the same answer. *)
Theorem selection_by_name_alone (selectedNode astNode : ASTNode) :
  (∀ lexeme,
     ASTNode.properties selectedNode !! "name" ≠ Some (VNum lexeme)) →
  (isSelected (Some selectedNode) astNode = Some true ↔
   ASTNode.properties astNode !! "name" =
     ASTNode.properties selectedNode !! "name") ∧
  (∀ other,
     ASTNode.properties other !! "name" = ASTNode.properties astNode !! "name" →
     isSelected (Some selectedNode) other =
       isSelected (Some selectedNode) astNode).
Proof.
  intros Hnum. split.
  - unfold isSelected. simpl. by apply strict_equal_true.
  - intros other Hname. unfold isSelected. by rewrite Hname.
Qed.

Lemma selection_by_name_alone_witness :
  let engine_part := ASTNode.set (ASTNode.new "part") "name" (VStr (js "Engine")) in
  let engine_port := ASTNode.set (ASTNode.new "port") "name" (VStr (js "Engine")) in
  (∀ lexeme,
     ASTNode.properties engine_part !! "name" ≠ Some (VNum lexeme)) ∧
  isSelected (Some engine_part) engine_port = Some true.
Proof.
  intros engine_part engine_port.
  assert (∀ lexeme,
            ASTNode.properties engine_part !! "name" ≠ Some (VNum lexeme))
    as Hnum by (by intros lexeme).
  split; [exact Hnum|].
  by apply (proj1 (selection_by_name_alone engine_part engine_port Hnum)).
Defined.

(** The test does not compare the pair (type, name): a port is drawn as
    selected when the selected node is a part of the same name. *)
Lemma selection_ignores_type :
  ¬ (∀ selectedNode astNode : ASTNode,
       isSelected (Some selectedNode) astNode = Some true ↔
       ASTNode.type astNode = ASTNode.type selectedNode ∧
       ASTNode.properties astNode !! "name" =
         ASTNode.properties selectedNode !! "name").
Proof.
  intros H.
  destruct (H (ASTNode.set (ASTNode.new "part") "name" (VStr (js "Engine")))
              (ASTNode.set (ASTNode.new "port") "name" (VStr (js "Engine"))))
    as [Hselected _].
  by destruct Hselected as [Htype _].
Qed.

(** ** The drawing *)

Module Rendering.

Lemma fold_left_count (f : ASTNode → nat) nodes n :
  fold_left (λ sum child, sum + f child) nodes n = n + sum_list (f <$> nodes).
Proof.
  revert n. induction nodes as [|node nodes IH]; intros n; [simpl; lia|].
  rewrite fmap_cons. cbn [fold_left sum_list]. rewrite IH. unfold id. lia.
Qed.

Lemma length_flat_map_sum {A B} (f : A → list B) (l : list A) :
  length (flat_map f l) = sum_list ((λ x, length (f x)) <$> l).
Proof.
  induction l as [|x l IH]; [done|].
  rewrite fmap_cons. cbn [flat_map sum_list]. rewrite length_app, IH.
  by unfold id.
Qed.

Lemma sum_list_fmap_Forall {A} (f g : A → nat) (l : list A) :
  Forall (λ x, f x = g x) l → sum_list (f <$> l) = sum_list (g <$> l).
Proof.
  induction 1 as [|x l Hx _ IH]; [done|].
  rewrite !fmap_cons. cbn [sum_list]. by rewrite Hx, IH.
Qed.

Lemma sum_list_fmap_ge {A} (f : A → nat) (l : list A) :
  (∀ x, 1 ≤ f x) → length l ≤ sum_list (f <$> l).
Proof.
  intros Hf. induction l as [|x l IH]; [done|].
  rewrite fmap_cons. cbn [sum_list length]. unfold id in *.
  specialize (Hf x). lia.
Qed.

Lemma sum_list_fmap_pred {A} (f : A → nat) (l : list A) :
  (∀ x, 1 ≤ f x) →
  sum_list ((λ x, f x - 1) <$> l) = sum_list (f <$> l) - length l.
Proof.
  intros Hf. induction l as [|x l IH]; [done|].
  rewrite !fmap_cons. cbn [sum_list length]. rewrite IH.
  pose proof (sum_list_fmap_ge f l Hf). specialize (Hf x). unfold id in *. lia.
Qed.

Lemma countChildren_preorder node : countChildren node = length (preorder node).
Proof.
  induction node as [type properties children IH] using ASTNode_nested_ind.
  cbn [countChildren preorder ASTNode.children length].
  rewrite fold_left_count, length_flat_map_sum. f_equal.
  by apply sum_list_fmap_Forall.
Qed.

Lemma totalNodes_preorder ast :
  totalNodes (Some ast) = length (flat_map preorder (ASTNode.children ast)).
Proof.
  unfold totalNodes. rewrite fold_left_count, length_flat_map_sum.
  cbn [Nat.add]. apply sum_list_fmap_Forall, Forall_forall.
  intros child _. apply countChildren_preorder.
Qed.

Lemma preorder_length node : 1 ≤ length (preorder node).
Proof. destruct node. simpl. lia. Qed.

Lemma adds_nil parent drawing : adds [] 0 parent drawing drawing.
Proof.
  exists [], []. destruct drawing as [nodeId elements connections]. simpl.
  rewrite !app_nil_r, Nat.add_0_r. by repeat split.
Qed.

Lemma joins_wider parent first last first' last' l :
  first' ≤ first → last ≤ last' →
  joins parent first last l → joins parent first' last' l.
Proof. unfold joins. intros ? ? [? ?]. split; [lia|done]. Qed.

Lemma adds_app nodes nodes' lines lines' parent drawing drawing1 drawing2 :
  adds nodes lines parent drawing drawing1 →
  adds nodes' lines' parent drawing1 drawing2 →
  adds (nodes ++ nodes') (lines + lines') parent drawing drawing2.
Proof.
  intros (es & ls & -> & Hkeys & Hnodes & Hlines & Hjoins)
         (es' & ls' & -> & Hkeys' & Hnodes' & Hlines' & Hjoins').
  simpl in *. exists (es ++ es'), (ls ++ ls').
  rewrite !length_app, !fmap_app, !app_assoc, Nat.add_assoc.
  rewrite seq_app, Hkeys, Hkeys', Hnodes, Hnodes', Hlines, Hlines'.
  repeat split. apply Forall_app. split.
  - eapply Forall_impl; [|exact Hjoins]. intros l. apply joins_wider; lia.
  - eapply Forall_impl; [|exact Hjoins']. intros l. apply joins_wider; lia.
Qed.

Lemma adds_under parent nodes lines p drawing drawing' :
  p < Drawing.nodeId drawing →
  adds nodes lines (Some p) drawing drawing' →
  adds nodes lines parent drawing drawing'.
Proof.
  intros Hp (es & ls & -> & Hkeys & Hnodes & Hlines & Hjoins).
  exists es, ls. repeat split; try done.
  eapply Forall_impl; [|exact Hjoins]. intros l [Hl [Hlt|[= Heq]]].
  - split; [done|]. by left.
  - split; [done|]. left. lia.
Qed.

Lemma forEach_adds process gap per_row step left lines parent children :
  Forall (λ child, ∀ x y drawing,
            adds (preorder child) (lines child) parent drawing
                 (process child x y drawing)) children →
  ∀ index childX childY drawing,
    adds (flat_map preorder children) (sum_list (lines <$> children)) parent
      drawing
      (forEach process gap per_row step left children index childX childY
         drawing).
Proof.
  induction 1 as [|child children Hchild _ IH];
    intros index childX childY drawing; simpl.
  - apply adds_nil.
  - destruct (bool_decide (0 < index) && bool_decide (index mod per_row = 0));
      (eapply adds_app; [apply Hchild|apply IH]).
Qed.

Lemma processNode_adds selectedNode astNode :
  ∀ (parentPos : option Pos.t) x y level drawing,
    adds (preorder astNode)
      (length (preorder astNode) - (if parentPos is Some _ then 0 else 1))
      (Pos.id <$> parentPos) drawing
      (processNode selectedNode astNode parentPos x y level drawing).
Proof.
  induction astNode as [type properties children IH] using ASTNode_nested_ind.
  intros parentPos x y level drawing.
  cbn [processNode preorder ASTNode.children].
  set (node := ASTNode.mk type properties children).
  set (nodePos := Pos.mk x y (node_width node) (node_height node)
                    (Drawing.nodeId drawing)).
  set (drawing1 := Drawing.mk _ _ _).
  assert (adds [node] (if parentPos is Some _ then 1 else 0) (Pos.id <$> parentPos)
            drawing drawing1) as Hnode.
  { unfold drawing1. eexists [_], _. split; [|split; [|split; [|split]]].
    - rewrite Nat.add_1_r. f_equal.
      instantiate (1 := match parentPos with Some _ => [_] | None => [] end).
      destruct parentPos; [reflexivity|by rewrite app_nil_r].
    - done.
    - done.
    - by destruct parentPos.
    - destruct parentPos as [parentPos|]; [|done].
      apply Forall_singleton. split; simpl; [lia|by right]. }
  replace (length (node :: flat_map preorder children) -
             (if parentPos is Some _ then 0 else 1))
    with ((if parentPos is Some _ then 1 else 0) +
          sum_list ((λ child, length (preorder child)) <$> children))
    by (cbn [length]; rewrite length_flat_map_sum; destruct parentPos; lia).
  apply (adds_app [node] _ _ _ _ _ drawing1); [exact Hnode|].
  apply (adds_under _ _ _ (Drawing.nodeId drawing)); [simpl; lia|].
  apply (forEach_adds _ _ _ _ _ (λ child, length (preorder child))
           (Some (Drawing.nodeId drawing))).
  eapply Forall_impl; [|exact IH]. intros child Hchild x' y' drawing'.
  specialize (Hchild (Some nodePos) x' y' (level + 1) drawing').
  rewrite Nat.sub_0_r in Hchild. exact Hchild.
Qed.

Lemma astToSVG_adds ast selectedNode :
  adds (flat_map preorder (ASTNode.children ast))
    (totalNodes (Some ast) - length (ASTNode.children ast)) None
    (Drawing.mk 0 [] [])
    (Drawing.mk (totalNodes (Some ast)) (astToSVG ast selectedNode).1
       (astToSVG ast selectedNode).2).
Proof.
  unfold astToSVG. cbn [fst snd].
  set (process := λ child rootX rootY,
         processNode selectedNode child None rootX rootY 0).
  pose proof (forEach_adds process 100 2 300 (Some 50)
                (λ child, length (preorder child) - 1) None
                (ASTNode.children ast)) as Hall.
  destruct (Hall ltac:(apply Forall_forall; intros child _ x y drawing;
                        apply (processNode_adds selectedNode child None))
              0 (Some 50) 50 (Drawing.mk 0 [] []))
    as (es & ls & Heq & Hkeys & Hnodes & Hlines & Hjoins).
  rewrite Heq. cbn [Drawing.elements Drawing.connections Drawing.nodeId] in *.
  exists es, ls. rewrite totalNodes_preorder.
  repeat split; try done. rewrite Hlines, length_flat_map_sum.
  apply sum_list_fmap_pred. intros child. apply preorder_length.
Qed.

(** X19. Every node below the root is drawn once, and the elements carry
    the keys [node-0], [node-1], ... in the order they were pushed: as many
    as [totalNodes] counts, so no two elements share a key. *)
Theorem astToSVG_keys ast selectedNode :
  NodeComponent.key <$> (astToSVG ast selectedNode).1 =
    seq 0 (totalNodes (Some ast)).
Proof.
  destruct (astToSVG_adds ast selectedNode)
    as (es & ls & Heq & Hkeys & _).
  apply (f_equal Drawing.elements) in Heq.
  cbn [Drawing.nodeId Drawing.elements app] in *.
  rewrite Heq, totalNodes_preorder. exact Hkeys.
Qed.

(** X20. The elements are pushed parents first: the nodes they show are
    the children of the root, each followed by all the nodes under it,
    in the order of the tree. *)
Theorem astToSVG_preorder ast selectedNode :
  NodeComponent.node <$> (astToSVG ast selectedNode).1 =
    flat_map preorder (ASTNode.children ast).
Proof.
  destruct (astToSVG_adds ast selectedNode)
    as (es & ls & Heq & _ & Hnodes & _).
  apply (f_equal Drawing.elements) in Heq. cbn [Drawing.elements app] in Heq.
  rewrite Heq. exact Hnodes.
Qed.

(** X21. There is one line for each node that is not a child of the root,
    and every line goes from an element pushed earlier to the one it was
    pushed for: its key names two elements that exist, the smaller number
    first. *)
Theorem astToSVG_connections ast selectedNode :
  length (astToSVG ast selectedNode).2 + length (ASTNode.children ast) =
    totalNodes (Some ast) ∧
  Forall (λ l, (Line.key l).1 < (Line.key l).2 < totalNodes (Some ast))
    (astToSVG ast selectedNode).2.
Proof.
  destruct (astToSVG_adds ast selectedNode)
    as (es & ls & Heq & _ & _ & Hlines & Hjoins).
  apply (f_equal Drawing.connections) in Heq.
  cbn [Drawing.nodeId Drawing.connections app] in *.
  rewrite Heq. split.
  - rewrite Hlines, (totalNodes_preorder ast), length_flat_map_sum.
    pose proof (sum_list_fmap_ge (λ child, length (preorder child))
                  (ASTNode.children ast) preorder_length).
    lia.
  - eapply Forall_impl; [|exact Hjoins]. intros l [Hl [Hlt|[=]]].
    rewrite <- totalNodes_preorder in Hl. lia.
Qed.

(** *** Where the nodes are put *)

Lemma wraps_S per_row n :
  0 < per_row →
  (S n - 1) / per_row =
    (n - 1) / per_row +
    (if bool_decide (0 < n) && bool_decide (n mod per_row = 0) then 1 else 0).
Proof.
  intros Hp. destruct n as [|m].
  - rewrite bool_decide_false by lia. simpl. by rewrite Nat.Div0.div_0_l.
  - rewrite bool_decide_true by lia. cbn [andb].
    replace (S (S m) - 1) with (S m) by lia. replace (S m - 1) with m by lia.
    pose proof (Nat.div_mod_eq m per_row) as Hm.
    pose proof (Nat.mod_upper_bound m per_row ltac:(lia)) as Hr.
    destruct (decide (S (m mod per_row) = per_row)) as [Hfull|Hpart].
    + rewrite bool_decide_true.
      * symmetry. apply (Nat.div_unique _ _ _ 0); [lia|nia].
      * symmetry. apply (Nat.mod_unique _ _ (S (m / per_row))); [lia|nia].
    + rewrite bool_decide_false.
      * rewrite Nat.add_0_r. symmetry.
        apply (Nat.div_unique _ _ _ (S (m mod per_row))); [lia|nia].
      * rewrite <- (Nat.mod_unique (S m) per_row (m / per_row)
                     (S (m mod per_row))); [lia|lia|nia].
Qed.

Lemma adds_elements nodes lines parent drawing drawing' :
  adds nodes lines parent drawing drawing' →
  ∃ elements,
    Drawing.elements drawing' = Drawing.elements drawing ++ elements ∧
    length elements = length nodes.
Proof.
  intros (es & ls & -> & Hkeys & Hnodes & _). exists es. split; [done|].
  by rewrite <- Hnodes, length_fmap.
Qed.

Lemma forEach_places process gap per_row step left lines parent children :
  0 < per_row →
  Forall (λ child, ∀ x y drawing,
            adds (preorder child) (lines child) parent drawing
                 (process child x y drawing) ∧
            ∃ element,
              Drawing.elements (process child x y drawing)
                !! length (Drawing.elements drawing) = Some element ∧
              NodeComponent.node element = child ∧
              NodeComponent.y element = y) children →
  ∀ i child, children !! i = Some child →
  ∀ index childX childY drawing,
    ∃ element,
      Drawing.elements
        (forEach process gap per_row step left children index childX childY
           drawing)
        !! (length (Drawing.elements drawing) +
            length (flat_map preorder (take i children))) = Some element ∧
      NodeComponent.node element = child ∧
      NodeComponent.y element =
        childY + step * ((index + i - 1) / per_row - (index - 1) / per_row).
Proof.
  intros Hp. induction 1 as [|first children Hfirst Hrest IH].
  { intros i child Hi. by rewrite lookup_nil in Hi. }
  intros i child Hi index childX childY drawing.
  destruct (Hfirst childX childY drawing) as [Hadds (e & He & Hnode & Hy)].
  destruct (adds_elements _ _ _ _ _ Hadds) as (es & Hes & Hlength).
  assert (∀ index childX childY drawing, ∃ elements,
            Drawing.elements
              (forEach process gap per_row step left children index childX
                 childY drawing) =
            Drawing.elements drawing ++ elements) as Hgrows.
  { intros index' childX' childY' drawing'.
    destruct (adds_elements _ _ _ _ _
                (forEach_adds process gap per_row step left lines parent
                   children
                   ltac:(eapply Forall_impl; [|exact Hrest];
                         intros ? Hchild ? ? ?; apply Hchild)
                   index' childX' childY' drawing'))
      as (es' & Hes' & _).
    by exists es'. }
  cbn [forEach]. destruct i as [|i].
  - injection Hi as ->. exists e. cbn [take flat_map length].
    rewrite !Nat.add_0_r, Nat.sub_diag, Nat.mul_0_r, Nat.add_0_r.
    split; [|done].
    destruct (bool_decide (0 < index) && bool_decide (index mod per_row = 0));
      match goal with
      | |- Drawing.elements (forEach _ _ _ _ _ _ ?n ?x ?y ?d) !! _ = _ =>
          destruct (Hgrows n x y d) as [es' ->]
      end;
      by apply lookup_app_l_Some.
  - cbn [lookup list_lookup] in Hi.
    pose proof (wraps_S per_row index Hp) as Hwraps.
    assert ((S index - 1) / per_row ≤ (S index + i - 1) / per_row) as Hle
      by (apply Nat.Div0.div_le_mono; lia).
    replace (index + S i) with (S index + i) by lia.
    cbn [take flat_map]. rewrite length_app, <- Hlength.
    destruct (bool_decide (0 < index) && bool_decide (index mod per_row = 0));
      match goal with
      | |- context [forEach _ _ _ _ _ _ ?n ?x ?y ?d] =>
          destruct (IH i child Hi n x y d) as (e' & He' & Hnode' & Hy')
      end;
      exists e'; rewrite Hes, length_app in He';
      (split; [by rewrite Nat.add_assoc|]); (split; [done|]);
      rewrite Hy'; remember ((S index + i - 1) / per_row) as a;
      remember ((S index - 1) / per_row) as b;
      remember ((index - 1) / per_row) as c; nia.
Qed.

Lemma processNode_adds_child selectedNode child px py width height id x y
    level drawing :
  adds (preorder child) (length (preorder child)) (Some id) drawing
    (processNode selectedNode child (Some (Pos.mk px py width height id)) x y
       level drawing).
Proof.
  pose proof (processNode_adds selectedNode child
                (Some (Pos.mk px py width height id)) x y level drawing)
    as Hadds.
  by rewrite Nat.sub_0_r in Hadds.
Qed.

Lemma processNode_heads selectedNode astNode parentPos x y level drawing :
  Drawing.elements (processNode selectedNode astNode parentPos x y level drawing)
    !! length (Drawing.elements drawing) =
  Some (NodeComponent.mk (Drawing.nodeId drawing) astNode x y
          (isSelected selectedNode astNode)).
Proof.
  destruct astNode as [type properties children]. cbn [processNode].
  match goal with
  | |- Drawing.elements (forEach ?process _ _ _ _ _ _ _ _ ?d) !! _ = _ =>
      destruct (adds_elements _ _ _ _ _
                  (forEach_adds process 30 3 100 x
                     (λ child, length (preorder child))
                     (Some (Drawing.nodeId drawing))
                     (ASTNode.children (ASTNode.mk type properties children))
                     ltac:(apply Forall_forall; intros child _ x' y' drawing';
                           apply processNode_adds_child)
                     0 x (y + node_height (ASTNode.mk type properties children)
                          + 40) d))
        as (es & Hes & _)
  end.
  rewrite Hes. cbn [Drawing.elements].
  apply lookup_app_l_Some. by rewrite list_lookup_middle.
Qed.

(** X22. The rows of the children.  The child at index [i] of a node drawn
    at height [y] is drawn [node_height + 40] lower, and a further 100 lower
    for each row before its own: its row is [(i - 1) / 3], so the first row
    takes the four children at indices 0 to 3 and every later row three. *)
Theorem children_rows selectedNode astNode parentPos x y level drawing i child :
  ASTNode.children astNode !! i = Some child →
  ∃ element,
    Drawing.elements
      (processNode selectedNode astNode parentPos x y level drawing)
      !! (length (Drawing.elements drawing) + 1 +
          length (flat_map preorder (take i (ASTNode.children astNode)))) =
      Some element ∧
    NodeComponent.node element = child ∧
    NodeComponent.y element = y + node_height astNode + 40 + 100 * ((i - 1) / 3).
Proof.
  intros Hi. destruct astNode as [type properties children].
  cbn [processNode ASTNode.children] in *.
  match goal with
  | |- ∃ _, Drawing.elements (forEach ?process _ _ _ _ _ _ _ _ ?d) !! _ = _ ∧ _ =>
      destruct (forEach_places process 30 3 100 x
                  (λ child, length (preorder child))
                  (Some (Drawing.nodeId drawing)) children ltac:(lia)
                  ltac:(apply Forall_forall; intros child' _ x' y' drawing';
                        split;
                        [apply processNode_adds_child
                        |eexists; split; [apply processNode_heads|done]])
                  i child Hi 0 x
                  (y + node_height (ASTNode.mk type properties children) + 40)
                  d)
        as (e & He & Hnode & Hy)
  end.
  exists e. cbn [Drawing.elements] in He. rewrite length_app in He.
  split; [exact He|]. split; [done|]. rewrite Hy.
  by rewrite Nat.add_0_l, Nat.Div0.div_0_l, Nat.sub_0_r.
Qed.

Lemma children_rows_witness :
  let leaf := ASTNode.new "port" in
  let last := ASTNode.new "attribute" in
  let part := ASTNode.mk "part" ∅ [leaf; leaf; leaf; leaf; last] in
  ∃ element,
    Drawing.elements
      (processNode None part None (Some 50) 50 0 (Drawing.mk 0 [] [])) !! 5 =
      Some element ∧
    NodeComponent.node element = last ∧
    NodeComponent.y element = 250.
Proof.
  intros leaf last part.
  exact (children_rows None part None (Some 50) 50 0 (Drawing.mk 0 [] []) 4
           last eq_refl).
Defined.

(** X23. The rows of the top level.  The child at index [i] of the root is
    drawn at height [50 + 300 * ((i - 1) / 2)]: the first row takes the
    three children at indices 0 to 2 and every later row two. *)
Theorem top_level_rows ast selectedNode i child :
  ASTNode.children ast !! i = Some child →
  ∃ element,
    (astToSVG ast selectedNode).1
      !! length (flat_map preorder (take i (ASTNode.children ast))) =
      Some element ∧
    NodeComponent.node element = child ∧
    NodeComponent.y element = 50 + 300 * ((i - 1) / 2).
Proof.
  intros Hi. unfold astToSVG. cbn [fst].
  destruct (forEach_places
              (λ child rootX rootY,
                 processNode selectedNode child None rootX rootY 0)
              100 2 300 (Some 50) (λ child, length (preorder child) - 1) None
              (ASTNode.children ast) ltac:(lia)
              ltac:(apply Forall_forall; intros child' _ x' y' drawing';
                    split;
                    [apply (processNode_adds selectedNode child' None)
                    |eexists; split; [apply processNode_heads|done]])
              i child Hi 0 (Some 50) 50 (Drawing.mk 0 [] []))
    as (e & He & Hnode & Hy).
  exists e. split; [exact He|]. split; [done|]. rewrite Hy.
  by rewrite Nat.add_0_l, Nat.Div0.div_0_l, Nat.sub_0_r.
Qed.

Lemma top_level_rows_witness :
  let part := ASTNode.mk "part" ∅ [ASTNode.new "port"] in
  let last := ASTNode.new "requirement" in
  let ast := ASTNode.mk "root" ∅ [part; part; part; last] in
  ∃ element,
    (astToSVG ast None).1 !! 6 = Some element ∧
    NodeComponent.node element = last ∧
    NodeComponent.y element = 350.
Proof.
  intros part last ast.
  exact (top_level_rows ast None 3 last eq_refl).
Defined.

(** X24. With no node selected, [selectedNode?.properties.name] is
    [undefined], which is what a node without a name has too: exactly the
    nodes that have no [name] property are drawn as selected. *)
Theorem nothing_selected (astNode : ASTNode) :
  isSelected None astNode = Some true ↔
  ASTNode.properties astNode !! "name" = None.
Proof.
  unfold isSelected. cbn [mbind option_bind].
  destruct (ASTNode.properties astNode !! "name") as [[| |]|]; by split.
Qed.

(** X25. The width of a node whose name is a string, as the parser stores
    it, or that has no name, is a whole number of at least 120 that is
    even, so that the middle of the node, where its lines end, is a whole
    number too. *)
Theorem node_width_even (node : ASTNode) :
  (∀ lexeme, ASTNode.properties node !! "name" ≠ Some (VNum lexeme)) →
  ∃ width,
    node_width node = Some width ∧ 120 ≤ width ∧ width = 2 * (width / 2).
Proof.
  intros Hname. unfold node_width.
  assert (∀ n, 120 `max` (n * 8 + 40) =
               2 * ((120 `max` (n * 8 + 40)) / 2)) as Heven.
  { intros n. destruct (Nat.max_spec 120 (n * 8 + 40)) as [[_ ->]|[_ ->]].
    - replace (n * 8 + 40) with ((n * 4 + 20) * 2) by lia.
      rewrite Nat.div_mul by done. lia.
    - reflexivity. }
  destruct (ASTNode.properties node !! "name") as [[[|c name]|lexeme|]|];
    try (by destruct (Hname lexeme));
    eexists; (split; [reflexivity|]); (split; [lia|apply Heven]).
Qed.

Lemma node_width_even_witness :
  ∃ width,
    node_width (ASTNode.set (ASTNode.new "part") "name" (VStr (js "Engine"))) =
      Some width ∧
    120 ≤ width ∧ width = 2 * (width / 2).
Proof.
  apply (node_width_even
           (ASTNode.set (ASTNode.new "part") "name" (VStr (js "Engine")))).
  intros lexeme. by vm_compute.
Defined.

End Rendering.
